(** * Water-flow visualisation: the numerical core of
      [water_flow_visualization.py]

    A shallow embedding of the grid, stream function, velocity field,
    separable Gaussian blur, bilinear sampler, semi-Lagrangian advection,
    initial dye and simulation loop.

    Modelling conventions.
    - numpy [float64]/[float32] values are exact rationals ([Q]); every
      equation between array values is therefore stated up to [Qeq], and
      rounding, NaN and infinities are outside the model; the one function
      whose results are compared bit for bit, [bilinear_sample], is
      modelled a second time on IEEE 754 binary64 numbers
      ([bilinear_sample64]);
    - Python [int] is [Z];
    - an n-dimensional array is a nested list, outermost axis first; an
      array with no rows has no columns (the only such array the program
      builds is 0 x 0 x 3);
    - a raised Python exception is the [Raise] branch of [result];
    - the C library functions [sin], [cos], [exp], [hypot], the constant
      [pi] and the standard-normal stream of [default_rng(42)] have no
      rational counterpart: they are the fields of a [Libm] record that the
      functions using them take as an argument;
    - the matplotlib live view is an output sink with no influence on the
      frames; it is not modelled. *)

From Stdlib Require Import Floats.
From Stdlib Require Import Ascii String.
From Stdlib Require Import ZArith QArith Qround Qminmax Qabs Qpower List Lia
  Lqa Bool Setoid Morphisms.
Import ListNotations.

Local Open Scope Q_scope.

(** ** Exceptions *)

Inductive exn : Set :=
| ValueError
| IndexError
| ZeroDivisionError.

Inductive result (A : Type) : Type :=
| Ok (a : A)
| Raise (e : exn).

Arguments Ok {A} a.
Arguments Raise {A} e.

Definition bind {A B : Type} (m : result A) (k : A -> result B) : result B :=
  match m with
  | Ok a => k a
  | Raise e => Raise e
  end.

Notation "x <- m ;; k" := (bind m (fun x => k))
  (at level 61, m at next level, right associativity).
Notation "' pat <- m ;; k" := (bind m (fun x => match x with pat => k end))
  (at level 61, pat pattern, m at next level, right associativity).

Fixpoint mapM {A B : Type} (f : A -> result B) (l : list A) : result (list B) :=
  match l with
  | [] => Ok []
  | a :: l' => b <- f a ;; bs <- mapM f l' ;; Ok (b :: bs)
  end.

(** ** Arrays *)

Abbreviation vec := (list Q) (only parsing).
Abbreviation mat := (list (list Q)) (only parsing).
Abbreviation field := (list (list (list Q))) (only parsing).
Abbreviation frame := (list (list (list Z))) (only parsing).

(** [a.shape[1]] and [a.shape[2]]. *)
Definition ncols {A : Type} (a : list (list A)) : nat :=
  match a with
  | [] => O
  | r :: _ => length r
  end.

Definition nchan {A : Type} (a : list (list (list A))) : nat :=
  match a with
  | [] => O
  | r :: _ => ncols r
  end.

(** [a[i]] for a Python integer [i]: negative indices count from the end. *)
Definition getitem {A : Type} (l : list A) (i : Z) : result A :=
  let n := Z.of_nat (length l) in
  let k := if (i <? 0)%Z then (i + n)%Z else i in
  if ((0 <=? k) && (k <? n))%Z
  then match nth_error l (Z.to_nat k) with
       | Some a => Ok a
       | None => Raise IndexError
       end
  else Raise IndexError.

(** numpy broadcasting of two arrays of the same rank along one axis:
    equal lengths pair up, a length-1 axis is stretched, anything else is
    "operands could not be broadcast together". *)
Definition bzip {A B C : Type} (f : A -> B -> result C)
    (a : list A) (b : list B) : result (list C) :=
  if Nat.eqb (length a) (length b)
  then mapM (fun p => f (fst p) (snd p)) (combine a b)
  else match a, b with
       | [x], _ => mapM (f x) b
       | _, [y] => mapM (fun x => f x y) a
       | _, _ => Raise ValueError
       end.

Definition lift2 (g : Q -> Q -> Q) (x y : Q) : result Q := Ok (g x y).

Definition bzip1 (g : Q -> Q -> Q) : vec -> vec -> result vec :=
  bzip (lift2 g).
Definition bzip2 (g : Q -> Q -> Q) : mat -> mat -> result mat :=
  bzip (bzip1 g).
Definition bzip3 (g : Q -> Q -> Q) : field -> field -> result field :=
  bzip (bzip2 g).

Definition map2d {A B : Type} (g : A -> B) : list (list A) -> list (list B) :=
  map (map g).
Definition map3d {A B : Type} (g : A -> B)
  : list (list (list A)) -> list (list (list B)) :=
  map (map (map g)).

Definition sumQ (l : list Q) : Q := fold_right Qplus 0 l.

(** [np.clip(x, lo, hi)] is [minimum(maximum(x, lo), hi)]. *)
Definition clip (x lo hi : Q) : Q := Qmin (Qmax x lo) hi.
Definition clipZ (x lo hi : Z) : Z := Z.min (Z.max x lo) hi.

(** [int(x)] on a float: truncation toward zero. *)
Definition Qtrunc (x : Q) : Z := Z.quot (Qnum x) (Zpos (Qden x)).

(** [np.arange(lo, hi)] on integers. *)
Definition arange (lo hi : Z) : list Z :=
  map (fun k => (lo + Z.of_nat k)%Z) (seq 0 (Z.to_nat (hi - lo))).

(** Replace the last element ([y[-1] = stop]). *)
Fixpoint set_last {A : Type} (l : list A) (v : A) : list A :=
  match l with
  | [] => []
  | [_] => [v]
  | a :: l' => a :: set_last l' v
  end.

(** [np.linspace(start, stop, num, endpoint)]: [arange(num) * step + start]
    with [step = (stop - start) / div], [div = num - 1] or [num]; a negative
    [num] is a [ValueError]. *)
Definition linspace (start stop : Q) (num : Z) (endpoint : bool)
  : result vec :=
  if (num <? 0)%Z then Raise ValueError else
  let div := if endpoint then (num - 1)%Z else num in
  let delta := stop - start in
  let ks := map inject_Z (arange 0 num) in
  let y := if (0 <? div)%Z
           then map (fun k => k * (delta / inject_Z div) + start) ks
           else map (fun k => k * delta + start) ks in
  Ok (if endpoint && (1 <? num)%Z then set_last y stop else y).

(** [np.meshgrid(a, b, indexing="ij")]: [A[i,j] = a[i]], [B[i,j] = b[j]]. *)
Definition meshgrid_ij {A : Type} (a b : list A)
  : list (list A) * list (list A) :=
  (map (fun ai => map (fun _ => ai) b) a, map (fun _ => b) a).

(** [np.meshgrid(a, b)] with the default ["xy"] indexing:
    [A[i,j] = a[j]], [B[i,j] = b[i]], both of shape [len b x len a]. *)
Definition meshgrid_xy {A : Type} (a b : list A)
  : list (list A) * list (list A) :=
  (map (fun _ => a) b, map (fun bi => map (fun _ => bi) a) b).

(** ** build_grid *)

Definition build_grid (resolution : Z) : result (mat * mat) :=
  axis <- linspace 0 1 resolution false ;;
  Ok (meshgrid_ij axis axis).

(** ** The C library and the random stream *)

Record Libm : Type := {
  sin : Q -> Q;
  cos : Q -> Q;
  exp : Q -> Q;
  hypot : Q -> Q -> Q;
  pi : Q;
  (** the k-th draw of [default_rng(42)]'s standard-normal stream *)
  standard_normal : nat -> Q
}.

(** ** stream_function *)

(** One cell of [stream_function(x, y, t)]. *)
Definition stream_function_at (L : Libm) (t x y : Q) : Q :=
  let base := sin L (2 * pi L * (3 * x + 0.7 * t))
              * sin L (2 * pi L * (3 * y - 0.5 * t)) in
  let swirl := cos L (2 * pi L * (2 * x - 0.3 * t))
               * cos L (2 * pi L * (2 * y + 0.4 * t)) in
  let ripple := sin L (2 * pi L * (4 * x + y + 0.2 * t)) in
  base + 0.6 * swirl + 0.25 * ripple.

Definition stream_function (L : Libm) (x y : mat) (t : Q) : result mat :=
  bzip2 (stream_function_at L t) x y.

(** ** np.gradient *)

(** [np.gradient] of a 1-D array with unit spacing and [edge_order = 1]:
    central differences inside, one-sided differences at both ends; fewer
    than two samples is a [ValueError]. *)
Definition gradient1d (f : vec) : result vec :=
  let n := length f in
  if Nat.ltb n 2 then Raise ValueError else
  Ok (map (fun i =>
             if Nat.eqb i 0 then (nth 1 f 0 - nth 0 f 0) / 1
             else if Nat.eqb i (n - 1)
                  then (nth (n - 1) f 0 - nth (n - 2) f 0) / 1
                  else (nth (i + 1) f 0 - nth (i - 1) f 0) / 2)
          (seq 0 n)).

(** Column [j] of a 2-D array, and the transposed array. *)
Definition column (j : nat) (m : mat) : vec := map (fun r => nth j r 0) m.
Definition transpose (m : mat) : mat :=
  map (fun j => column j m) (seq 0 (ncols m)).

(** [np.gradient(psi, axis=1)]: along each row. *)
Definition gradient_axis1 (psi : mat) : result mat :=
  if Nat.ltb (ncols psi) 2 then Raise ValueError else mapM gradient1d psi.

(** [np.gradient(psi, axis=0)]: along each column. *)
Definition gradient_axis0 (psi : mat) : result mat :=
  if Nat.ltb (length psi) 2 then Raise ValueError else
  cols <- mapM gradient1d (transpose psi) ;;
  Ok (transpose cols).

(** ** np.convolve and np.apply_along_axis *)

(** Entry [t] of the full discrete convolution of [a] and [v],
    [sum_j a[t-j] * v[j]], with [a] read as zero outside its bounds. *)
Definition conv_at (a v : vec) (t : nat) : Q :=
  sumQ (map (fun j => (if Nat.leb j t then nth (t - j) a 0 else 0) * nth j v 0)
            (seq 0 (length v))).

(** [np.convolve(a, v, mode="same")]: empty operands are a [ValueError];
    the operands are swapped when [v] is the longer one; the result is the
    centred slice of the full convolution, of length
    [max(len a, len v)]. *)
Definition convolve_same (a v : vec) : result vec :=
  if Nat.eqb (length a) 0 || Nat.eqb (length v) 0 then Raise ValueError else
  let '(a, v) := if Nat.ltb (length a) (length v) then (v, a) else (a, v) in
  let off := Nat.div (length v - 1) 2 in
  Ok (map (fun i => conv_at a v (i + off)%nat) (seq 0 (length a))).

(** The 1-D slices of a 3-D array: [arr[:, j, c]] and [arr[i, :, c]]. *)
Definition slice0 (arr : field) (j c : nat) : vec :=
  map (fun row => nth c (nth j row []) 0) arr.
Definition slice1 (row : mat) (c : nat) : vec :=
  map (fun cell => nth c cell 0) row.

(** Every slice result must have the shape of the first one. *)
Definition same_length (n : nat) (r : result vec) : result vec :=
  v <- r ;; if Nat.eqb (length v) n then Ok v else Raise ValueError.

(** [np.apply_along_axis(f, 0, arr)]: [out[:, j, c] = f(arr[:, j, c])];
    an empty iteration dimension is a [ValueError]. *)
Definition apply_along_axis0 (f : vec -> result vec) (arr : field)
  : result field :=
  let w := ncols arr in
  let ch := nchan arr in
  if Nat.eqb w 0 || Nat.eqb ch 0 then Raise ValueError else
  r0 <- f (slice0 arr 0 0) ;;
  let n := length r0 in
  cols <- mapM (fun j => mapM (fun c => same_length n (f (slice0 arr j c)))
                              (seq 0 ch))
               (seq 0 w) ;;
  Ok (map (fun i => map (fun colj => map (fun r => nth i r 0) colj) cols)
          (seq 0 n)).

(** [np.apply_along_axis(f, 1, arr)]: [out[i, :, c] = f(arr[i, :, c])]. *)
Definition apply_along_axis1 (f : vec -> result vec) (arr : field)
  : result field :=
  let h := length arr in
  let ch := nchan arr in
  if Nat.eqb h 0 || Nat.eqb ch 0 then Raise ValueError else
  r0 <- f (slice1 (nth 0 arr []) 0) ;;
  let n := length r0 in
  mapM (fun row =>
          chans <- mapM (fun c => same_length n (f (slice1 row c)))
                        (seq 0 ch) ;;
          Ok (map (fun j => map (fun r => nth j r 0) chans) (seq 0 n)))
       arr.

(** ** gaussian_blur *)

(** [radius = int(max(1, sigma * 3))]. *)
Definition blur_radius (sigma : Q) : Z := Qtrunc (Qmax 1 (sigma * 3)).

(** [offsets = np.arange(-radius, radius + 1)]. *)
Definition blur_offsets (sigma : Q) : list Z :=
  arange (- blur_radius sigma) (blur_radius sigma + 1).

(** [np.exp(-(offsets**2) / (2 * sigma**2))]. *)
Definition raw_weights (L : Libm) (sigma : Q) : vec :=
  map (fun k => exp L (- inject_Z (k * k) / (2 * (sigma * sigma))))
      (blur_offsets sigma).

(** [weights /= weights.sum()]. *)
Definition blur_weights (L : Libm) (sigma : Q) : vec :=
  let w := raw_weights L sigma in
  map (fun x => x / sumQ w) w.

Definition gaussian_blur (L : Libm) (fld : field) (sigma : Q) : result field :=
  if Qle_bool sigma 0 then Ok fld else
  let weights := blur_weights L sigma in
  b0 <- apply_along_axis0 (fun m => convolve_same m weights) fld ;;
  apply_along_axis1 (fun m => convolve_same m weights) b0.

(** ** velocity_field *)

(** [np.stack((u, v), axis=-1)] of two 2-D arrays; the shapes must agree. *)
Definition stack_last (u v : mat) : result field :=
  if Nat.eqb (length u) (length v)
  then mapM (fun p =>
               if Nat.eqb (length (fst p)) (length (snd p))
               then Ok (map (fun q => [fst q; snd q]) (combine (fst p) (snd p)))
               else Raise ValueError)
            (combine u v)
  else Raise ValueError.

Definition velocity_field (L : Libm) (resolution : Z) (t strength : Q)
  : result field :=
  '(x, y) <- build_grid resolution ;;
  psi <- stream_function L x y t ;;
  dpsi_dy <- gradient_axis0 psi ;;
  dpsi_dx <- gradient_axis1 psi ;;
  let u := map2d (fun d => d * strength * inject_Z resolution) dpsi_dy in
  let v := map2d (fun d => - d * strength * inject_Z resolution) dpsi_dx in
  velocity <- stack_last u v ;;
  gaussian_blur L velocity 1.

(** ** bilinear_sample *)

Definition vscale (s : Q) (v : vec) : vec := map (fun c => c * s) v.
Definition vadd (a b : vec) : vec :=
  map (fun p => fst p + snd p) (combine a b).

(** [field[y, x]] for integer indices. *)
Definition cell (fld : field) (y x : Z) : result vec :=
  row <- getitem fld y ;; getitem row x.

(** One sample of [bilinear_sample]: the neighbours are clamped first and
    the fractions are taken against the clamped [x0], [y0]. *)
Definition sample_at (fld : field) (x y : Q) : result vec :=
  let h := Z.of_nat (length fld) in
  let w := Z.of_nat (ncols fld) in
  let x0 := Qfloor x in
  let y0 := Qfloor y in
  let x1 := clipZ (x0 + 1) 0 (w - 1) in
  let y1 := clipZ (y0 + 1) 0 (h - 1) in
  let x0 := clipZ x0 0 (w - 1) in
  let y0 := clipZ y0 0 (h - 1) in
  let fx := x - inject_Z x0 in
  let fy := y - inject_Z y0 in
  f00 <- cell fld y0 x0 ;;
  f01 <- cell fld y0 x1 ;;
  f10 <- cell fld y1 x0 ;;
  f11 <- cell fld y1 x1 ;;
  let top := vadd (vscale (1 - fx) f00) (vscale fx f01) in
  let bottom := vadd (vscale (1 - fx) f10) (vscale fx f11) in
  Ok (vadd (vscale (1 - fy) top) (vscale fy bottom)).

Definition bilinear_sample (fld : field) (x y : mat) : result field :=
  bzip (bzip (sample_at fld)) x y.

(** ** advect *)

(** [velocity[..., k]]. *)
Definition channel (k : Z) (velocity : field) : result mat :=
  mapM (mapM (fun c => getitem c k)) velocity.

Definition advect (fld velocity : field) (dt : Q) : result field :=
  let h := Z.of_nat (length fld) in
  let w := Z.of_nat (ncols fld) in
  let '(y, x) := meshgrid_ij (map inject_Z (arange 0 h))
                             (map inject_Z (arange 0 w)) in
  vel0 <- channel 0 velocity ;;
  x_back <- bzip2 Qminus x (map2d (Qmult dt) vel0) ;;
  vel1 <- channel 1 velocity ;;
  y_back <- bzip2 Qminus y (map2d (Qmult dt) vel1) ;;
  let x_back := map2d (fun v => clip v 0 (inject_Z (w - 1))) x_back in
  let y_back := map2d (fun v => clip v 0 (inject_Z (h - 1))) y_back in
  bilinear_sample fld x_back y_back.

(** ** create_initial_dye *)

(** [rng.normal(loc, scale, size=(n, m, c))]: the array is filled in row-major
    order from the generator's stream. *)
Definition normal (L : Libm) (loc scale : Q) (n m c : nat) : field :=
  map (fun i =>
         map (fun j =>
                map (fun k =>
                       loc + scale * standard_normal L ((i * m + j) * c + k))
                    (seq 0 c))
             (seq 0 m))
      (seq 0 n).

Definition base_color : vec := [30; 90; 180].

Definition create_initial_dye (L : Libm) (resolution : Z) : result field :=
  if (resolution <? 0)%Z then Raise ValueError else
  let n := Z.to_nat resolution in
  let dye := repeat (repeat base_color n) n in
  let turbulence := normal L 0 20 n n 3 in
  dye <- bzip3 Qplus dye turbulence ;;
  ax <- linspace (-1) 1 resolution true ;;
  let '(gx, gy) := meshgrid_xy ax ax in
  vignette <- bzip2 (hypot L) gx gy ;;
  let vignette := map2d (fun r => clip (1 - 0.8 * r) 0.2 1) vignette in
  dye <- bzip (bzip (fun c v => Ok (vscale v c))) dye vignette ;;
  Ok (map3d (fun v => clip v 0 255) dye).

(** ** run_simulation *)

Record SimulationConfig : Type := {
  resolution : Z;
  steps : Z;
  dt : Q;
  strength : Q;
  live_view : bool;
  fps : Z
}.

(** [.astype(np.uint8)]: truncation toward zero, kept to eight bits. *)
Definition to_uint8 (v : Q) : Z := (Qtrunc v mod 256)%Z.

(** [np.clip(dye, 0, 255).astype(np.uint8)]. *)
Definition to_frame (dye : field) : frame :=
  map3d (fun v => to_uint8 (clip v 0 255)) dye.

(** [0.995 * dye + 0.005 * base_dye]. *)
Definition dissipate (dye base_dye : field) : result field :=
  bzip3 Qplus (map3d (Qmult 0.995) dye) (map3d (Qmult 0.005) base_dye).

(** The loop body up to the new dye buffer, for a given velocity field. *)
Definition transport (base_dye dye vel : field) (dt : Q) : result field :=
  dye1 <- advect dye vel dt ;;
  dissipate dye1 base_dye.

Definition sim_step (L : Libm) (cfg : SimulationConfig)
    (base_dye dye : field) (step : Z) : result field :=
  let t := inject_Z step / inject_Z (steps cfg) * 6 in
  vel <- velocity_field L (resolution cfg) t (strength cfg) ;;
  transport base_dye dye vel (dt cfg).

(** The [for step in range(config.steps)] loop over the remaining step
    indices, threading the dye buffer and the frame list. *)
Fixpoint sim_loop (L : Libm) (cfg : SimulationConfig) (base_dye : field)
    (todo : list Z) (dye : field) (frames : list frame)
  : result (field * list frame) :=
  match todo with
  | [] => Ok (dye, frames)
  | step :: rest =>
      dye' <- sim_step L cfg base_dye dye step ;;
      sim_loop L cfg base_dye rest dye' (frames ++ [to_frame dye'])
  end.

(** [pause_time = max(0.0005, 1.0 / config.fps)] is evaluated before the
    loop whether or not the live view is on. *)
Definition pause_time (cfg : SimulationConfig) : result Q :=
  if (fps cfg =? 0)%Z then Raise ZeroDivisionError
  else Ok (Qmax 0.0005 (1 / inject_Z (fps cfg))).

Definition run_simulation (L : Libm) (cfg : SimulationConfig)
  : result (list frame) :=
  base_dye <- create_initial_dye L (resolution cfg) ;;
  _ <- pause_time cfg ;;
  '(_, frames) <- sim_loop L cfg base_dye (arange 0 (steps cfg)) base_dye [] ;;
  Ok frames.

(** ** Specification vocabulary *)

(** Equality of arrays, entry by entry, up to [Qeq]. *)
Definition veq : vec -> vec -> Prop := Forall2 Qeq.
Definition meq : mat -> mat -> Prop := Forall2 veq.
Definition feq : field -> field -> Prop := Forall2 meq.

(** Shapes: an [h x w] and an [h x w x c] array. *)
Definition regular2 {A : Type} (h w : nat) (m : list (list A)) : Prop :=
  length m = h /\ Forall (fun r => length r = w) m.
Definition regular3 {A : Type} (h w c : nat) (f : list (list (list A)))
  : Prop :=
  length f = h /\ Forall (regular2 w c) f.

(** Entry access with a default, for stating what an array contains. *)
Definition get2 (m : mat) (i j : nat) : Q := nth j (nth i m []) 0.
Definition get3 (f : field) (i j k : nat) : Q :=
  nth k (nth j (nth i f []) []) 0.
Definition getz3 (f : frame) (i j k : nat) : Z :=
  nth k (nth j (nth i f []) []) 0%Z.

(** An [h x w x c] array whose entry [(i, j, k)] satisfies [P i j k]. *)
Definition tabulated3 (h w c : nat) (P : nat -> nat -> nat -> Q -> Prop)
    (f : field) : Prop :=
  regular3 h w c f /\
  forall i j k, (i < h)%nat -> (j < w)%nat -> (k < c)%nat ->
                P i j k (get3 f i j k).

(** One-dimensional linear interpolation as [bilinear_sample] performs it
    along an axis of length [n]: both neighbours are clamped, the fraction
    is taken against the clamped lower neighbour. *)
Definition lerp1 (g : Z -> Q) (n : Z) (x : Q) : Q :=
  let i0 := clipZ (Qfloor x) 0 (n - 1) in
  let i1 := clipZ (Qfloor x + 1) 0 (n - 1) in
  let f := x - inject_Z i0 in
  g i0 * (1 - f) + g i1 * f.

(** The bilinear blend of channel [k] of [fld] at [(x, y)]. *)
Definition bilerp (fld : field) (k : nat) (x y : Q) : Q :=
  lerp1 (fun yi =>
           lerp1 (fun xi => get3 fld (Z.to_nat yi) (Z.to_nat xi) k)
                 (Z.of_nat (ncols fld)) x)
        (Z.of_nat (length fld)) y.

(** The dye buffer after [k] iterations of the loop body (the buffer that
    frame [k - 1] is taken from). *)
Fixpoint dye_after (L : Libm) (cfg : SimulationConfig) (base_dye : field)
    (k : nat) : result field :=
  match k with
  | O => Ok base_dye
  | S k' =>
      dye <- dye_after L cfg base_dye k' ;;
      sim_step L cfg base_dye dye (Z.of_nat k')
  end.

(** A rational stand-in for the C library and the random stream, used to
    run the model on concrete inputs: short Taylor polynomials, a positive
    rational function for [exp], the alpha-max-plus-beta-min estimate of
    [hypot] and a bounded periodic noise stream. *)
Definition sample_libm : Libm := {|
  sin := fun x => x - x * x * x / 6;
  cos := fun x => 1 - x * x / 2;
  exp := fun x => 1 / (1 - x + x * x / 2);
  hypot := fun x y => Qmax (Qabs x) (Qabs y) + Qmin (Qabs x) (Qabs y) / 2;
  pi := 355 # 113;
  standard_normal := fun k => inject_Z (Z.of_nat k mod 5) / 2 - 1
|}.

(** The default configuration with the display off, at a given size. *)
Definition config (n s : Z) : SimulationConfig := {|
  resolution := n;
  steps := s;
  dt := 0.6;
  strength := 1.4;
  live_view := false;
  fps := 60
|}.

(** Python's [round]: to the nearest integer, ties to the even one. *)
Definition round_half_even (x : Q) : Z :=
  let f := Qfloor x in
  match Qcompare (x - inject_Z f) (1 / 2) with
  | Lt => f
  | Gt => (f + 1)%Z
  | Eq => if Z.even f then f else (f + 1)%Z
  end.

(** Every entry of a 2-D or 3-D array satisfies [P]. *)
Definition all2 {A : Type} (P : A -> Prop) (m : list (list A)) : Prop :=
  Forall (Forall P) m.
Definition all3 {A : Type} (P : A -> Prop) (f : list (list (list A))) : Prop :=
  Forall (Forall (Forall P)) f.

(** A coordinate that is an exact integer between 0 and [n - 1]. *)
Definition integer_in (n : nat) (q : Q) : Prop :=
  q == inject_Z (Qfloor q) /\ (0 <= Qfloor q < Z.of_nat n)%Z.

(** [field[y, x]] for integer coordinates stored as numbers. *)
Definition cell_at (fld : field) (y x : Q) : vec :=
  nth (Z.to_nat (Qfloor x)) (nth (Z.to_nat (Qfloor y)) fld []) [].


(** A velocity field of shape [h x w x 2] that is zero everywhere. *)
Definition still (h w : nat) (vel : field) : Prop :=
  regular3 h w 2 vel /\ all3 (fun v => v == 0) vel.

(** A slice function that succeeds with a result of length [n] on every
    slice of length [h]. *)
Definition slicewise (f : vec -> result vec) (g : vec -> vec) (h n : nat)
  : Prop :=
  forall m, length m = h -> f m = Ok (g m) /\ length (g m) = n.

(** The centred slice of the full convolution, for a signal at least as
    long as the kernel. *)
Definition conv_centred (v a : vec) : vec :=
  map (fun i => conv_at a v (i + Nat.div (length v - 1) 2)%nat)
      (seq 0 (length a)).

(** A dye buffer of the run at resolution [n]: [n x n x 3], every value in
    [0,255]. *)
Definition dye_ok (n : nat) (dye : field) : Prop :=
  regular3 n n 3 dye /\ all3 (fun v => 0 <= v <= 255) dye.

(** A frame of the run at resolution [n]: [n x n x 3], every channel value
    an integer in [0,255]. *)
Definition frame_ok (n : nat) (fr : frame) : Prop :=
  regular3 n n 3 fr /\ all3 (fun v => (0 <= v <= 255)%Z) fr.

(** [np.convolve(a, v, "same")] when the kernel [v] is the longer operand:
    the roles are swapped and the result has the kernel's length. *)
Definition conv_swapped (v a : vec) : vec :=
  map (fun i => conv_at v a (i + Nat.div (length a - 1) 2)%nat)
      (seq 0 (length v)).

(** The direct two-dimensional convolution the separable blur is compared
    with, written from the specification's words: the kernel is the outer
    product of the 1-D weights, the output has the input's shape, and the
    input is read as zero beyond its bounds; each channel is convolved on
    its own. *)
Definition outer (u v : vec) : mat :=
  map (fun a => map (fun b => a * b) v) u.

Definition zero_padded (arr : field) (i j : Z) (k : nat) : Q :=
  if ((0 <=? i) && (i <? Z.of_nat (length arr))
      && (0 <=? j) && (j <? Z.of_nat (ncols arr)))%Z
  then get3 arr (Z.to_nat i) (Z.to_nat j) k
  else 0.

Definition conv2d_same (kernel : mat) (arr : field) : field :=
  let r0 := Z.of_nat (Nat.div (length kernel - 1) 2) in
  let r1 := Z.of_nat (Nat.div (ncols kernel - 1) 2) in
  map (fun i =>
    map (fun j =>
      map (fun k =>
        sumQ (map (fun p =>
          sumQ (map (fun q =>
                  get2 kernel p q
                  * zero_padded arr (Z.of_nat i + r0 - Z.of_nat p)
                                    (Z.of_nat j + r1 - Z.of_nat q) k)
                (seq 0 (ncols kernel))))
          (seq 0 (length kernel))))
        (seq 0 (nchan arr)))
      (seq 0 (ncols arr)))
    (seq 0 (length arr)).

(** The central-difference divergence of a velocity field at cell
    [(i, j)], in the units [advect] uses: channel 0 moves a pixel along the
    columns (x), channel 1 along the rows (y). *)
Definition divergence_at (vel : field) (i j : nat) : Q :=
  (get3 vel i (j + 1) 0 - get3 vel i (j - 1) 0) / 2
  + (get3 vel (i + 1) j 1 - get3 vel (i - 1) j 1) / 2.

(** ** The command line: apply_cli_overrides, save_gif and main *)

(** The dataclass [SimulationConfig] with all eight fields: the six that
    [run_simulation] reads (the record [SimulationConfig] above) and the two
    that only [save_gif] reads.  A [Path] is kept as the text it was built
    from. *)
Record Config : Type := {
  core : SimulationConfig;
  output_dir : string;
  gif_name : string
}.

(** [SimulationConfig()]: the defaults of the dataclass. *)
Definition default_config : Config := {|
  core := {| resolution := 512; steps := 180; dt := 0.6; strength := 1.4;
             live_view := true; fps := 60 |};
  output_dir := "output_frames";
  gif_name := "water_flow.gif"
|}.

(** Assignment to one attribute of the configuration object. *)
Definition set_core (c : Config) (k : SimulationConfig) : Config :=
  {| core := k; output_dir := output_dir c; gif_name := gif_name c |}.
Definition set_steps (c : Config) (v : Z) : Config :=
  set_core c {| resolution := resolution (core c); steps := v;
                dt := dt (core c); strength := strength (core c);
                live_view := live_view (core c); fps := fps (core c) |}.
Definition set_resolution (c : Config) (v : Z) : Config :=
  set_core c {| resolution := v; steps := steps (core c);
                dt := dt (core c); strength := strength (core c);
                live_view := live_view (core c); fps := fps (core c) |}.
Definition set_dt (c : Config) (v : Q) : Config :=
  set_core c {| resolution := resolution (core c); steps := steps (core c);
                dt := v; strength := strength (core c);
                live_view := live_view (core c); fps := fps (core c) |}.
Definition set_strength (c : Config) (v : Q) : Config :=
  set_core c {| resolution := resolution (core c); steps := steps (core c);
                dt := dt (core c); strength := v;
                live_view := live_view (core c); fps := fps (core c) |}.
Definition set_live_view (c : Config) (v : bool) : Config :=
  set_core c {| resolution := resolution (core c); steps := steps (core c);
                dt := dt (core c); strength := strength (core c);
                live_view := v; fps := fps (core c) |}.
Definition set_fps (c : Config) (v : Z) : Config :=
  set_core c {| resolution := resolution (core c); steps := steps (core c);
                dt := dt (core c); strength := strength (core c);
                live_view := live_view (core c); fps := v |}.
Definition set_gif_name (c : Config) (v : string) : Config :=
  {| core := core c; output_dir := output_dir c; gif_name := v |}.
Definition set_output_dir (c : Config) (v : string) : Config :=
  {| core := core c; output_dir := v; gif_name := gif_name c |}.

(** The builtins [int(value)] and [float(value)] on a string: the parsed
    number, or the message of the [ValueError] they raise (a float that is
    not finite is outside the model); and the text of a joined path. *)
Record Python : Type := {
  int_of_str : string -> string + Z;
  float_of_str : string -> string + Q;
  (** [str(Path(dir) / name)] *)
  path_join : string -> string -> string
}.

(** [raw.startswith("--")] together with [key = raw[2:]]. *)
Definition strip_dashes (raw : string) : option string :=
  match raw with
  | String "-" (String "-" key) => Some key
  | _ => None
  end.

(** [key.split(sep, 1)] when [sep in key]: the text before and after the
    first separator; [None] when there is none. *)
Fixpoint split_once (sep : ascii) (s : string) : option (string * string) :=
  match s with
  | EmptyString => None
  | String c s' =>
      if Ascii.eqb c sep then Some (EmptyString, s')
      else match split_once sep s' with
           | Some (a, b) => Some (String c a, b)
           | None => None
           end
  end.

(** One iteration of the loop of [apply_cli_overrides]: the new
    configuration and the lines printed. *)
Definition apply_one (P : Python) (c : Config) (raw : string)
  : Config * list string :=
  match strip_dashes raw with
  | None =>
      (c, [("Ignoring argument '" ++ raw
            ++ "'. Use --key=value format or --no-live-view.")%string])
  | Some key =>
      if String.eqb key "no-live-view" then (set_live_view c false, [])
      else match split_once "=" key with
      | None =>
          (c, [("Ignoring argument '--" ++ key
                ++ "'. Expected --key=value format or --no-live-view.")%string])
      | Some (opt, value) =>
          let failed (msg : string) :=
            (c, [("Failed to parse value for '--" ++ opt ++ "': "
                  ++ msg)%string]) in
          let as_int (k : Z -> Config) :=
            match int_of_str P value with
            | inr v => (k v, [])
            | inl msg => failed msg
            end in
          let as_float (k : Q -> Config) :=
            match float_of_str P value with
            | inr v => (k v, [])
            | inl msg => failed msg
            end in
          if String.eqb opt "steps" then as_int (set_steps c)
          else if String.eqb opt "resolution" then as_int (set_resolution c)
          else if String.eqb opt "dt" then as_float (set_dt c)
          else if String.eqb opt "strength" then as_float (set_strength c)
          else if String.eqb opt "gif-name" then (set_gif_name c value, [])
          else if String.eqb opt "output-dir"
               then (set_output_dir c value, [])
          else if String.eqb opt "fps" then as_int (set_fps c)
          else (c, [("Unknown option '--" ++ opt ++ "'.")%string])
      end
  end.

(** [apply_cli_overrides(config, args)]: the configuration returned and
    the lines printed, in order. *)
Fixpoint apply_cli_overrides (P : Python) (c : Config) (args : list string)
  : Config * list string :=
  match args with
  | [] => (c, [])
  | raw :: rest =>
      let '(c1, out1) := apply_one P c raw in
      let '(c2, out2) := apply_cli_overrides P c1 rest in
      (c2, out1 ++ out2)
  end.




(** A decimal reader standing in for [int] and [float] when the model is
    run on concrete arguments: an optional minus sign and digits. *)
Fixpoint digits_value (acc : Z) (s : string) : option Z :=
  match s with
  | EmptyString => Some acc
  | String c s' =>
      let d := (Z.of_nat (nat_of_ascii c) - 48)%Z in
      if ((0 <=? d) && (d <=? 9))%Z then digits_value (10 * acc + d) s'
      else None
  end.

Definition read_decimal (s : string) : string + Z :=
  match s with
  | EmptyString => inl "invalid literal"%string
  | String "-" s' =>
      match s' with
      | EmptyString => inl "invalid literal"%string
      | _ => match digits_value 0 s' with
             | Some v => inr (- v)%Z
             | None => inl "invalid literal"%string
             end
      end
  | _ => match digits_value 0 s with
         | Some v => inr v
         | None => inl "invalid literal"%string
         end
  end.

Definition sample_python : Python := {|
  int_of_str := read_decimal;
  float_of_str := fun s => match read_decimal s with
                           | inr v => inr (inject_Z v)
                           | inl msg => inl msg
                           end;
  path_join := fun dir name => (dir ++ "/" ++ name)%string
|}.

(** ** bilinear_sample on binary64 numbers

    The field and the coordinates are [float64] arrays.  The numbers are
    the kernel's primitive floats, whose operations are specified by the
    IEEE 754 model [SpecFloat] at precision 53 (round to nearest, ties to
    even). *)

Abbreviation vec64 := (list float) (only parsing).
Abbreviation mat64 := (list (list float)) (only parsing).
Abbreviation field64 := (list (list (list float))) (only parsing).

(** The conversion of an [int64] to [float64] that numpy inserts in
    [x - x0]: the nearest binary64 number. *)
Definition of_Z (z : Z) : float :=
  SF2Prim (binary_normalize prec emax z 0 false).

(** [np.floor(x).astype(int)].  For NaN, the infinities and values outside
    the [int64] range the C conversion is undefined; x86-64 returns
    -2^63, which is what numpy yields there. *)
Definition floor_int (x : float) : Z :=
  match Prim2SF x with
  | S754_zero _ => 0%Z
  | S754_finite s m e =>
      let k := match e with
               | Zneg p => Z.div (cond_Zopp s (Zpos m)) (Z.pow_pos 2 p)
               | _ => (cond_Zopp s (Zpos m) * 2 ^ e)%Z
               end in
      if ((- 2 ^ 63 <=? k) && (k <? 2 ^ 63))%Z then k else (- 2 ^ 63)%Z
  | _ => (- 2 ^ 63)%Z
  end.

Definition vscale64 (s : float) (v : vec64) : vec64 :=
  map (fun c => (c * s)%float) v.
Definition vadd64 (a b : vec64) : vec64 :=
  map (fun p => (fst p + snd p)%float) (combine a b).

Definition cell64 (fld : field64) (y x : Z) : result vec64 :=
  row <- getitem fld y ;; getitem row x.

(** One sample of [bilinear_sample], operation for operation. *)
Definition sample_at64 (fld : field64) (x y : float) : result vec64 :=
  let h := Z.of_nat (length fld) in
  let w := Z.of_nat (ncols fld) in
  let x0 := floor_int x in
  let y0 := floor_int y in
  let x1 := clipZ (x0 + 1) 0 (w - 1) in
  let y1 := clipZ (y0 + 1) 0 (h - 1) in
  let x0 := clipZ x0 0 (w - 1) in
  let y0 := clipZ y0 0 (h - 1) in
  let fx := (x - of_Z x0)%float in
  let fy := (y - of_Z y0)%float in
  f00 <- cell64 fld y0 x0 ;;
  f01 <- cell64 fld y0 x1 ;;
  f10 <- cell64 fld y1 x0 ;;
  f11 <- cell64 fld y1 x1 ;;
  let top := vadd64 (vscale64 (1 - fx)%float f00) (vscale64 fx f01) in
  let bottom := vadd64 (vscale64 (1 - fx)%float f10) (vscale64 fx f11) in
  Ok (vadd64 (vscale64 (1 - fy)%float top) (vscale64 fy bottom)).

Definition bilinear_sample64 (fld : field64) (x y : mat64)
  : result field64 :=
  bzip (bzip (sample_at64 fld)) x y.

(** *** Vocabulary for statements about binary64 values *)

(** Neither NaN nor an infinity. *)
Definition finite64 (x : float) : bool :=
  match Prim2SF x with
  | S754_zero _ | S754_finite _ _ _ => true
  | _ => false
  end.

(** [0.0] or [-0.0]. *)
Definition zero64 (x : float) : bool :=
  match Prim2SF x with
  | S754_zero _ => true
  | _ => false
  end.

(** A coordinate that is an exact integer with [0 <= x <= n - 1]: a finite
    number equal to its own floor. *)
Definition integer64 (n : nat) (x : float) : Prop :=
  finite64 x = true /\ (x =? of_Z (floor_int x))%float = true /\
  (0 <= floor_int x <= Z.of_nat n - 1)%Z.

(** [r] returns [v]: the two compare equal, and they are the same binary64
    number unless [v] is a zero (whose sign may be lost). *)
Definition returns64 (r v : float) : Prop :=
  (r =? v)%float = true /\ (zero64 v = false -> r = v).

(** [a (1 - f) + b f], as the sampler computes it. *)
Definition lerp64 (a b f : float) : float := (a * (1 - f) + b * f)%float.

(** The blend of one value with itself along both axes. *)
Definition blend64 (a fx fy : float) : float :=
  lerp64 (lerp64 a a fx) (lerp64 a a fx) fy.

Definition get3f (f : field64) (i j k : nat) : float :=
  nth k (nth j (nth i f []) []) 0%float.

(** Channel [k] of one binary64 sample, written out: the four corners and
    the three blends of [sample_at64]. *)
Definition sample_value64 (fld : field64) (k : nat) (x y : float) : float :=
  let h := Z.of_nat (length fld) in
  let w := Z.of_nat (ncols fld) in
  let x1 := clipZ (floor_int x + 1) 0 (w - 1) in
  let y1 := clipZ (floor_int y + 1) 0 (h - 1) in
  let x0 := clipZ (floor_int x) 0 (w - 1) in
  let y0 := clipZ (floor_int y) 0 (h - 1) in
  let fx := (x - of_Z x0)%float in
  let fy := (y - of_Z y0)%float in
  let at_ (r c : Z) := get3f fld (Z.to_nat r) (Z.to_nat c) k in
  lerp64 (lerp64 (at_ y0 x0) (at_ y0 x1) fx)
         (lerp64 (at_ y1 x0) (at_ y1 x1) fx) fy.

(** * Proofs *)

(** ** Lists and the exception monad *)

Lemma mapM_pure {A B : Type} (g : A -> B) (l : list A) :
  mapM (fun a => Ok (g a)) l = Ok (map g l).
Proof.
  induction l as [|a l IH]; simpl; [reflexivity|].
  rewrite IH. reflexivity.
Qed.

Lemma mapM_ext {A B : Type} (f g : A -> result B) (l : list A) :
  (forall a, In a l -> f a = g a) -> mapM f l = mapM g l.
Proof.
  induction l as [|a l IH]; simpl; intros H; [reflexivity|].
  rewrite (H a) by auto. rewrite IH by auto. reflexivity.
Qed.

Lemma mapM_Ok_Forall2 {A B : Type} (f : A -> result B) (l : list A)
    (r : list B) :
  mapM f l = Ok r <-> Forall2 (fun a b => f a = Ok b) l r.
Proof.
  revert r. induction l as [|a l IH]; simpl; intros r.
  - split; intros H.
    + injection H as <-. constructor.
    + inversion H. reflexivity.
  - split; intros H.
    + destruct (f a) as [b|e] eqn:Ea; simpl in H; [|discriminate].
      destruct (mapM f l) as [bs|e] eqn:El; simpl in H; [|discriminate].
      injection H as <-. constructor; [assumption|]. apply IH. reflexivity.
    + inversion H as [|a' b l' bs Hab Hl]; subst.
      rewrite Hab. simpl. apply IH in Hl. rewrite Hl. reflexivity.
Qed.

(** Pointwise success gives success of the whole traversal, entry [i] of
    the result being related to the index by [P]. *)
Lemma mapM_nth {A B : Type} (f : A -> result B) (P : nat -> B -> Prop)
    (l : list A) (da : A) (db : B) :
  (forall i, (i < length l)%nat ->
             exists b, f (nth i l da) = Ok b /\ P i b) ->
  exists r, mapM f l = Ok r /\ length r = length l /\
            forall i, (i < length l)%nat -> P i (nth i r db).
Proof.
  revert P. induction l as [|a l IH]; simpl; intros P H.
  - exists []. repeat split; intros; lia.
  - destruct (H O) as (b & Hb & Pb); [lia|].
    destruct (IH (fun i => P (S i))) as (r & Hr & Hlen & Pr).
    { intros i Hi. apply (H (S i)). lia. }
    exists (b :: r). rewrite Hb, Hr. simpl. repeat split; [lia|].
    intros [|i] Hi; [assumption|]. apply Pr. lia.
Qed.

Lemma bzip_same_length {A B C : Type} (f : A -> B -> result C) a b :
  length a = length b ->
  bzip f a b = mapM (fun p => f (fst p) (snd p)) (combine a b).
Proof.
  intros H. unfold bzip. rewrite H, Nat.eqb_refl. reflexivity.
Qed.

Lemma bzip_mismatch {A B C : Type} (f : A -> B -> result C) a b :
  length a <> length b -> length a <> 1%nat -> length b <> 1%nat ->
  bzip f a b = Raise ValueError.
Proof.
  intros Hab Ha Hb. unfold bzip.
  destruct (Nat.eqb_spec (length a) (length b)); [contradiction|].
  destruct a as [|x [|x' a]]; simpl in *; try congruence;
    destruct b as [|y [|y' b]]; simpl in *; congruence.
Qed.

Lemma bzip_nth {A B C : Type} (f : A -> B -> result C)
    (P : nat -> C -> Prop) (a : list A) (b : list B)
    (da : A) (db : B) (dc : C) :
  length a = length b ->
  (forall i, (i < length a)%nat ->
             exists c, f (nth i a da) (nth i b db) = Ok c /\ P i c) ->
  exists r, bzip f a b = Ok r /\ length r = length a /\
            forall i, (i < length a)%nat -> P i (nth i r dc).
Proof.
  intros Hlen H. rewrite bzip_same_length by assumption.
  destruct (mapM_nth (fun p => f (fst p) (snd p)) P (combine a b) (da, db) dc)
    as (r & Hr & Hl & Pr).
  - rewrite length_combine, <- Hlen, Nat.min_id. intros i Hi.
    rewrite combine_nth by assumption. simpl. apply H. assumption.
  - rewrite length_combine, <- Hlen, Nat.min_id in *.
    exists r. auto.
Qed.

(** ** Shapes and entry-wise equality *)

Lemma regular2_nth {A : Type} (h w : nat) (m : list (list A)) (i : nat) :
  regular2 h w m -> (i < h)%nat -> length (nth i m []) = w.
Proof.
  intros [Hl Hr] Hi. rewrite Forall_forall in Hr. apply Hr.
  apply nth_In. lia.
Qed.

Lemma regular3_nth {A : Type} (h w c : nat) (f : list (list (list A)))
    (i : nat) :
  regular3 h w c f -> (i < h)%nat -> regular2 w c (nth i f []).
Proof.
  intros [Hl Hr] Hi. rewrite Forall_forall in Hr. apply Hr.
  apply nth_In. lia.
Qed.

Lemma regular3_cell {A : Type} (h w c : nat) (f : list (list (list A)))
    (i j : nat) :
  regular3 h w c f -> (i < h)%nat -> (j < w)%nat ->
  length (nth j (nth i f []) []) = c.
Proof.
  intros Hf Hi Hj. eapply regular2_nth; [|eassumption].
  eapply regular3_nth; eassumption.
Qed.

Lemma regular2_intro {A : Type} (h w : nat) (m : list (list A)) :
  length m = h ->
  (forall i, (i < h)%nat -> length (nth i m []) = w) ->
  regular2 h w m.
Proof.
  intros Hl H. split; [assumption|]. apply Forall_forall. intros r Hr.
  destruct (In_nth _ _ [] Hr) as (i & Hi & <-). apply H. lia.
Qed.

Lemma regular3_intro {A : Type} (h w c : nat) (f : list (list (list A))) :
  length f = h ->
  (forall i, (i < h)%nat -> regular2 w c (nth i f [])) ->
  regular3 h w c f.
Proof.
  intros Hl H. split; [assumption|]. apply Forall_forall. intros r Hr.
  destruct (In_nth _ _ [] Hr) as (i & Hi & <-). apply H. lia.
Qed.

Lemma regular3_ncols {A : Type} (h w c : nat) (f : list (list (list A))) :
  regular3 h w c f -> (0 < h)%nat -> ncols f = w.
Proof.
  intros [Hl Hr] Hh. destruct f as [|r f]; simpl in *; [lia|].
  inversion Hr as [|? ? [Hw _] _]. assumption.
Qed.

Lemma regular3_nchan {A : Type} (h w c : nat) (f : list (list (list A))) :
  regular3 h w c f -> (0 < h)%nat -> (0 < w)%nat -> nchan f = c.
Proof.
  intros [Hl Hr] Hh Hw. destruct f as [|r f]; simpl in *; [lia|].
  inversion Hr as [|? ? [Hw' Hc] _]. destruct r as [|x0 r]; simpl in *; [lia|].
  inversion Hc. assumption.
Qed.

Lemma Forall2_nth_intro {A B : Type} (R : A -> B -> Prop) (l : list A)
    (l' : list B) (da : A) (db : B) :
  length l = length l' ->
  (forall i, (i < length l)%nat -> R (nth i l da) (nth i l' db)) ->
  Forall2 R l l'.
Proof.
  revert l'. induction l as [|a l IH]; intros [|b l'] Hl H;
    simpl in *; try discriminate; constructor.
  - apply (H O). lia.
  - apply IH; [lia|]. intros i Hi. apply (H (S i)). lia.
Qed.

Lemma Forall2_nth_elim {A B : Type} (R : A -> B -> Prop) (l : list A)
    (l' : list B) (da : A) (db : B) (i : nat) :
  Forall2 R l l' -> (i < length l)%nat -> R (nth i l da) (nth i l' db).
Proof.
  intros H. revert i. induction H; intros [|i] Hi; simpl in *; try lia; auto.
  apply IHForall2. lia.
Qed.

Lemma veq_intro (u v : vec) :
  length u = length v ->
  (forall k, (k < length u)%nat -> nth k u 0 == nth k v 0) ->
  veq u v.
Proof. apply Forall2_nth_intro. Qed.

Lemma feq_intro (h w c : nat) (a b : field) :
  regular3 h w c a -> regular3 h w c b ->
  (forall i j k, (i < h)%nat -> (j < w)%nat -> (k < c)%nat ->
                 get3 a i j k == get3 b i j k) ->
  feq a b.
Proof.
  intros Ha Hb H.
  apply Forall2_nth_intro with (da := []) (db := []).
  { destruct Ha, Hb. congruence. }
  intros i Hi. assert (Hi' : (i < h)%nat) by (destruct Ha; lia).
  pose proof (regular3_nth _ _ _ _ i Ha Hi') as [Hla Hra].
  pose proof (regular3_nth _ _ _ _ i Hb Hi') as [Hlb Hrb].
  apply Forall2_nth_intro with (da := []) (db := []); [congruence|].
  intros j Hj. assert (Hj' : (j < w)%nat) by lia.
  apply veq_intro.
  - rewrite (regular3_cell h w c a), (regular3_cell h w c b); auto.
  - intros k Hk. apply H; auto.
    rewrite (regular3_cell h w c a) in Hk; auto.
Qed.

Lemma feq_get3 (a b : field) (i j k : nat) :
  feq a b -> get3 a i j k == get3 b i j k.
Proof.
  intros H. unfold get3.
  pose proof (Forall2_length H) as Hl.
  destruct (Nat.lt_ge_cases i (length a)) as [Hi|Hi].
  2:{ rewrite (nth_overflow a), (nth_overflow b) by lia.
      destruct j, k; reflexivity. }
  pose proof (Forall2_nth_elim _ _ _ [] [] i H Hi) as Hr.
  pose proof (Forall2_length Hr) as Hlr.
  destruct (Nat.lt_ge_cases j (length (nth i a []))) as [Hj|Hj].
  2:{ rewrite (nth_overflow (nth i a [])), (nth_overflow (nth i b [])) by lia.
      destruct k; reflexivity. }
  pose proof (Forall2_nth_elim _ _ _ [] [] j Hr Hj) as Hc.
  pose proof (Forall2_length Hc) as Hlc.
  destruct (Nat.lt_ge_cases k (length (nth j (nth i a []) []))) as [Hk|Hk].
  2:{ rewrite (nth_overflow (nth j (nth i a []) [])),
        (nth_overflow (nth j (nth i b []) [])) by lia.
      reflexivity. }
  exact (Forall2_nth_elim _ _ _ 0 0 k Hc Hk).
Qed.

(** ** build_grid *)

Lemma length_arange (lo hi : Z) : length (arange lo hi) = Z.to_nat (hi - lo).
Proof. unfold arange. rewrite length_map, length_seq. reflexivity. Qed.

Lemma nth_arange (lo hi d : Z) (k : nat) :
  (k < Z.to_nat (hi - lo))%nat ->
  nth k (arange lo hi) d = (lo + Z.of_nat k)%Z.
Proof.
  intros Hk. unfold arange.
  rewrite (nth_indep _ d (lo + Z.of_nat 0)%Z)
    by (rewrite length_map, length_seq; assumption).
  rewrite (map_nth (fun k => (lo + Z.of_nat k)%Z)), seq_nth by assumption.
  reflexivity.
Qed.

Lemma nth_map_in {A B : Type} (g : A -> B) (l : list A) (k : nat)
    (da : A) (db : B) :
  (k < length l)%nat -> nth k (map g l) db = g (nth k l da).
Proof.
  intros Hk. rewrite (nth_indep _ db (g da)) by (rewrite length_map; assumption).
  apply map_nth.
Qed.

(** Entry [i] of a list tabulated over [seq 0 n], for [i < n] in the
    context. *)
Ltac nth_of_seq_map :=
  rewrite nth_map_in with (da := 0%nat) by (rewrite length_seq; assumption).

(** The axis [np.linspace(0.0, 1.0, n, endpoint=False)]. *)
Lemma linspace_unit_axis (n : Z) :
  (0 <= n)%Z ->
  exists axis, linspace 0 1 n false = Ok axis /\
               length axis = Z.to_nat n /\
               forall k, (k < Z.to_nat n)%nat ->
                         nth k axis 0 == inject_Z (Z.of_nat k) / inject_Z n.
Proof.
  intros Hn. unfold linspace.
  destruct (Z.ltb_spec n 0) as [Hneg|_]; [lia|]. simpl andb. cbv iota.
  destruct (Z.ltb_spec 0 n) as [Hpos|Hz].
  - eexists. split; [reflexivity|]. split.
    + rewrite !length_map, length_arange. f_equal. lia.
    + intros k Hk.
      rewrite nth_map_in with (da := 0)
        by (rewrite length_map, length_arange; lia).
      rewrite nth_map_in with (da := 0%Z) by (rewrite length_arange; lia).
      rewrite nth_arange by lia. simpl Z.add.
      assert (Hnz : ~ inject_Z n == 0).
      { intros E. unfold Qeq, inject_Z in E. simpl in E. lia. }
      field. assumption.
  - assert (n = 0%Z) by lia. subst n. exists []. simpl.
    repeat split; intros; lia.
Qed.

(** What [build_grid] returns: the first array varies with the row index,
    the second with the column index. *)
Lemma build_grid_entries (n : Z) :
  (0 <= n)%Z ->
  exists X Y, build_grid n = Ok (X, Y) /\
    regular2 (Z.to_nat n) (Z.to_nat n) X /\
    regular2 (Z.to_nat n) (Z.to_nat n) Y /\
    forall i j, (i < Z.to_nat n)%nat -> (j < Z.to_nat n)%nat ->
      get2 X i j == inject_Z (Z.of_nat i) / inject_Z n /\
      get2 Y i j == inject_Z (Z.of_nat j) / inject_Z n.
Proof.
  intros Hn. destruct (linspace_unit_axis n Hn) as (axis & Hax & Hlen & Hnth).
  unfold build_grid. rewrite Hax. simpl.
  eexists _, _. split; [reflexivity|].
  split; [|split].
  - apply regular2_intro; [rewrite length_map; assumption|].
    intros i Hi. rewrite nth_map_in with (da := 0) by lia.
    rewrite length_map. assumption.
  - apply regular2_intro; [rewrite length_map; assumption|].
    intros i Hi. rewrite nth_map_in with (da := 0) by lia. assumption.
  - intros i j Hi Hj. unfold get2. split.
    + rewrite nth_map_in with (da := 0) by lia.
      rewrite nth_map_in with (da := 0) by lia. apply Hnth. assumption.
    + rewrite nth_map_in with (da := 0) by lia. apply Hnth. assumption.
Qed.

Lemma build_grid_negative (n : Z) :
  (n < 0)%Z -> build_grid n = Raise ValueError.
Proof.
  intros Hn. unfold build_grid, linspace.
  destruct (Z.ltb_spec n 0); [reflexivity|lia].
Qed.

(** C3 (the code departs from the claim): at resolution 2 the first array
    returned by [build_grid] holds [i/N] at row [i], column [j], not [j/N]:
    [X[0,1] = 0] and [X[1,0] = 1/2], and the second array holds [j/N]:
    [Y[0,1] = 1/2] and [Y[1,0] = 0].  The values still lie in [0,1). *)
Theorem build_grid_axes_swapped :
  exists X Y, build_grid 2 = Ok (X, Y) /\
    get2 X 0 1 == 0 /\ get2 X 1 0 == 1 / 2 /\
    get2 Y 0 1 == 1 / 2 /\ get2 Y 1 0 == 0 /\
    ~ get2 X 0 1 == 1 / 2 /\ ~ get2 Y 0 1 == 0.
Proof.
  eexists _, _. split; [reflexivity|].
  repeat split; try reflexivity; intros H; discriminate H.
Qed.

(** ** The blur kernel *)

Lemma sumQ_app (l l' : list Q) : sumQ (l ++ l') == sumQ l + sumQ l'.
Proof.
  induction l as [|a l IH]; simpl; [ring|]. rewrite IH. ring.
Qed.

Lemma sumQ_scale (c : Q) (l : list Q) :
  sumQ (map (fun x => x * c) l) == sumQ l * c.
Proof.
  induction l as [|a l IH]; simpl; [ring|]. rewrite IH. ring.
Qed.

Lemma sumQ_ext {A : Type} (f g : A -> Q) (l : list A) :
  (forall a, In a l -> f a == g a) -> sumQ (map f l) == sumQ (map g l).
Proof.
  induction l as [|a l IH]; simpl; intros H; [reflexivity|].
  rewrite (H a) by auto. rewrite IH by auto. reflexivity.
Qed.

Lemma sumQ_zero {A : Type} (f : A -> Q) (l : list A) :
  (forall a, In a l -> f a == 0) -> sumQ (map f l) == 0.
Proof.
  induction l as [|a l IH]; simpl; intros H; [reflexivity|].
  rewrite (H a) by auto. rewrite IH by auto. ring.
Qed.

Lemma Qtrunc_nonneg (x : Q) : 0 <= x -> Qtrunc x = Qfloor x.
Proof.
  destruct x as [n d]. unfold Qle, Qtrunc, Qfloor. simpl. intros H.
  apply Z.quot_div_nonneg; lia.
Qed.

Lemma Qmax_cases (x y : Q) :
  (x < y /\ Qmax x y = y) \/ (y <= x /\ Qmax x y = x).
Proof.
  unfold Qmax, GenericMinMax.gmax.
  destruct (Qcompare x y) eqn:E.
  - right. split; [|reflexivity]. apply Qeq_alt in E. rewrite E. apply Qle_refl.
  - left. split; [|reflexivity]. apply Qlt_alt. assumption.
  - right. split; [|reflexivity]. apply Qlt_le_weak, Qgt_alt. assumption.
Qed.

Lemma Qmin_cases (x y : Q) :
  (x <= y /\ Qmin x y = x) \/ (y < x /\ Qmin x y = y).
Proof.
  unfold Qmin, GenericMinMax.gmin.
  destruct (Qcompare x y) eqn:E.
  - left. split; [|reflexivity]. apply Qeq_alt in E. rewrite E. apply Qle_refl.
  - left. split; [|reflexivity]. apply Qlt_le_weak, Qlt_alt. assumption.
  - right. split; [|reflexivity]. apply Qgt_alt. assumption.
Qed.

Lemma blur_radius_floor (sigma : Q) :
  blur_radius sigma = Z.max 1 (Qfloor (sigma * 3)).
Proof.
  unfold blur_radius.
  destruct (Qmax_cases 1 (sigma * 3)) as [[Hlt ->]|[Hle ->]].
  - rewrite Qtrunc_nonneg by lra.
    assert (1 <= Qfloor (sigma * 3))%Z.
    { change 1%Z with (Qfloor 1). apply Qfloor_resp_le. lra. }
    lia.
  - assert (Qfloor (sigma * 3) <= 1)%Z.
    { change 1%Z with (Qfloor 1). apply Qfloor_resp_le. assumption. }
    change (Qtrunc 1) with 1%Z. lia.
Qed.

Lemma blur_radius_pos (sigma : Q) : (1 <= blur_radius sigma)%Z.
Proof. rewrite blur_radius_floor. lia. Qed.

Lemma length_blur_offsets (sigma : Q) :
  length (blur_offsets sigma) = Z.to_nat (2 * blur_radius sigma + 1).
Proof. unfold blur_offsets. rewrite length_arange. f_equal. lia. Qed.

Lemma length_blur_weights (L : Libm) (sigma : Q) :
  length (blur_weights L sigma) = Z.to_nat (2 * blur_radius sigma + 1).
Proof.
  unfold blur_weights, raw_weights. rewrite !length_map.
  apply length_blur_offsets.
Qed.

Lemma sum_blur_weights (L : Libm) (sigma : Q) :
  ~ sumQ (raw_weights L sigma) == 0 ->
  sumQ (blur_weights L sigma) == 1.
Proof.
  intros Hnz. unfold blur_weights. unfold Qdiv.
  rewrite sumQ_scale. field. assumption.
Qed.

(** C4 (as amended): for [sigma > 0] the kernel's half-width is
    [int(max(1, 3 sigma))], that is [max(1, floor(3 sigma))] (truncation, not
    rounding); the kernel has one weight per offset [k] in
    [-radius .. radius], equal to [exp(-k^2 / (2 sigma^2))] divided by the
    sum of these values, and, that sum being non-zero, the weights sum to
    1.  Both passes of [gaussian_blur] convolve with this kernel. *)
Theorem gaussian_kernel_truncated (L : Libm) (sigma : Q) :
  0 < sigma ->
  ~ sumQ (raw_weights L sigma) == 0 ->
  let r := blur_radius sigma in
  let w := blur_weights L sigma in
  r = Z.max 1 (Qfloor (sigma * 3)) /\
  length w = Z.to_nat (2 * r + 1) /\
  (forall k, (- r <= k <= r)%Z ->
     nth (Z.to_nat (k + r)) w 0 ==
     exp L (- inject_Z (k * k) / (2 * (sigma * sigma)))
     / sumQ (map (fun j => exp L (- inject_Z (j * j) / (2 * (sigma * sigma))))
                 (arange (- r) (r + 1)))) /\
  sumQ w == 1 /\
  forall fld,
    gaussian_blur L fld sigma =
    (b0 <- apply_along_axis0 (fun m => convolve_same m w) fld ;;
     apply_along_axis1 (fun m => convolve_same m w) b0).
Proof.
  intros Hpos Hnz r w. split; [apply blur_radius_floor|].
  split; [apply length_blur_weights|]. split; [|split].
  - intros k Hk. subst w. unfold blur_weights.
    rewrite nth_map_in with (da := 0).
    2:{ unfold raw_weights. rewrite length_map, length_blur_offsets.
        fold r. lia. }
    unfold raw_weights at 1.
    rewrite nth_map_in with (da := 0%Z)
      by (rewrite length_blur_offsets; fold r; lia).
    unfold blur_offsets. fold r. rewrite nth_arange by lia.
    replace (- r + Z.of_nat (Z.to_nat (k + r)))%Z with k by lia.
    reflexivity.
  - apply sum_blur_weights. assumption.
  - intros fld. unfold gaussian_blur.
    destruct (Qle_bool sigma 0) eqn:E; [|reflexivity].
    apply Qle_bool_iff in E. lra.
Qed.

Lemma gaussian_kernel_truncated_witness :
  let r := blur_radius 1 in
  let w := blur_weights sample_libm 1 in
  r = Z.max 1 (Qfloor (1 * 3)) /\
  length w = Z.to_nat (2 * r + 1) /\
  (forall k, (- r <= k <= r)%Z ->
     nth (Z.to_nat (k + r)) w 0 ==
     exp sample_libm (- inject_Z (k * k) / (2 * (1 * 1)))
     / sumQ (map (fun j => exp sample_libm
                             (- inject_Z (j * j) / (2 * (1 * 1))))
                 (arange (- r) (r + 1)))) /\
  sumQ w == 1 /\
  forall fld,
    gaussian_blur sample_libm fld 1 =
    (b0 <- apply_along_axis0 (fun m => convolve_same m w) fld ;;
     apply_along_axis1 (fun m => convolve_same m w) b0).
Proof.
  apply (gaussian_kernel_truncated sample_libm 1).
  - reflexivity.
  - vm_compute. discriminate.
Defined.

(** C4 (as stated, refuted): at [sigma = 0.9] the code's half-width is
    [int(2.7) = 2], while [max(1, round(3 sigma))] is 3. *)
Lemma blur_radius_not_rounded :
  blur_radius 0.9 = 2%Z /\ Z.max 1 (round_half_even (3 * 0.9)) = 3%Z.
Proof. split; reflexivity. Qed.

(** ** bilinear_sample *)

Lemma getitem_ok {A : Type} (l : list A) (i : Z) (d : A) :
  (0 <= i < Z.of_nat (length l))%Z ->
  getitem l i = Ok (nth (Z.to_nat i) l d).
Proof.
  intros Hi. unfold getitem.
  destruct (Z.ltb_spec i 0); [lia|].
  destruct (Z.leb_spec 0 i); [|lia].
  destruct (Z.ltb_spec i (Z.of_nat (length l))); [|lia]. simpl.
  destruct (nth_error l (Z.to_nat i)) as [a|] eqn:E.
  - rewrite (nth_error_nth _ _ _ E). reflexivity.
  - apply nth_error_None in E. lia.
Qed.

Lemma cell_ok (h w c : nat) (fld : field) (y x : Z) :
  regular3 h w c fld ->
  (0 <= y < Z.of_nat h)%Z -> (0 <= x < Z.of_nat w)%Z ->
  cell fld y x = Ok (nth (Z.to_nat x) (nth (Z.to_nat y) fld []) []) /\
  length (nth (Z.to_nat x) (nth (Z.to_nat y) fld []) []) = c.
Proof.
  intros Hf Hy Hx. unfold cell.
  rewrite (getitem_ok fld y []) by (destruct Hf as [-> _]; lia). simpl.
  assert (Hrow : regular2 w c (nth (Z.to_nat y) fld []))
    by (apply (regular3_nth h); [assumption|lia]).
  rewrite (getitem_ok _ x []) by (destruct Hrow as [-> _]; lia).
  split; [reflexivity|].
  apply (regular2_nth w); [assumption|lia].
Qed.

Lemma length_vscale (s : Q) (v : vec) : length (vscale s v) = length v.
Proof. apply length_map. Qed.

Lemma length_vadd (a b : vec) :
  length a = length b -> length (vadd a b) = length a.
Proof.
  intros H. unfold vadd. rewrite length_map, length_combine, H.
  apply Nat.min_id.
Qed.

Lemma nth_vscale (s : Q) (v : vec) (k : nat) :
  (k < length v)%nat -> nth k (vscale s v) 0 = nth k v 0 * s.
Proof. intros Hk. exact (nth_map_in (fun c => c * s) v k 0 0 Hk). Qed.

Lemma nth_vadd (a b : vec) (k : nat) :
  length a = length b -> (k < length a)%nat ->
  nth k (vadd a b) 0 = nth k a 0 + nth k b 0.
Proof.
  intros Hl Hk. unfold vadd.
  rewrite nth_map_in with (da := (0, 0))
    by (rewrite length_combine; lia).
  rewrite combine_nth by assumption. reflexivity.
Qed.

Lemma clipZ_range (k n : Z) :
  (1 <= n)%Z -> (0 <= clipZ k 0 (n - 1) < n)%Z.
Proof. unfold clipZ. lia. Qed.

(** The sampler succeeds on a non-empty regular field, and channel [k] of
    the sample is the bilinear blend [bilerp]. *)
Lemma sample_at_channel (h w c : nat) (fld : field) (x y : Q) :
  regular3 h w c fld -> (0 < h)%nat -> (0 < w)%nat ->
  exists v, sample_at fld x y = Ok v /\ length v = c /\
            forall k, (k < c)%nat -> nth k v 0 == bilerp fld k x y.
Proof.
  intros Hf Hh Hw.
  pose proof (regular3_ncols _ _ _ _ Hf Hh) as Hnc.
  assert (Hlen : length fld = h) by (destruct Hf; assumption).
  unfold sample_at, bilerp, lerp1. rewrite Hnc, Hlen.
  set (x0 := clipZ (Qfloor x) 0 (Z.of_nat w - 1)).
  set (x1 := clipZ (Qfloor x + 1) 0 (Z.of_nat w - 1)).
  set (y0 := clipZ (Qfloor y) 0 (Z.of_nat h - 1)).
  set (y1 := clipZ (Qfloor y + 1) 0 (Z.of_nat h - 1)).
  assert (Hx0 : (0 <= x0 < Z.of_nat w)%Z) by (apply clipZ_range; lia).
  assert (Hx1 : (0 <= x1 < Z.of_nat w)%Z) by (apply clipZ_range; lia).
  assert (Hy0 : (0 <= y0 < Z.of_nat h)%Z) by (apply clipZ_range; lia).
  assert (Hy1 : (0 <= y1 < Z.of_nat h)%Z) by (apply clipZ_range; lia).
  destruct (cell_ok h w c fld y0 x0 Hf Hy0 Hx0) as [-> L00].
  destruct (cell_ok h w c fld y0 x1 Hf Hy0 Hx1) as [-> L01].
  destruct (cell_ok h w c fld y1 x0 Hf Hy1 Hx0) as [-> L10].
  destruct (cell_ok h w c fld y1 x1 Hf Hy1 Hx1) as [-> L11].
  simpl bind.
  set (f00 := nth (Z.to_nat x0) (nth (Z.to_nat y0) fld []) []) in *.
  set (f01 := nth (Z.to_nat x1) (nth (Z.to_nat y0) fld []) []) in *.
  set (f10 := nth (Z.to_nat x0) (nth (Z.to_nat y1) fld []) []) in *.
  set (f11 := nth (Z.to_nat x1) (nth (Z.to_nat y1) fld []) []) in *.
  eexists. split; [reflexivity|].
  assert (Ltop : forall s t, length (vadd (vscale s f00) (vscale t f01)) = c).
  { intros. rewrite length_vadd; rewrite !length_vscale; congruence. }
  assert (Lbot : forall s t, length (vadd (vscale s f10) (vscale t f11)) = c).
  { intros. rewrite length_vadd; rewrite !length_vscale; congruence. }
  split.
  - rewrite length_vadd; rewrite !length_vscale; rewrite ?Ltop, ?Lbot; reflexivity.
  - intros k Hk.
    rewrite nth_vadd
      by (rewrite ?length_vscale, ?Ltop, ?Lbot; (reflexivity || assumption)).
    rewrite !nth_vscale by (rewrite ?Ltop, ?Lbot; assumption).
    rewrite !nth_vadd by (rewrite ?length_vscale; congruence).
    rewrite !nth_vscale by congruence.
    unfold get3. reflexivity.
Qed.

Lemma Qfloor_integer (x : Q) (k : Z) : x == inject_Z k -> Qfloor x = k.
Proof. intros E. rewrite (Qfloor_comp _ _ E). apply Qfloor_Z. Qed.

(** At an in-range integer position the interpolation returns the value
    stored there. *)
Lemma lerp1_integer (g : Z -> Q) (n : Z) (x : Q) (k : Z) :
  x == inject_Z k -> (0 <= k < n)%Z -> lerp1 g n x == g k.
Proof.
  intros E Hk. unfold lerp1. rewrite (Qfloor_integer x k E).
  replace (clipZ k 0 (n - 1)) with k by (unfold clipZ; lia).
  rewrite E. ring.
Qed.

Lemma lerp1_ext (g g' : Z -> Q) (n : Z) (x : Q) :
  (1 <= n)%Z -> (forall i, (0 <= i < n)%Z -> g i == g' i) ->
  lerp1 g n x == lerp1 g' n x.
Proof.
  intros Hn H. unfold lerp1.
  rewrite (H (clipZ (Qfloor x) 0 (n - 1))) by (apply clipZ_range; lia).
  rewrite (H (clipZ (Qfloor x + 1) 0 (n - 1))) by (apply clipZ_range; lia).
  reflexivity.
Qed.

Lemma lerp1_comp (g : Z -> Q) (n : Z) (x x' : Q) :
  x == x' -> lerp1 g n x == lerp1 g n x'.
Proof.
  intros E. unfold lerp1. rewrite (Qfloor_comp _ _ E). rewrite E.
  reflexivity.
Qed.

Lemma inject_Z_le (a b : Z) : (a <= b)%Z -> inject_Z a <= inject_Z b.
Proof. intros H. rewrite <- Zle_Qle. assumption. Qed.

(** Below the axis both neighbours clamp to index 0, above it both clamp to
    the last index: the blend collapses to the edge value. *)
Lemma lerp1_below (g : Z -> Q) (n : Z) (x : Q) :
  (1 <= n)%Z -> x <= 0 -> lerp1 g n x == g 0%Z.
Proof.
  intros Hn Hx. unfold lerp1.
  destruct (Qlt_le_dec x 0) as [Hneg|Hge].
  - assert (Qfloor x <= -1)%Z.
    { assert (Qfloor x < 0)%Z; [|lia].
      apply Z.lt_nge. intros Hc. apply inject_Z_le in Hc.
      pose proof (Qfloor_le x). change (inject_Z 0) with 0 in Hc. lra. }
    replace (clipZ (Qfloor x) 0 (n - 1)) with 0%Z by (unfold clipZ; lia).
    replace (clipZ (Qfloor x + 1) 0 (n - 1)) with 0%Z by (unfold clipZ; lia).
    ring.
  - assert (E : x == inject_Z 0) by (change (inject_Z 0) with 0; lra).
    rewrite (Qfloor_integer x 0 E).
    replace (clipZ 0 0 (n - 1)) with 0%Z by (unfold clipZ; lia).
    rewrite E. ring.
Qed.

Lemma lerp1_above (g : Z -> Q) (n : Z) (x : Q) :
  (1 <= n)%Z -> inject_Z (n - 1) <= x -> lerp1 g n x == g (n - 1)%Z.
Proof.
  intros Hn Hx. unfold lerp1.
  assert (n - 1 <= Qfloor x)%Z.
  { rewrite <- (Qfloor_Z (n - 1)). apply Qfloor_resp_le. assumption. }
  replace (clipZ (Qfloor x) 0 (n - 1)) with (n - 1)%Z by (unfold clipZ; lia).
  replace (clipZ (Qfloor x + 1) 0 (n - 1)) with (n - 1)%Z
    by (unfold clipZ; lia).
  ring.
Qed.

Lemma clip_cases (x lo hi : Q) :
  lo <= hi ->
  (x < lo /\ clip x lo hi = lo) \/
  (lo <= x <= hi /\ clip x lo hi = x) \/
  (hi < x /\ clip x lo hi = hi).
Proof.
  intros Hlh. unfold clip.
  destruct (Qmax_cases x lo) as [[H1 ->]|[H1 ->]].
  - destruct (Qmin_cases lo hi) as [[H2 ->]|[H2 ->]]; [auto|lra].
  - destruct (Qmin_cases x hi) as [[H2 ->]|[H2 ->]]; auto.
Qed.

(** Clamping the coordinate first does not change the interpolation. *)
Lemma lerp1_clip (g : Z -> Q) (n : Z) (x : Q) :
  (1 <= n)%Z -> lerp1 g n x == lerp1 g n (clip x 0 (inject_Z (n - 1))).
Proof.
  intros Hn.
  assert (H0 : 0 <= inject_Z (n - 1)) by (apply (inject_Z_le 0); lia).
  destruct (clip_cases x 0 (inject_Z (n - 1)) H0)
    as [[Hx ->]|[[Hx ->]|[Hx ->]]].
  - rewrite !lerp1_below by (assumption || lra). reflexivity.
  - reflexivity.
  - rewrite !lerp1_above by (assumption || lra). reflexivity.
Qed.

Lemma all2_get2 (P : Q -> Prop) (m n : nat) (X : mat) (i j : nat) :
  regular2 m n X -> all2 P X -> (i < m)%nat -> (j < n)%nat ->
  P (get2 X i j).
Proof.
  intros HX HP Hi Hj. unfold all2 in HP. rewrite Forall_forall in HP.
  assert (Hin : In (nth i X []) X) by (apply nth_In; destruct HX; lia).
  specialize (HP _ Hin). rewrite Forall_forall in HP. apply HP.
  apply nth_In. rewrite (regular2_nth m n); assumption.
Qed.

Lemma bilerp_integer (h w c : nat) (fld : field) (k : nat) (x y : Q) :
  regular3 h w c fld -> integer_in w x -> integer_in h y ->
  bilerp fld k x y ==
  get3 fld (Z.to_nat (Qfloor y)) (Z.to_nat (Qfloor x)) k.
Proof.
  intros Hf [Ex Hx] [Ey Hy].
  assert (Hh : (0 < h)%nat) by lia.
  pose proof (regular3_ncols _ _ _ _ Hf Hh) as Hnc.
  destruct Hf as [Hlen _].
  unfold bilerp. rewrite Hnc, Hlen.
  rewrite (lerp1_integer _ _ y (Qfloor y)) by assumption.
  rewrite (lerp1_integer _ _ x (Qfloor x)) by assumption.
  reflexivity.
Qed.

Lemma bilerp_clip (h w c : nat) (fld : field) (k : nat) (x y : Q) :
  regular3 h w c fld -> (0 < h)%nat -> (0 < w)%nat ->
  bilerp fld k x y ==
  bilerp fld k (clip x 0 (inject_Z (Z.of_nat w - 1)))
               (clip y 0 (inject_Z (Z.of_nat h - 1))).
Proof.
  intros Hf Hh Hw.
  pose proof (regular3_ncols _ _ _ _ Hf Hh) as Hnc.
  destruct Hf as [Hlen _].
  unfold bilerp. rewrite Hnc, Hlen.
  rewrite <- lerp1_clip by lia.
  apply lerp1_ext; [lia|]. intros i _. apply lerp1_clip. lia.
Qed.

(** Entries of the sampler's output, for coordinate arrays of equal
    shape. *)
Lemma bilinear_sample_entries (h w c m n : nat) (fld : field) (X Y : mat) :
  regular3 h w c fld -> regular2 m n X -> regular2 m n Y ->
  ((0 < m)%nat -> (0 < n)%nat -> (0 < h)%nat /\ (0 < w)%nat) ->
  exists out, bilinear_sample fld X Y = Ok out /\
    tabulated3 m n c
      (fun i j k v => v == bilerp fld k (get2 X i j) (get2 Y i j)) out.
Proof.
  intros Hf HX HY Hne. unfold bilinear_sample.
  destruct (bzip_nth (bzip (sample_at fld))
              (fun i row => length row = n /\
                 forall j, (j < n)%nat ->
                   length (nth j row []) = c /\
                   forall k, (k < c)%nat ->
                     nth k (nth j row []) 0 ==
                     bilerp fld k (get2 X i j) (get2 Y i j))
              X Y [] [] [])
    as (out & Hout & Hlen & Hrows).
  { destruct HX, HY. congruence. }
  { intros i Hi. assert (Hi' : (i < m)%nat) by (destruct HX; lia).
    pose proof (regular2_nth m n X i HX Hi') as HXi.
    pose proof (regular2_nth m n Y i HY Hi') as HYi.
    destruct (bzip_nth (sample_at fld)
                (fun j v => length v = c /\
                   forall k, (k < c)%nat ->
                     nth k v 0 == bilerp fld k (get2 X i j) (get2 Y i j))
                (nth i X []) (nth i Y []) 0 0 [])
      as (row & Hrow & Hl & Hcells).
    - congruence.
    - intros j Hj. rewrite HXi in Hj.
      destruct Hne as [Hh Hw]; [lia|lia|].
      apply (sample_at_channel h w c); assumption.
    - exists row. split; [assumption|]. split; [congruence|].
      intros j Hj. apply Hcells. lia. }
  exists out. split; [assumption|].
  assert (Hm : length out = m) by (destruct HX; congruence).
  split.
  - apply regular3_intro; [assumption|]. intros i Hi.
    destruct (Hrows i) as [Hl Hc]; [destruct HX; lia|].
    apply regular2_intro; [assumption|]. intros j Hj. apply Hc. assumption.
  - intros i j k Hi Hj Hk.
    destruct (Hrows i) as [Hl Hc]; [destruct HX; lia|].
    apply Hc; assumption.
Qed.

(** In exact arithmetic: on a regular H x W x C field, at coordinate
    arrays whose entries are exact integers with 0 <= x <= W-1 and
    0 <= y <= H-1, [bilinear_sample] succeeds and every output cell equals
    the field cell [field[y, x]] it points at. *)
Theorem bilinear_sample_at_integers (h w c m n : nat) (fld : field)
    (X Y : mat) :
  regular3 h w c fld -> regular2 m n X -> regular2 m n Y ->
  all2 (integer_in w) X -> all2 (integer_in h) Y ->
  exists out, bilinear_sample fld X Y = Ok out /\
    regular3 m n c out /\
    forall i j, (i < m)%nat -> (j < n)%nat ->
      veq (nth j (nth i out []) []) (cell_at fld (get2 Y i j) (get2 X i j)).
Proof.
  intros Hf HX HY IX IY.
  destruct (bilinear_sample_entries h w c m n fld X Y Hf HX HY)
    as (out & Hout & Hreg & Hent).
  { intros Hm Hn.
    destruct (all2_get2 _ m n X 0 0 HX IX Hm Hn) as [_ ?].
    destruct (all2_get2 _ m n Y 0 0 HY IY Hm Hn) as [_ ?]. lia. }
  exists out. split; [assumption|]. split; [assumption|].
  intros i j Hi Hj.
  pose proof (all2_get2 _ m n X i j HX IX Hi Hj) as Hx.
  pose proof (all2_get2 _ m n Y i j HY IY Hi Hj) as Hy.
  assert (Hcell : length (cell_at fld (get2 Y i j) (get2 X i j)) = c).
  { unfold cell_at. apply (regular3_cell h w c); [assumption| |];
      destruct Hx as [_ ?], Hy as [_ ?]; lia. }
  apply veq_intro.
  - rewrite (regular3_cell m n c out) by assumption. congruence.
  - intros k Hk. rewrite (regular3_cell m n c out) in Hk by assumption.
    specialize (Hent i j k Hi Hj Hk). unfold get3 in Hent. rewrite Hent.
    rewrite (bilerp_integer h w c) by assumption. reflexivity.
Qed.

Lemma bilinear_sample_at_integers_witness :
  exists out,
    bilinear_sample [[[1; 2]; [3; 4]]; [[5; 6]; [7; 8]]] [[0; 1]] [[1; 0]]
    = Ok out /\
    regular3 1 2 2 out /\
    forall i j, (i < 1)%nat -> (j < 2)%nat ->
      veq (nth j (nth i out []) [])
          (cell_at [[[1; 2]; [3; 4]]; [[5; 6]; [7; 8]]]
                   (get2 [[1; 0]] i j) (get2 [[0; 1]] i j)).
Proof.
  apply (bilinear_sample_at_integers 2 2 2 1 2).
  - repeat constructor.
  - repeat constructor.
  - repeat constructor.
  - repeat constructor; vm_compute; congruence.
  - repeat constructor; vm_compute; congruence.
Defined.

Lemma regular2_map2d {A B : Type} (g : A -> B) (m n : nat)
    (X : list (list A)) :
  regular2 m n X -> regular2 m n (map2d g X).
Proof.
  intros [Hl Hr]. unfold map2d. split; [rewrite length_map; assumption|].
  apply Forall_map. eapply Forall_impl; [|exact Hr].
  intros r Hlen. simpl. rewrite length_map. assumption.
Qed.

Lemma get2_map2d (g : Q -> Q) (m n : nat) (X : mat) (i j : nat) :
  regular2 m n X -> (i < m)%nat -> (j < n)%nat ->
  get2 (map2d g X) i j = g (get2 X i j).
Proof.
  intros HX Hi Hj. unfold get2, map2d.
  rewrite nth_map_in with (da := []) by (destruct HX; lia).
  apply nth_map_in. rewrite (regular2_nth m n); assumption.
Qed.

Lemma tabulated3_feq (h w c : nat) (P P' : nat -> nat -> nat -> Q -> Prop)
    (a b : field) :
  tabulated3 h w c P a -> tabulated3 h w c P' b ->
  (forall i j k u v, (i < h)%nat -> (j < w)%nat -> (k < c)%nat ->
                     P i j k u -> P' i j k v -> u == v) ->
  feq a b.
Proof.
  intros [Ha Pa] [Hb Pb] H. apply (feq_intro h w c); try assumption.
  intros i j k Hi Hj Hk. apply (H i j k); auto.
Qed.

(** Sampling at one position. *)
Lemma bilinear_sample_single (h w c : nat) (fld : field) (x y : Q) :
  regular3 h w c fld -> (0 < h)%nat -> (0 < w)%nat ->
  exists out, bilinear_sample fld [[x]] [[y]] = Ok out /\
    regular3 1 1 c out /\
    forall k, (k < c)%nat -> get3 out 0 0 k == bilerp fld k x y.
Proof.
  intros Hf Hh Hw.
  destruct (bilinear_sample_entries h w c 1 1 fld [[x]] [[y]] Hf)
    as (out & Hout & Hreg & Hent); try (repeat constructor); auto.
  exists out. split; [assumption|]. split; [assumption|].
  intros k Hk. apply (Hent 0%nat 0%nat k); auto.
Qed.

Lemma bilerp_low_corner (h w c : nat) (fld : field) (k : nat) (x y : Q) :
  regular3 h w c fld -> (0 < h)%nat -> (0 < w)%nat ->
  x <= 0 -> y <= 0 -> bilerp fld k x y == get3 fld 0 0 k.
Proof.
  intros Hf Hh Hw Hx Hy.
  pose proof (regular3_ncols _ _ _ _ Hf Hh) as Hnc.
  destruct Hf as [Hlen _]. unfold bilerp. rewrite Hnc, Hlen.
  rewrite lerp1_below by (assumption || lia).
  rewrite lerp1_below by (assumption || lia). reflexivity.
Qed.

Lemma bilerp_high_corner (h w c : nat) (fld : field) (k : nat) (x y : Q) :
  regular3 h w c fld -> (0 < h)%nat -> (0 < w)%nat ->
  inject_Z (Z.of_nat w - 1) <= x -> inject_Z (Z.of_nat h - 1) <= y ->
  bilerp fld k x y == get3 fld (h - 1) (w - 1) k.
Proof.
  intros Hf Hh Hw Hx Hy.
  pose proof (regular3_ncols _ _ _ _ Hf Hh) as Hnc.
  destruct Hf as [Hlen _]. unfold bilerp. rewrite Hnc, Hlen.
  rewrite lerp1_above by (assumption || lia).
  rewrite lerp1_above by (assumption || lia).
  replace (Z.to_nat (Z.of_nat h - 1)) with (h - 1)%nat by lia.
  replace (Z.to_nat (Z.of_nat w - 1)) with (w - 1)%nat by lia.
  reflexivity.
Qed.

(** In exact arithmetic: on a regular, non-empty H x W x C field, sampling
    at (-5,-5) equals sampling at (0,0) and is the corner cell
    [field[0,0]]; sampling
    at (W+5,H+5) equals sampling at (W-1,H-1) and is the corner cell
    [field[H-1,W-1]]; and in general sampling at any coordinate arrays
    equals sampling at the same coordinates clamped to [0,W-1] x [0,H-1]. *)
Theorem bilinear_sample_clamps_to_edge (h w c : nat) (fld : field) :
  regular3 h w c fld -> (0 < h)%nat -> (0 < w)%nat ->
  let W := Z.of_nat w in
  let H := Z.of_nat h in
  (exists a b,
     bilinear_sample fld [[-5]] [[-5]] = Ok a /\
     bilinear_sample fld [[0]] [[0]] = Ok b /\
     feq a b /\ feq a [[nth 0 (nth 0 fld []) []]]) /\
  (exists a b,
     bilinear_sample fld [[inject_Z (W + 5)]] [[inject_Z (H + 5)]] = Ok a /\
     bilinear_sample fld [[inject_Z (W - 1)]] [[inject_Z (H - 1)]] = Ok b /\
     feq a b /\ feq a [[nth (w - 1) (nth (h - 1) fld []) []]]) /\
  (forall m n X Y, regular2 m n X -> regular2 m n Y ->
     exists a b,
       bilinear_sample fld X Y = Ok a /\
       bilinear_sample fld
         (map2d (fun x => clip x 0 (inject_Z (W - 1))) X)
         (map2d (fun y => clip y 0 (inject_Z (H - 1))) Y) = Ok b /\
       feq a b).
Proof.
  intros Hf Hh Hw W H.
  split; [|split].
  - destruct (bilinear_sample_single h w c fld (-5) (-5) Hf Hh Hw)
      as (a & Ha & Ra & Ea).
    destruct (bilinear_sample_single h w c fld 0 0 Hf Hh Hw)
      as (b & Hb & Rb & Eb).
    exists a, b. split; [assumption|]. split; [assumption|]. split.
    + apply (feq_intro 1 1 c); try assumption.
      intros i j k Hi Hj Hk. replace i with 0%nat by lia.
      replace j with 0%nat by lia. rewrite Ea, Eb by assumption.
      rewrite !(bilerp_low_corner h w c) by (assumption || lra).
      reflexivity.
    + apply (feq_intro 1 1 c); try assumption.
      { repeat constructor. apply (regular3_cell h w c); assumption. }
      intros i j k Hi Hj Hk. replace i with 0%nat by lia.
      replace j with 0%nat by lia. rewrite Ea by assumption.
      rewrite (bilerp_low_corner h w c) by (assumption || lra).
      reflexivity.
  - assert (HW : inject_Z (W - 1) <= inject_Z (W + 5))
      by (apply inject_Z_le; lia).
    assert (HH : inject_Z (H - 1) <= inject_Z (H + 5))
      by (apply inject_Z_le; lia).
    destruct (bilinear_sample_single h w c fld
                (inject_Z (W + 5)) (inject_Z (H + 5)) Hf Hh Hw)
      as (a & Ha & Ra & Ea).
    destruct (bilinear_sample_single h w c fld
                (inject_Z (W - 1)) (inject_Z (H - 1)) Hf Hh Hw)
      as (b & Hb & Rb & Eb).
    exists a, b. split; [assumption|]. split; [assumption|]. split.
    + apply (feq_intro 1 1 c); try assumption.
      intros i j k Hi Hj Hk. replace i with 0%nat by lia.
      replace j with 0%nat by lia. rewrite Ea, Eb by assumption.
      rewrite !(bilerp_high_corner h w c)
        by (assumption || apply Qle_refl).
      reflexivity.
    + apply (feq_intro 1 1 c); try assumption.
      { repeat constructor. apply (regular3_cell h w c); (assumption || lia). }
      intros i j k Hi Hj Hk. replace i with 0%nat by lia.
      replace j with 0%nat by lia. rewrite Ea by assumption.
      rewrite (bilerp_high_corner h w c) by assumption.
      reflexivity.
  - intros m n X Y HX HY.
    destruct (bilinear_sample_entries h w c m n fld X Y Hf HX HY)
      as (a & Ha & Ta); [auto|].
    destruct (bilinear_sample_entries h w c m n fld
                (map2d (fun x => clip x 0 (inject_Z (W - 1))) X)
                (map2d (fun y => clip y 0 (inject_Z (H - 1))) Y) Hf)
      as (b & Hb & Tb); [apply regular2_map2d; assumption
                        |apply regular2_map2d; assumption|auto|].
    exists a, b. split; [assumption|]. split; [assumption|].
    apply (tabulated3_feq _ _ _ _ _ a b Ta Tb).
    intros i j k u v Hi Hj Hk -> ->.
    rewrite (get2_map2d _ m n X), (get2_map2d _ m n Y) by assumption.
    apply (bilerp_clip h w c); assumption.
Qed.

Lemma bilinear_sample_clamps_to_edge_witness :
  let fld := [[[1; 2]; [3; 4]]; [[5; 6]; [7; 8]]] in
  (exists a b,
     bilinear_sample fld [[-5]] [[-5]] = Ok a /\
     bilinear_sample fld [[0]] [[0]] = Ok b /\
     feq a b /\ feq a [[nth 0 (nth 0 fld []) []]]) /\
  (exists a b,
     bilinear_sample fld [[inject_Z (2 + 5)]] [[inject_Z (2 + 5)]] = Ok a /\
     bilinear_sample fld [[inject_Z (2 - 1)]] [[inject_Z (2 - 1)]] = Ok b /\
     feq a b /\ feq a [[nth (2 - 1) (nth (2 - 1) fld []) []]]) /\
  (forall m n X Y, regular2 m n X -> regular2 m n Y ->
     exists a b,
       bilinear_sample fld X Y = Ok a /\
       bilinear_sample fld
         (map2d (fun x => clip x 0 (inject_Z (2 - 1))) X)
         (map2d (fun y => clip y 0 (inject_Z (2 - 1))) Y) = Ok b /\
       feq a b).
Proof.
  apply (bilinear_sample_clamps_to_edge 2 2 2
           [[[1; 2]; [3; 4]]; [[5; 6]; [7; 8]]]).
  - repeat constructor.
  - lia.
  - lia.
Defined.

(** ** Binary64 arithmetic used by the sampler

    Facts about the IEEE operations, derived from their specification in
    [SpecFloat]. *)

Local Open Scope Z_scope.

Lemma bounded_elim (m : positive) (e : Z) :
  bounded prec emax m e = true ->
  fexp prec emax (Zpos (digits2_pos m) + e) = e /\
  (e <=? emax - prec) = true.
Proof.
  unfold bounded, canonical_mantissa. intros H.
  apply andb_true_iff in H as [Hc He]. apply Z.eqb_eq in Hc. auto.
Qed.

Lemma binary_round_aux_exact (s : bool) (m : positive) (e : Z) :
  bounded prec emax m e = true ->
  binary_round_aux prec emax s (Zpos m) e loc_Exact = S754_finite s m e.
Proof.
  intros Hb. destruct (bounded_elim m e Hb) as [Hc He].
  unfold binary_round_aux, shr_fexp. cbn [Zdigits2 shr_record_of_loc].
  rewrite Hc. change IntDef.Z.sub with Z.sub. rewrite Z.sub_diag.
  cbn [shr round_nearest_even shr_m loc_of_shr_record Zdigits2].
  rewrite Hc. rewrite Z.sub_diag. cbn [shr shr_m].
  rewrite He. reflexivity.
Qed.

Lemma digits2_pos_iter (m p : positive) :
  Zpos (digits2_pos (Pos.iter xO m p)) = Zpos (digits2_pos m) + Zpos p.
Proof.
  induction p as [|p IH] using Pos.peano_ind.
  - simpl. lia.
  - rewrite Pos.iter_succ. cbn [digits2_pos]. lia.
Qed.

Lemma Zpos_iter_xO (m p : positive) :
  Zpos (Pos.iter xO m p) = Zpos m * Z.pow_pos 2 p.
Proof.
  induction p as [|p IH] using Pos.peano_ind.
  - simpl. lia.
  - rewrite Pos.iter_succ.
    change (Zpos (Pos.iter xO m p)~0) with (2 * Zpos (Pos.iter xO m p)).
    rewrite IH.
    change (Z.pow_pos 2 ?q) with (2 ^ Zpos q).
    rewrite Pos2Z.inj_succ, Z.pow_succ_r by lia. lia.
Qed.

Lemma digits2_pos_bound (m : positive) :
  2 ^ (Zpos (digits2_pos m) - 1) <= Zpos m < 2 ^ Zpos (digits2_pos m).
Proof.
  induction m as [m IH|m IH|]; cbn [digits2_pos].
  - rewrite Pos2Z.inj_succ, Pos2Z.inj_xI.
    replace (Z.succ (Zpos (digits2_pos m)) - 1) with (Z.succ (Zpos (digits2_pos m) - 1)) by lia.
    rewrite !Z.pow_succ_r by lia.
    generalize dependent (2 ^ (Zpos (digits2_pos m) - 1)).
    generalize (2 ^ Zpos (digits2_pos m)). intros; lia.
  - rewrite Pos2Z.inj_succ. change (Zpos m~0) with (2 * Zpos m).
    replace (Z.succ (Zpos (digits2_pos m)) - 1) with (Z.succ (Zpos (digits2_pos m) - 1)) by lia.
    rewrite !Z.pow_succ_r by lia.
    generalize dependent (2 ^ (Zpos (digits2_pos m) - 1)).
    generalize (2 ^ Zpos (digits2_pos m)). intros; lia.
  - simpl. lia.
Qed.

(** The spec float of an integer below 2^53 in magnitude. *)
Lemma binary_round_small (s : bool) (p : positive) :
  Zpos p < 2 ^ 53 ->
  exists m e,
    binary_round prec emax s p 0 = S754_finite s m e /\
    bounded prec emax m e = true /\ e <= 0 /\
    Zpos m = Zpos p * 2 ^ (- e).
Proof.
  intros Hp. pose proof (digits2_pos_bound p) as Hd.
  assert (Hd53 : Zpos (digits2_pos p) <= 53).
  { destruct (Z.le_gt_cases (Zpos (digits2_pos p)) 53) as [|Hgt]; [assumption|].
    assert (2 ^ 53 <= 2 ^ (Zpos (digits2_pos p) - 1))
      by (apply Z.pow_le_mono_r; lia). lia. }
  unfold binary_round.
  assert (Hfexp : fexp prec emax (Zpos (digits2_pos p) + 0)
                  = Zpos (digits2_pos p) - 53).
  { unfold fexp, emin, prec, emax.
    change IntDef.Z.sub with Z.sub. change IntDef.Z.max with Z.max. lia. }
  rewrite Hfexp. unfold shl_align. change IntDef.Z.sub with Z.sub.
  rewrite Z.sub_0_r.
  destruct (Zpos (digits2_pos p) - 53) as [|q|q] eqn:E; try lia.
  - exists p, 0. 
    assert (Hb : bounded prec emax p 0 = true).
    { unfold bounded, canonical_mantissa. rewrite Hfexp. reflexivity. }
    rewrite binary_round_aux_exact by assumption.
    split; [reflexivity|]. split; [assumption|]. split; [lia|]. simpl. lia.
  - change (PosDef.Pos.iter xO p q) with (Pos.iter xO p q).
    exists (Pos.iter xO p q), (Zneg q).
    assert (Hb : bounded prec emax (Pos.iter xO p q) (Zneg q) = true).
    { unfold bounded, canonical_mantissa. rewrite digits2_pos_iter.
      apply andb_true_iff. split.
      - apply Z.eqb_eq. unfold fexp, emin, prec, emax.
        change IntDef.Z.sub with Z.sub. change IntDef.Z.max with Z.max. lia.
      - apply Z.leb_le. unfold emax, prec.  change IntDef.Z.sub with Z.sub. lia. }
    rewrite binary_round_aux_exact by assumption.
    split; [reflexivity|]. split; [assumption|]. split; [lia|].
    rewrite Zpos_iter_xO. reflexivity.
Qed.

Lemma int64_guard (k : Z) :
  - 2 ^ 53 < k < 2 ^ 53 ->
  (if (- 2 ^ 63 <=? k) && (k <? 2 ^ 63) then k else - 2 ^ 63) = k.
Proof.
  intros Hk. assert (H253 : 2 ^ 53 < 2 ^ 63) by (vm_compute; reflexivity).
  destruct (Z.leb_spec (- 2 ^ 63) k); [|lia].
  destruct (Z.ltb_spec k (2 ^ 63)); [|lia]. reflexivity.
Qed.

Lemma floor_int_of_Z (k : Z) :
  - 2 ^ 53 < k < 2 ^ 53 -> floor_int (of_Z k) = k.
Proof.
  intros Hk. unfold of_Z, floor_int.
  destruct k as [|p|p]; [reflexivity| |]; cbn [binary_normalize].
  - destruct (binary_round_small false p) as (m & e & -> & Hb & He & Hm); [lia|].
    rewrite Prim2SF_SF2Prim by exact Hb. cbn [cond_Zopp].
    match goal with
    | |- (if (_ <=? ?v) && _ then _ else _) = _ =>
        assert (Ev : v = Zpos p)
    end.
    { destruct e as [|q|q]; try lia.
      rewrite Hm. change (- Zneg q) with (Zpos q).
      change (Z.pow_pos 2 q) with (2 ^ Zpos q).
      apply Z.div_mul. apply Z.pow_nonzero; lia. }
    rewrite Ev. apply int64_guard. assumption.
  - destruct (binary_round_small true p) as (m & e & -> & Hb & He & Hm); [lia|].
    rewrite Prim2SF_SF2Prim by exact Hb. cbn [cond_Zopp].
    match goal with
    | |- (if (_ <=? ?v) && _ then _ else _) = _ =>
        assert (Ev : v = Zneg p)
    end.
    { destruct e as [|q|q]; try lia.
      rewrite Hm. change (- Zneg q) with (Zpos q).
      change (Z.pow_pos 2 q) with (2 ^ Zpos q).
      rewrite <- Z.mul_opp_l. change (- Zpos p) with (Zneg p).
      apply Z.div_mul. apply Z.pow_nonzero; lia. }
    rewrite Ev. apply int64_guard. assumption.
Qed.

Lemma digits2_pos_shift52 (m : positive) :
  Zpos (digits2_pos (m * 4503599627370496)) = Zpos (digits2_pos m) + 52.
Proof. rewrite Pos.mul_comm. cbn [Pos.mul digits2_pos]. lia. Qed.

Lemma shr_shift52 (m : positive) :
  SpecFloat.iter_pos shr_1 52
    {| shr_m := Zpos (m * 4503599627370496); shr_r := false; shr_s := false |}
  = {| shr_m := Zpos m; shr_r := false; shr_s := false |}.
Proof. rewrite Pos.mul_comm. reflexivity. Qed.

Lemma SFmul_one (x : spec_float) :
  valid_binary x = true ->
  match x with S754_infinity _ | S754_nan => False | _ => True end ->
  SF64mul x (Prim2SF 1) = x.
Proof.
  intros Hv Hf. change (Prim2SF 1) with (S754_finite false 4503599627370496 (-52)).
  destruct x as [s|s| |s m e]; try contradiction.
  - unfold SF64mul, SFmul. destruct s; reflexivity.
  - destruct (bounded_elim m e Hv) as [Hc He].
    unfold SF64mul, SFmul. rewrite xorb_false_r.
    unfold binary_round_aux, shr_fexp. cbn [Zdigits2 shr_record_of_loc].
    rewrite digits2_pos_shift52.
    replace (Zpos (digits2_pos m) + 52 + (e + -52))
      with (Zpos (digits2_pos m) + e) by lia.
    rewrite Hc. replace (e - (e + -52)) with 52 by lia.
    cbn [shr]. rewrite shr_shift52.
    cbn [shr_m loc_of_shr_record round_nearest_even Zdigits2].
    replace (e + -52 + 52) with e by lia.
    rewrite Hc, Z.sub_diag. cbn [shr shr_m]. rewrite He. reflexivity.
Qed.

Lemma finite64_cases (x : float) :
  finite64 x = true ->
  match Prim2SF x with S754_infinity _ | S754_nan => False | _ => True end.
Proof. unfold finite64. destruct (Prim2SF x); auto; discriminate. Qed.

Lemma mul_one (x : float) : finite64 x = true -> (x * 1)%float = x.
Proof.
  intros Hf. apply Prim2SF_inj. rewrite FloatAxioms.mul_spec.
  apply SFmul_one; [apply Prim2SF_valid|apply finite64_cases; assumption].
Qed.

(** finite times a zero is a zero *)
Lemma mul_zero (x z : float) :
  finite64 x = true -> zero64 z = true -> zero64 (x * z)%float = true.
Proof.
  unfold finite64, zero64. rewrite FloatAxioms.mul_spec.
  destruct (Prim2SF x), (Prim2SF z); try discriminate; reflexivity.
Qed.

Lemma add_zero (x z : float) :
  finite64 x = true -> zero64 x = false -> zero64 z = true ->
  (x + z)%float = x.
Proof.
  unfold finite64, zero64. intros Hx Hnz Hz. apply Prim2SF_inj.
  rewrite FloatAxioms.add_spec.
  destruct (Prim2SF x), (Prim2SF z); try discriminate; reflexivity.
Qed.

Lemma add_zeros (x z : float) :
  zero64 x = true -> zero64 z = true -> zero64 (x + z)%float = true.
Proof.
  unfold zero64. rewrite FloatAxioms.add_spec.
  destruct (Prim2SF x) as [[]| | |], (Prim2SF z) as [[]| | |];
    try discriminate; reflexivity.
Qed.

Lemma one_minus_zero (z : float) :
  zero64 z = true -> (1 - z)%float = 1%float.
Proof.
  unfold zero64. intros Hz. apply Prim2SF_inj. rewrite FloatAxioms.sub_spec.
  change (Prim2SF 1) with (S754_finite false 4503599627370496 (-52)).
  destruct (Prim2SF z); try discriminate; reflexivity.
Qed.

(** IEEE-equal finite numbers differ by a zero. *)
Lemma SFcompare_finite_eq (sx sy : bool) (mx my : positive) (ex ey : Z) :
  SFeqb (S754_finite sx mx ex) (S754_finite sy my ey) = true ->
  sx = sy /\ mx = my /\ ex = ey.
Proof.
  unfold SFeqb, SFcompare.
  destruct sx, sy; try discriminate;
    destruct (Z.compare_spec ex ey) as [He|He|He]; try discriminate;
    change (Pos.compare_cont Eq mx my) with (Pos.compare mx my);
    destruct (Pos.compare_spec mx my) as [Hm|Hm|Hm]; try discriminate; auto.
Qed.

Lemma sub_equal (x y : float) :
  finite64 x = true -> (x =? y)%float = true -> zero64 (x - y)%float = true.
Proof.
  unfold finite64, zero64. rewrite FloatAxioms.eqb_spec, FloatAxioms.sub_spec.
  destruct (Prim2SF x) as [sx|sx| |sx mx ex], (Prim2SF y) as [sy|sy| |sy my ey];
    intros Hx H; try discriminate Hx; try discriminate H;
    try (destruct sx; discriminate H); try (destruct sy; discriminate H).
  - destruct sx, sy; reflexivity.
  - apply SFcompare_finite_eq in H as (-> & -> & ->).
    unfold SF64sub, SFsub, shl_align. rewrite Z.min_id. change IntDef.Z.sub with Z.sub. rewrite Z.sub_diag.
    reflexivity.
Qed.

Local Close Scope Z_scope.

(** ** bilinear_sample on binary64 numbers *)

Lemma eqb_refl64 (a : float) :
  finite64 a = true -> (a =? a)%float = true.
Proof.
  unfold finite64. rewrite FloatAxioms.eqb_spec.
  destruct (Prim2SF a) as [s|s| |s m e]; try discriminate; intros _.
  - reflexivity.
  - unfold SFeqb, SFcompare. rewrite Z.compare_refl.
    change (Pos.compare_cont Eq m m) with (Pos.compare m m).
    rewrite Pos.compare_refl. destruct s; reflexivity.
Qed.

Lemma eqb_zeros64 (a b : float) :
  zero64 a = true -> zero64 b = true -> (a =? b)%float = true.
Proof.
  unfold zero64. rewrite FloatAxioms.eqb_spec.
  destruct (Prim2SF a), (Prim2SF b); try discriminate; reflexivity.
Qed.

Lemma zero64_finite (a : float) : zero64 a = true -> finite64 a = true.
Proof.
  unfold zero64, finite64. destruct (Prim2SF a); try discriminate; reflexivity.
Qed.

(** A blend whose fraction is a zero returns its first argument, up to
    the sign of a zero. *)
Lemma lerp64_zero_fraction (a b z : float) :
  finite64 a = true -> finite64 b = true -> zero64 z = true ->
  finite64 (lerp64 a b z) = true /\
  (zero64 a = false -> lerp64 a b z = a) /\
  (zero64 a = true -> zero64 (lerp64 a b z) = true).
Proof.
  intros Ha Hb Hz. unfold lerp64.
  rewrite (one_minus_zero z Hz), (mul_one a Ha).
  pose proof (mul_zero b z Hb Hz) as Hbz.
  destruct (zero64 a) eqn:Za.
  - pose proof (add_zeros a (b * z)%float Za Hbz) as H.
    split; [apply zero64_finite; assumption|].
    split; [discriminate|]. intros _. assumption.
  - rewrite (add_zero a (b * z)%float Ha Za Hbz).
    split; [assumption|]. split; [reflexivity|discriminate].
Qed.

Lemma blend_returns64 (a b c d zx zy : float) :
  finite64 a = true -> finite64 b = true -> finite64 c = true ->
  finite64 d = true -> zero64 zx = true -> zero64 zy = true ->
  returns64 (lerp64 (lerp64 a b zx) (lerp64 c d zx) zy) a.
Proof.
  intros Ha Hb Hc Hd Hzx Hzy.
  destruct (lerp64_zero_fraction a b zx Ha Hb Hzx) as (Ft & Nt & Zt).
  destruct (lerp64_zero_fraction c d zx Hc Hd Hzx) as (Fb & _ & _).
  destruct (lerp64_zero_fraction _ _ zy Ft Fb Hzy) as (Fr & Nr & Zr).
  unfold returns64. destruct (zero64 a) eqn:Za.
  - split; [|discriminate]. apply eqb_zeros64; [|assumption].
    apply Zr. apply Zt. reflexivity.
  - assert (E : lerp64 (lerp64 a b zx) (lerp64 c d zx) zy = a).
    { rewrite Nr; rewrite (Nt eq_refl); [reflexivity|assumption]. }
    rewrite E. split; [apply eqb_refl64; assumption|reflexivity].
Qed.

Lemma length_vscale64 (s : float) (v : vec64) :
  length (vscale64 s v) = length v.
Proof. apply length_map. Qed.

Lemma length_vadd64 (a b : vec64) :
  length a = length b -> length (vadd64 a b) = length a.
Proof.
  intros H. unfold vadd64. rewrite length_map, length_combine, H.
  apply Nat.min_id.
Qed.

Lemma nth_vscale64 (s : float) (v : vec64) (k : nat) :
  (k < length v)%nat ->
  nth k (vscale64 s v) 0%float = (nth k v 0 * s)%float.
Proof.
  intros Hk.
  exact (nth_map_in (fun c => (c * s)%float) v k 0%float 0%float Hk).
Qed.

Lemma nth_vadd64 (a b : vec64) (k : nat) :
  length a = length b -> (k < length a)%nat ->
  nth k (vadd64 a b) 0%float = (nth k a 0 + nth k b 0)%float.
Proof.
  intros Hl Hk. unfold vadd64.
  rewrite nth_map_in with (da := (0%float, 0%float))
    by (rewrite length_combine; lia).
  rewrite combine_nth by assumption. reflexivity.
Qed.

Lemma cell64_ok (h w c : nat) (fld : field64) (y x : Z) :
  regular3 h w c fld ->
  (0 <= y < Z.of_nat h)%Z -> (0 <= x < Z.of_nat w)%Z ->
  cell64 fld y x = Ok (nth (Z.to_nat x) (nth (Z.to_nat y) fld []) []) /\
  length (nth (Z.to_nat x) (nth (Z.to_nat y) fld []) []) = c.
Proof.
  intros Hf Hy Hx. unfold cell64.
  rewrite (getitem_ok fld y []) by (destruct Hf as [-> _]; lia). simpl.
  assert (Hrow : regular2 w c (nth (Z.to_nat y) fld []))
    by (apply (regular3_nth h); [assumption|lia]).
  rewrite (getitem_ok _ x []) by (destruct Hrow as [-> _]; lia).
  split; [reflexivity|].
  apply (regular2_nth w); [assumption|lia].
Qed.

(** The binary64 sampler succeeds on a non-empty regular field, and
    channel [k] of the sample is [sample_value64]. *)
Lemma sample_at64_channel (h w c : nat) (fld : field64) (x y : float) :
  regular3 h w c fld -> (0 < h)%nat -> (0 < w)%nat ->
  exists v, sample_at64 fld x y = Ok v /\ length v = c /\
    forall k, (k < c)%nat -> nth k v 0%float = sample_value64 fld k x y.
Proof.
  intros Hf Hh Hw.
  pose proof (regular3_ncols _ _ _ _ Hf Hh) as Hnc.
  assert (Hlen : length fld = h) by (destruct Hf; assumption).
  unfold sample_at64, sample_value64. rewrite Hnc, Hlen.
  set (x0 := clipZ (floor_int x) 0 (Z.of_nat w - 1)).
  set (x1 := clipZ (floor_int x + 1) 0 (Z.of_nat w - 1)).
  set (y0 := clipZ (floor_int y) 0 (Z.of_nat h - 1)).
  set (y1 := clipZ (floor_int y + 1) 0 (Z.of_nat h - 1)).
  assert (Hx0 : (0 <= x0 < Z.of_nat w)%Z) by (apply clipZ_range; lia).
  assert (Hx1 : (0 <= x1 < Z.of_nat w)%Z) by (apply clipZ_range; lia).
  assert (Hy0 : (0 <= y0 < Z.of_nat h)%Z) by (apply clipZ_range; lia).
  assert (Hy1 : (0 <= y1 < Z.of_nat h)%Z) by (apply clipZ_range; lia).
  destruct (cell64_ok h w c fld y0 x0 Hf Hy0 Hx0) as [-> L00].
  destruct (cell64_ok h w c fld y0 x1 Hf Hy0 Hx1) as [-> L01].
  destruct (cell64_ok h w c fld y1 x0 Hf Hy1 Hx0) as [-> L10].
  destruct (cell64_ok h w c fld y1 x1 Hf Hy1 Hx1) as [-> L11].
  simpl bind. unfold get3f.
  set (f00 := nth (Z.to_nat x0) (nth (Z.to_nat y0) fld []) []) in *.
  set (f01 := nth (Z.to_nat x1) (nth (Z.to_nat y0) fld []) []) in *.
  set (f10 := nth (Z.to_nat x0) (nth (Z.to_nat y1) fld []) []) in *.
  set (f11 := nth (Z.to_nat x1) (nth (Z.to_nat y1) fld []) []) in *.
  eexists. split; [reflexivity|].
  assert (Ltop : forall s t,
            length (vadd64 (vscale64 s f00) (vscale64 t f01)) = c).
  { intros. rewrite length_vadd64; rewrite !length_vscale64; congruence. }
  assert (Lbot : forall s t,
            length (vadd64 (vscale64 s f10) (vscale64 t f11)) = c).
  { intros. rewrite length_vadd64; rewrite !length_vscale64; congruence. }
  split.
  - rewrite length_vadd64; rewrite !length_vscale64;
      rewrite ?Ltop, ?Lbot; reflexivity.
  - intros k Hk.
    rewrite nth_vadd64
      by (rewrite ?length_vscale64, ?Ltop, ?Lbot; (reflexivity || assumption)).
    rewrite !nth_vscale64 by (rewrite ?Ltop, ?Lbot; assumption).
    rewrite !nth_vadd64 by (rewrite ?length_vscale64; congruence).
    rewrite !nth_vscale64 by congruence.
    reflexivity.
Qed.

(** Entries of the binary64 sampler's output, for coordinate arrays of
    equal shape. *)
Lemma bilinear_sample64_entries (h w c m n : nat) (fld : field64)
    (X Y : mat64) :
  regular3 h w c fld -> regular2 m n X -> regular2 m n Y ->
  ((0 < m)%nat -> (0 < n)%nat -> (0 < h)%nat /\ (0 < w)%nat) ->
  exists out, bilinear_sample64 fld X Y = Ok out /\
    regular3 m n c out /\
    forall i j k, (i < m)%nat -> (j < n)%nat -> (k < c)%nat ->
      get3f out i j k
      = sample_value64 fld k (nth j (nth i X []) 0%float)
                             (nth j (nth i Y []) 0%float).
Proof.
  intros Hf HX HY Hne. unfold bilinear_sample64.
  destruct (bzip_nth (bzip (sample_at64 fld))
              (fun i row => length row = n /\
                 forall j, (j < n)%nat ->
                   length (nth j row []) = c /\
                   forall k, (k < c)%nat ->
                     nth k (nth j row []) 0%float =
                     sample_value64 fld k (nth j (nth i X []) 0%float)
                                          (nth j (nth i Y []) 0%float))
              X Y [] [] [])
    as (out & Hout & Hlen & Hrows).
  { destruct HX, HY. congruence. }
  { intros i Hi. assert (Hi' : (i < m)%nat) by (destruct HX; lia).
    pose proof (regular2_nth m n X i HX Hi') as HXi.
    pose proof (regular2_nth m n Y i HY Hi') as HYi.
    destruct (bzip_nth (sample_at64 fld)
                (fun j v => length v = c /\
                   forall k, (k < c)%nat ->
                     nth k v 0%float =
                     sample_value64 fld k (nth j (nth i X []) 0%float)
                                          (nth j (nth i Y []) 0%float))
                (nth i X []) (nth i Y []) 0%float 0%float [])
      as (row & Hrow & Hl & Hcells).
    - congruence.
    - intros j Hj. rewrite HXi in Hj.
      destruct Hne as [Hh Hw]; [lia|lia|].
      apply (sample_at64_channel h w c); assumption.
    - exists row. split; [assumption|]. split; [congruence|].
      intros j Hj. apply Hcells. lia. }
  exists out. split; [assumption|].
  assert (Hm : length out = m) by (destruct HX; congruence).
  split.
  - apply regular3_intro; [assumption|]. intros i Hi.
    destruct (Hrows i) as [Hl Hc]; [destruct HX; lia|].
    apply regular2_intro; [assumption|]. intros j Hj. apply Hc. assumption.
  - intros i j k Hi Hj Hk.
    destruct (Hrows i) as [Hl Hc]; [destruct HX; lia|].
    apply Hc; assumption.
Qed.

(** ** The sampler at integer positions and outside the range, in
       binary64 *)

Lemma all2_nth {A : Type} (P : A -> Prop) (d : A) (m n : nat)
    (X : list (list A)) (i j : nat) :
  regular2 m n X -> all2 P X -> (i < m)%nat -> (j < n)%nat ->
  P (nth j (nth i X []) d).
Proof.
  intros HX HP Hi Hj. unfold all2 in HP. rewrite Forall_forall in HP.
  assert (Hin : In (nth i X []) X) by (apply nth_In; destruct HX; lia).
  specialize (HP _ Hin). rewrite Forall_forall in HP. apply HP.
  apply nth_In. rewrite (regular2_nth m n); assumption.
Qed.

Lemma all3_nth {A : Type} (P : A -> Prop) (d : A) (h w c : nat)
    (f : list (list (list A))) (i j k : nat) :
  regular3 h w c f -> all3 P f ->
  (i < h)%nat -> (j < w)%nat -> (k < c)%nat ->
  P (nth k (nth j (nth i f []) []) d).
Proof.
  intros Hf HP Hi Hj Hk. unfold all3 in HP. rewrite Forall_forall in HP.
  assert (Hin : In (nth i f []) f) by (apply nth_In; destruct Hf; lia).
  specialize (HP _ Hin). rewrite Forall_forall in HP.
  pose proof (regular3_nth h w c f i Hf Hi) as Hrow.
  assert (Hin2 : In (nth j (nth i f []) []) (nth i f []))
    by (apply nth_In; destruct Hrow; lia).
  specialize (HP _ Hin2). rewrite Forall_forall in HP. apply HP.
  apply nth_In. rewrite (regular3_cell h w c); assumption.
Qed.

(** At an integer position both fractions are zeros and the sample
    returns the cell it points at. *)
Lemma sample_value64_integer (h w c : nat) (fld : field64) (k : nat)
    (x y : float) :
  regular3 h w c fld -> all3 (fun v => finite64 v = true) fld ->
  integer64 w x -> integer64 h y -> (k < c)%nat ->
  returns64 (sample_value64 fld k x y)
            (get3f fld (Z.to_nat (floor_int y)) (Z.to_nat (floor_int x)) k).
Proof.
  intros Hf Hfin (Fx & Ex & Rx) (Fy & Ey & Ry) Hk.
  assert (Hh : (0 < h)%nat) by lia.
  pose proof (regular3_ncols _ _ _ _ Hf Hh) as Hnc.
  assert (Hlen : length fld = h) by (destruct Hf; assumption).
  unfold sample_value64. rewrite Hnc, Hlen.
  replace (clipZ (floor_int x) 0 (Z.of_nat w - 1)) with (floor_int x)
    by (unfold clipZ; lia).
  replace (clipZ (floor_int y) 0 (Z.of_nat h - 1)) with (floor_int y)
    by (unfold clipZ; lia).
  set (x1 := clipZ (floor_int x + 1) 0 (Z.of_nat w - 1)).
  set (y1 := clipZ (floor_int y + 1) 0 (Z.of_nat h - 1)).
  assert (Hx1 : (0 <= x1 < Z.of_nat w)%Z) by (apply clipZ_range; lia).
  assert (Hy1 : (0 <= y1 < Z.of_nat h)%Z) by (apply clipZ_range; lia).
  assert (Hcell : forall r q, (0 <= r < Z.of_nat h)%Z ->
            (0 <= q < Z.of_nat w)%Z ->
            finite64 (get3f fld (Z.to_nat r) (Z.to_nat q) k) = true).
  { intros r q Hr Hq. unfold get3f.
    apply (all3_nth (fun v => finite64 v = true) 0%float h w c);
      (assumption || lia). }
  apply blend_returns64; try (apply Hcell; lia);
    apply sub_equal; assumption.
Qed.

(** C5, in binary64: on a regular H x W x C field of finite numbers, at
    coordinate arrays whose entries are exact integers with
    0 <= x <= W-1 and 0 <= y <= H-1, [bilinear_sample] succeeds and every
    output value returns the field value [field[y, x]] it points at: the
    two compare equal, and they are the same binary64 number whenever the
    field value is not a zero.  (A zero comes back as a zero whose sign
    depends on the neighbouring cells.) *)
Theorem bilinear_sample64_at_integers (h w c m n : nat) (fld : field64)
    (X Y : mat64) :
  regular3 h w c fld -> all3 (fun v => finite64 v = true) fld ->
  regular2 m n X -> regular2 m n Y ->
  all2 (integer64 w) X -> all2 (integer64 h) Y ->
  exists out, bilinear_sample64 fld X Y = Ok out /\
    regular3 m n c out /\
    forall i j k, (i < m)%nat -> (j < n)%nat -> (k < c)%nat ->
      returns64 (get3f out i j k)
        (get3f fld (Z.to_nat (floor_int (nth j (nth i Y []) 0%float)))
                   (Z.to_nat (floor_int (nth j (nth i X []) 0%float))) k).
Proof.
  intros Hf Hfin HX HY IX IY.
  destruct (bilinear_sample64_entries h w c m n fld X Y Hf HX HY)
    as (out & Hout & Hreg & Hent).
  { intros Hm Hn.
    destruct (all2_nth _ 0%float m n X 0 0 HX IX Hm Hn) as (_ & _ & ?).
    destruct (all2_nth _ 0%float m n Y 0 0 HY IY Hm Hn) as (_ & _ & ?). lia. }
  exists out. split; [assumption|]. split; [assumption|].
  intros i j k Hi Hj Hk. rewrite (Hent i j k Hi Hj Hk).
  apply (sample_value64_integer h w c); try assumption.
  - apply (all2_nth _ 0%float m n X i j HX IX Hi Hj).
  - apply (all2_nth _ 0%float m n Y i j HY IY Hi Hj).
Qed.

Lemma bilinear_sample64_at_integers_witness :
  exists out,
    bilinear_sample64
      [[[(-0)%float; 2%float]; [3%float; 0x1.999999999999ap-4%float]];
       [[5%float; 6%float]; [7%float; 8%float]]]
      [[0%float; 1%float]] [[1%float; 0%float]] = Ok out /\
    regular3 1 2 2 out /\
    forall i j k, (i < 1)%nat -> (j < 2)%nat -> (k < 2)%nat ->
      returns64 (get3f out i j k)
        (get3f [[[(-0)%float; 2%float]; [3%float; 0x1.999999999999ap-4%float]];
                [[5%float; 6%float]; [7%float; 8%float]]]
           (Z.to_nat (floor_int (nth j (nth i [[1%float; 0%float]] []) 0%float)))
           (Z.to_nat (floor_int (nth j (nth i [[0%float; 1%float]] []) 0%float)))
           k).
Proof.
  apply (bilinear_sample64_at_integers 2 2 2 1 2).
  - repeat constructor.
  - repeat constructor.
  - repeat constructor.
  - repeat constructor.
  - repeat constructor; vm_compute; congruence.
  - repeat constructor; vm_compute; congruence.
Defined.

(** The result is not always the same bits: the entry [-0.0] of a 1 x 2
    field, sampled at (0,0) next to a positive neighbour, comes back as
    [+0.0]: [(-0.0) * 1 + 1.0 * 0.0 = +0.0]. *)
Lemma bilinear_sample64_signed_zero :
  bilinear_sample64 [[[(-0)%float]; [1%float]]] [[0%float]] [[0%float]]
  = Ok [[[0%float]]] /\
  0%float <> (-0)%float.
Proof.
  split; [vm_compute; reflexivity|].
  intros E. apply (f_equal Prim2SF) in E. vm_compute in E. discriminate E.
Qed.

Lemma of_Z_finite (k : Z) :
  (- 2 ^ 53 < k < 2 ^ 53)%Z -> finite64 (of_Z k) = true.
Proof.
  intros Hk. unfold of_Z, finite64.
  destruct k as [|p|p]; [reflexivity| |]; cbn [binary_normalize].
  - destruct (binary_round_small false p) as (m & e & -> & Hb & _); [lia|].
    rewrite Prim2SF_SF2Prim by exact Hb. reflexivity.
  - destruct (binary_round_small true p) as (m & e & -> & Hb & _); [lia|].
    rewrite Prim2SF_SF2Prim by exact Hb. reflexivity.
Qed.

(** Every integer of the index range is an integer coordinate. *)
Lemma integer64_of_Z (n : nat) (k : Z) :
  (0 <= k <= Z.of_nat n - 1)%Z -> (k < 2 ^ 53)%Z -> integer64 n (of_Z k).
Proof.
  intros Hk Hb. unfold integer64.
  rewrite floor_int_of_Z by lia.
  split; [apply of_Z_finite; lia|].
  split; [apply eqb_refl64; apply of_Z_finite; lia|assumption].
Qed.

(** Sampling at one position. *)
Lemma bilinear_sample64_single (h w c : nat) (fld : field64) (x y : float) :
  regular3 h w c fld -> (0 < h)%nat -> (0 < w)%nat ->
  exists out, bilinear_sample64 fld [[x]] [[y]] = Ok out /\
    regular3 1 1 c out /\
    forall k, (k < c)%nat -> get3f out 0 0 k = sample_value64 fld k x y.
Proof.
  intros Hf Hh Hw.
  destruct (bilinear_sample64_entries h w c 1 1 fld [[x]] [[y]] Hf)
    as (out & Hout & Hreg & Hent); try (repeat constructor); auto.
  exists out. split; [assumption|]. split; [assumption|].
  intros k Hk. apply (Hent 0%nat 0%nat k); auto.
Qed.

(** Below the range on both axes all four corners are the cell [0,0]. *)
Lemma sample_value64_below (h w c : nat) (fld : field64) (k : nat)
    (x y : float) :
  regular3 h w c fld -> (0 < h)%nat -> (0 < w)%nat ->
  (floor_int x < 0)%Z -> (floor_int y < 0)%Z ->
  sample_value64 fld k x y
  = blend64 (get3f fld 0 0 k) (x - of_Z 0)%float (y - of_Z 0)%float.
Proof.
  intros Hf Hh Hw Hx Hy.
  pose proof (regular3_ncols _ _ _ _ Hf Hh) as Hnc.
  assert (Hlen : length fld = h) by (destruct Hf; assumption).
  unfold sample_value64, blend64. rewrite Hnc, Hlen.
  replace (clipZ (floor_int x) 0 (Z.of_nat w - 1)) with 0%Z
    by (unfold clipZ; lia).
  replace (clipZ (floor_int x + 1) 0 (Z.of_nat w - 1)) with 0%Z
    by (unfold clipZ; lia).
  replace (clipZ (floor_int y) 0 (Z.of_nat h - 1)) with 0%Z
    by (unfold clipZ; lia).
  replace (clipZ (floor_int y + 1) 0 (Z.of_nat h - 1)) with 0%Z
    by (unfold clipZ; lia).
  reflexivity.
Qed.

(** At or above the last index on both axes all four corners are the cell
    [H-1, W-1]. *)
Lemma sample_value64_above (h w c : nat) (fld : field64) (k : nat)
    (x y : float) :
  regular3 h w c fld -> (0 < h)%nat -> (0 < w)%nat ->
  (Z.of_nat w - 1 <= floor_int x)%Z -> (Z.of_nat h - 1 <= floor_int y)%Z ->
  sample_value64 fld k x y
  = blend64 (get3f fld (h - 1) (w - 1) k)
      (x - of_Z (Z.of_nat w - 1))%float (y - of_Z (Z.of_nat h - 1))%float.
Proof.
  intros Hf Hh Hw Hx Hy.
  pose proof (regular3_ncols _ _ _ _ Hf Hh) as Hnc.
  assert (Hlen : length fld = h) by (destruct Hf; assumption).
  unfold sample_value64, blend64. rewrite Hnc, Hlen.
  replace (clipZ (floor_int x) 0 (Z.of_nat w - 1)) with (Z.of_nat w - 1)%Z
    by (unfold clipZ; lia).
  replace (clipZ (floor_int x + 1) 0 (Z.of_nat w - 1))
    with (Z.of_nat w - 1)%Z by (unfold clipZ; lia).
  replace (clipZ (floor_int y) 0 (Z.of_nat h - 1)) with (Z.of_nat h - 1)%Z
    by (unfold clipZ; lia).
  replace (clipZ (floor_int y + 1) 0 (Z.of_nat h - 1))
    with (Z.of_nat h - 1)%Z by (unfold clipZ; lia).
  replace (Z.to_nat (Z.of_nat h - 1)) with (h - 1)%nat by lia.
  replace (Z.to_nat (Z.of_nat w - 1)) with (w - 1)%nat by lia.
  reflexivity.
Qed.

(** C6: outside the index range the sampler reads the nearest corner cell
    only, and blends it with itself.  In binary64, on a regular non-empty
    H x W x C field: at (-5,-5) every output value is the blend of
    [field[0,0]] with itself at fractions -5 and -5 (the fraction is taken
    against the clamped index 0, so it is -5, not 0); at (W+5,H+5) it is
    the blend of [field[H-1,W-1]] with itself at the fractions
    [(W+5) - (W-1)] and [(H+5) - (H-1)].  In exact arithmetic such a blend
    [a (1 - f) + a f] is [a]: on a rational field the sample at (-5,-5)
    equals the sample at (0,0) and the sample at (W+5,H+5) equals the
    sample at (W-1,H-1), both being the corner cell. *)
Theorem bilinear_sample_edge_blend (h w c : nat) (fld64 : field64)
    (fld : field) :
  regular3 h w c fld64 -> regular3 h w c fld ->
  (0 < h)%nat -> (0 < w)%nat ->
  (Z.of_nat w + 5 < 2 ^ 53)%Z -> (Z.of_nat h + 5 < 2 ^ 53)%Z ->
  let W := Z.of_nat w in
  let H := Z.of_nat h in
  (exists out,
     bilinear_sample64 fld64 [[(-5)%float]] [[(-5)%float]] = Ok out /\
     regular3 1 1 c out /\
     forall k, (k < c)%nat ->
       get3f out 0 0 k
       = blend64 (get3f fld64 0 0 k) (-5)%float (-5)%float) /\
  (exists out,
     bilinear_sample64 fld64 [[of_Z (W + 5)]] [[of_Z (H + 5)]] = Ok out /\
     regular3 1 1 c out /\
     forall k, (k < c)%nat ->
       get3f out 0 0 k
       = blend64 (get3f fld64 (h - 1) (w - 1) k)
           (of_Z (W + 5) - of_Z (W - 1))%float
           (of_Z (H + 5) - of_Z (H - 1))%float) /\
  (exists a b,
     bilinear_sample fld [[-5]] [[-5]] = Ok a /\
     bilinear_sample fld [[0]] [[0]] = Ok b /\
     feq a b /\ feq a [[nth 0 (nth 0 fld []) []]]) /\
  (exists a b,
     bilinear_sample fld [[inject_Z (W + 5)]] [[inject_Z (H + 5)]] = Ok a /\
     bilinear_sample fld [[inject_Z (W - 1)]] [[inject_Z (H - 1)]] = Ok b /\
     feq a b /\ feq a [[nth (w - 1) (nth (h - 1) fld []) []]]).
Proof.
  intros Hf64 Hf Hh Hw Bw Bh W H.
  split; [|split].
  - destruct (bilinear_sample64_single h w c fld64 (-5)%float (-5)%float
                Hf64 Hh Hw) as (out & Hout & Rout & Eout).
    exists out. split; [assumption|]. split; [assumption|].
    intros k Hk. rewrite (Eout k Hk).
    apply (sample_value64_below h w c); try assumption;
      vm_compute; reflexivity.
  - destruct (bilinear_sample64_single h w c fld64
                (of_Z (W + 5)) (of_Z (H + 5)) Hf64 Hh Hw)
      as (out & Hout & Rout & Eout).
    exists out. split; [assumption|]. split; [assumption|].
    intros k Hk. rewrite (Eout k Hk).
    apply (sample_value64_above h w c); try assumption;
      rewrite floor_int_of_Z; subst W H; lia.
  - destruct (bilinear_sample_clamps_to_edge h w c fld Hf Hh Hw)
      as (A & B & _). split; assumption.
Qed.

Lemma bilinear_sample_edge_blend_witness :
  let fld64 := [[[1%float; 2%float]; [3%float; 4%float]];
                [[5%float; 6%float]; [7%float; 0x1.999999999999ap-4%float]]] in
  let fld := [[[1; 2]; [3; 4]]; [[5; 6]; [7; 8]]] in
  (exists out,
     bilinear_sample64 fld64 [[(-5)%float]] [[(-5)%float]] = Ok out /\
     regular3 1 1 2 out /\
     forall k, (k < 2)%nat ->
       get3f out 0 0 k
       = blend64 (get3f fld64 0 0 k) (-5)%float (-5)%float) /\
  (exists out,
     bilinear_sample64 fld64 [[of_Z (Z.of_nat 2 + 5)]]
                             [[of_Z (Z.of_nat 2 + 5)]] = Ok out /\
     regular3 1 1 2 out /\
     forall k, (k < 2)%nat ->
       get3f out 0 0 k
       = blend64 (get3f fld64 (2 - 1) (2 - 1) k)
           (of_Z (Z.of_nat 2 + 5) - of_Z (Z.of_nat 2 - 1))%float
           (of_Z (Z.of_nat 2 + 5) - of_Z (Z.of_nat 2 - 1))%float) /\
  (exists a b,
     bilinear_sample fld [[-5]] [[-5]] = Ok a /\
     bilinear_sample fld [[0]] [[0]] = Ok b /\
     feq a b /\ feq a [[nth 0 (nth 0 fld []) []]]) /\
  (exists a b,
     bilinear_sample fld [[inject_Z (Z.of_nat 2 + 5)]]
                         [[inject_Z (Z.of_nat 2 + 5)]] = Ok a /\
     bilinear_sample fld [[inject_Z (Z.of_nat 2 - 1)]]
                         [[inject_Z (Z.of_nat 2 - 1)]] = Ok b /\
     feq a b /\ feq a [[nth (2 - 1) (nth (2 - 1) fld []) []]]).
Proof.
  apply (bilinear_sample_edge_blend 2 2 2
           [[[1%float; 2%float]; [3%float; 4%float]];
            [[5%float; 6%float]; [7%float; 0x1.999999999999ap-4%float]]]
           [[[1; 2]; [3; 4]]; [[5; 6]; [7; 8]]]).
  - repeat constructor.
  - repeat constructor.
  - lia.
  - lia.
  - vm_compute. reflexivity.
  - vm_compute. reflexivity.
Defined.

(** In binary64 the blend of a value with itself is rounded: on the
    1 x 1 field holding 0.1 (the number 0x1.999999999999ap-4), the sample
    at (-5,-5) and the sample at (W+5,H+5) = (6,6) are
    0x1.99999999999a0p-4, which differs from the sample at (0,0). *)
Lemma bilinear_sample64_edge_rounding :
  bilinear_sample64 [[[0x1.999999999999ap-4%float]]]
                    [[(-5)%float]] [[(-5)%float]]
  = Ok [[[0x1.99999999999a0p-4%float]]] /\
  bilinear_sample64 [[[0x1.999999999999ap-4%float]]]
                    [[of_Z (1 + 5)]] [[of_Z (1 + 5)]]
  = Ok [[[0x1.99999999999a0p-4%float]]] /\
  bilinear_sample64 [[[0x1.999999999999ap-4%float]]]
                    [[of_Z (1 - 1)]] [[of_Z (1 - 1)]]
  = Ok [[[0x1.999999999999ap-4%float]]] /\
  (0x1.99999999999a0p-4 =? 0x1.999999999999ap-4)%float = false.
Proof. repeat split; vm_compute; reflexivity. Qed.

(** ** Element-wise operations on arrays of equal shape *)

Lemma bzip2d_nth {A B C : Type} (f : A -> B -> result C)
    (P : nat -> nat -> C -> Prop) (m n : nat)
    (X : list (list A)) (Y : list (list B)) (da : A) (db : B) (dc : C) :
  regular2 m n X -> regular2 m n Y ->
  (forall i j, (i < m)%nat -> (j < n)%nat ->
     exists v, f (nth j (nth i X []) da) (nth j (nth i Y []) db) = Ok v /\
               P i j v) ->
  exists out, bzip (bzip f) X Y = Ok out /\ regular2 m n out /\
    forall i j, (i < m)%nat -> (j < n)%nat -> P i j (nth j (nth i out []) dc).
Proof.
  intros HX HY H.
  destruct (bzip_nth (bzip f)
              (fun i row => length row = n /\
                 forall j, (j < n)%nat -> P i j (nth j row dc))
              X Y [] [] [])
    as (out & Hout & Hlen & Hrows).
  { destruct HX, HY. congruence. }
  { intros i Hi. assert (Hi' : (i < m)%nat) by (destruct HX; lia).
    pose proof (regular2_nth m n X i HX Hi') as HXi.
    pose proof (regular2_nth m n Y i HY Hi') as HYi.
    destruct (bzip_nth f (fun j v => P i j v)
                (nth i X []) (nth i Y []) da db dc)
      as (row & Hrow & Hl & Hcells).
    - congruence.
    - intros j Hj. apply H; lia.
    - exists row. split; [assumption|]. split; [congruence|].
      intros j Hj. apply Hcells. lia. }
  exists out. split; [assumption|].
  assert (Hm : length out = m) by (destruct HX; congruence).
  split.
  - apply regular2_intro; [assumption|]. intros i Hi.
    apply (Hrows i). lia.
  - intros i j Hi Hj. apply (Hrows i); lia.
Qed.

Lemma bzip2_entries (g : Q -> Q -> Q) (m n : nat) (X Y : mat) :
  regular2 m n X -> regular2 m n Y ->
  exists out, bzip2 g X Y = Ok out /\ regular2 m n out /\
    forall i j, (i < m)%nat -> (j < n)%nat ->
      get2 out i j = g (get2 X i j) (get2 Y i j).
Proof.
  intros HX HY. unfold bzip2, bzip1.
  apply (bzip2d_nth (lift2 g)
           (fun i j v => v = g (get2 X i j) (get2 Y i j)) m n X Y 0 0 0);
    try assumption.
  intros i j Hi Hj. eexists. split; reflexivity.
Qed.

Lemma bzip3_entries (g : Q -> Q -> Q) (h w c : nat) (a b : field) :
  regular3 h w c a -> regular3 h w c b ->
  exists out, bzip3 g a b = Ok out /\
    tabulated3 h w c
      (fun i j k v => v = g (get3 a i j k) (get3 b i j k)) out.
Proof.
  intros Ha Hb. unfold bzip3.
  destruct (bzip_nth (bzip2 g)
              (fun i m => regular2 w c m /\
                 forall j k, (j < w)%nat -> (k < c)%nat ->
                   get2 m j k = g (get3 a i j k) (get3 b i j k))
              a b [] [] [])
    as (out & Hout & Hlen & Hrows).
  { destruct Ha, Hb. congruence. }
  { intros i Hi. assert (Hi' : (i < h)%nat) by (destruct Ha; lia).
    destruct (bzip2_entries g w c (nth i a []) (nth i b []))
      as (m & Hm & Rm & Em).
    - apply (regular3_nth h); assumption.
    - apply (regular3_nth h); assumption.
    - exists m. split; [assumption|]. split; [assumption|]. exact Em. }
  exists out. split; [assumption|].
  assert (Hh : length out = h) by (destruct Ha; congruence).
  split.
  - apply regular3_intro; [assumption|]. intros i Hi. apply (Hrows i). lia.
  - intros i j k Hi Hj Hk. apply (Hrows i); lia.
Qed.

Lemma regular3_map3d {A B : Type} (g : A -> B) (h w c : nat)
    (f : list (list (list A))) :
  regular3 h w c f -> regular3 h w c (map3d g f).
Proof.
  intros [Hl Hr]. unfold map3d. split; [rewrite length_map; assumption|].
  apply Forall_map. eapply Forall_impl; [|exact Hr].
  intros r Hreg. apply (regular2_map2d g w c r Hreg).
Qed.

Lemma get3_map3d (g : Q -> Q) (h w c : nat) (f : field) (i j k : nat) :
  regular3 h w c f -> (i < h)%nat -> (j < w)%nat -> (k < c)%nat ->
  get3 (map3d g f) i j k = g (get3 f i j k).
Proof.
  intros Hf Hi Hj Hk. unfold get3, map3d.
  rewrite nth_map_in with (da := []) by (destruct Hf; lia).
  rewrite nth_map_in with (da := [])
    by (rewrite (regular2_nth w c _ j (regular3_nth h w c f i Hf Hi) Hj)
        || (destruct (regular3_nth h w c f i Hf Hi); lia)).
  apply nth_map_in. rewrite (regular3_cell h w c); assumption.
Qed.

(** ** advect *)

Lemma channel_entries (h w c : nat) (vel : field) (k : nat) :
  regular3 h w c vel -> (k < c)%nat ->
  exists m, channel (Z.of_nat k) vel = Ok m /\ regular2 h w m /\
    forall i j, (i < h)%nat -> (j < w)%nat -> get2 m i j = get3 vel i j k.
Proof.
  intros Hv Hk. unfold channel.
  destruct (mapM_nth (mapM (fun c0 => getitem c0 (Z.of_nat k)))
              (fun i row => length row = w /\
                 forall j, (j < w)%nat -> nth j row 0 = get3 vel i j k)
              vel [] [])
    as (m & Hm & Hlen & Hrows).
  { intros i Hi. assert (Hi' : (i < h)%nat) by (destruct Hv; lia).
    pose proof (regular3_nth h w c vel i Hv Hi') as Hrow.
    destruct (mapM_nth (fun c0 => getitem c0 (Z.of_nat k))
                (fun j v => v = get3 vel i j k) (nth i vel []) [] 0)
      as (row & Hr & Hl & Hcells).
    - intros j Hj. eexists. split; [|reflexivity].
      rewrite (getitem_ok _ _ 0).
      + rewrite Nat2Z.id. reflexivity.
      + rewrite (regular2_nth w c) by (assumption || (destruct Hrow; lia)).
        lia.
    - exists row. split; [assumption|]. destruct Hrow as [Hw _].
      split; [congruence|]. intros j Hj. apply Hcells. lia. }
  exists m. split; [assumption|].
  assert (Hh : length m = h) by (destruct Hv; congruence).
  split.
  - apply regular2_intro; [assumption|]. intros i Hi. apply (Hrows i).
    destruct Hv; lia.
  - intros i j Hi Hj. apply (Hrows i); destruct Hv; lia.
Qed.

Lemma meshgrid_ij_entries (h w : nat) :
  let '(y, x) := meshgrid_ij (map inject_Z (arange 0 (Z.of_nat h)))
                             (map inject_Z (arange 0 (Z.of_nat w))) in
  regular2 h w y /\ regular2 h w x /\
  forall i j, (i < h)%nat -> (j < w)%nat ->
    get2 y i j = inject_Z (Z.of_nat i) /\ get2 x i j = inject_Z (Z.of_nat j).
Proof.
  unfold meshgrid_ij.
  assert (Lh : length (map inject_Z (arange 0 (Z.of_nat h))) = h).
  { rewrite length_map, length_arange. lia. }
  assert (Lw : length (map inject_Z (arange 0 (Z.of_nat w))) = w).
  { rewrite length_map, length_arange. lia. }
  assert (Nh : forall i, (i < h)%nat ->
            nth i (map inject_Z (arange 0 (Z.of_nat h))) 0
            = inject_Z (Z.of_nat i)).
  { intros i Hi. rewrite nth_map_in with (da := 0%Z)
      by (rewrite length_arange; lia).
    rewrite nth_arange by lia. reflexivity. }
  assert (Nw : forall j, (j < w)%nat ->
            nth j (map inject_Z (arange 0 (Z.of_nat w))) 0
            = inject_Z (Z.of_nat j)).
  { intros j Hj. rewrite nth_map_in with (da := 0%Z)
      by (rewrite length_arange; lia).
    rewrite nth_arange by lia. reflexivity. }
  split; [|split].
  - apply regular2_intro; [rewrite length_map; assumption|].
    intros i Hi. rewrite nth_map_in with (da := 0) by lia.
    rewrite length_map. assumption.
  - apply regular2_intro; [rewrite length_map; assumption|].
    intros i Hi. rewrite nth_map_in with (da := 0) by lia. assumption.
  - intros i j Hi Hj. unfold get2. split.
    + rewrite nth_map_in with (da := 0) by lia.
      rewrite nth_map_in with (da := 0) by lia. apply Nh. assumption.
    + rewrite nth_map_in with (da := 0) by lia. apply Nw. assumption.
Qed.

(** The backward-traced, clamped sample position of pixel [(i, j)]. *)
Lemma advect_entries (h w c : nat) (fld vel : field) (dt : Q) :
  regular3 h w c fld -> regular3 h w 2 vel ->
  exists out, advect fld vel dt = Ok out /\
    tabulated3 h w c
      (fun i j k v =>
         v == bilerp fld k
                (clip (inject_Z (Z.of_nat j) - dt * get3 vel i j 0)
                      0 (inject_Z (Z.of_nat w - 1)))
                (clip (inject_Z (Z.of_nat i) - dt * get3 vel i j 1)
                      0 (inject_Z (Z.of_nat h - 1))))
      out.
Proof.
  intros Hf Hv. unfold advect.
  assert (Hlen : length fld = h) by (destruct Hf; assumption).
  rewrite Hlen.
  destruct (Nat.eq_dec h 0) as [Hz|Hnz].
  { subst h. destruct Hv as [Hlv _]. destruct Hf as [_ _].
    destruct fld; [|discriminate]. destruct vel; [|discriminate].
    simpl. exists []. split; [reflexivity|].
    split; [split; [reflexivity|constructor]|]. intros; lia. }
  rewrite (regular3_ncols h w c fld Hf) by lia.
  pose proof (meshgrid_ij_entries h w) as Hmesh.
  destruct (meshgrid_ij (map inject_Z (arange 0 (Z.of_nat h)))
                        (map inject_Z (arange 0 (Z.of_nat w))))
    as [y x].
  destruct Hmesh as (Ry & Rx & Emesh).
  destruct (channel_entries h w 2 vel 0 Hv) as (v0 & Hv0 & Rv0 & Ev0); [lia|].
  destruct (channel_entries h w 2 vel 1 Hv) as (v1 & Hv1 & Rv1 & Ev1); [lia|].
  change (Z.of_nat 0) with 0%Z in Hv0. change (Z.of_nat 1) with 1%Z in Hv1.
  rewrite Hv0. simpl bind.
  destruct (bzip2_entries Qminus h w x (map2d (Qmult dt) v0) Rx)
    as (xb & Hxb & Rxb & Exb); [apply regular2_map2d; assumption|].
  rewrite Hxb. simpl bind. rewrite Hv1. simpl bind.
  destruct (bzip2_entries Qminus h w y (map2d (Qmult dt) v1) Ry)
    as (yb & Hyb & Ryb & Eyb); [apply regular2_map2d; assumption|].
  rewrite Hyb. simpl bind.
  destruct (bilinear_sample_entries h w c h w fld
              (map2d (fun v => clip v 0 (inject_Z (Z.of_nat w - 1))) xb)
              (map2d (fun v => clip v 0 (inject_Z (Z.of_nat h - 1))) yb) Hf)
    as (out & Hout & Rout & Eout);
    [apply regular2_map2d; assumption|apply regular2_map2d; assumption
    |auto|].
  exists out. split; [assumption|]. split; [assumption|].
  intros i j k Hi Hj Hk. rewrite (Eout i j k Hi Hj Hk).
  rewrite (get2_map2d _ h w xb), (get2_map2d _ h w yb) by assumption.
  rewrite Exb, Eyb by assumption.
  rewrite (get2_map2d _ h w v0), (get2_map2d _ h w v1) by assumption.
  rewrite Ev0, Ev1 by assumption.
  destruct (Emesh i j Hi Hj) as [-> ->]. reflexivity.
Qed.

Lemma all3_get3 (P : Q -> Prop) (h w c : nat) (f : field) (i j k : nat) :
  regular3 h w c f -> all3 P f ->
  (i < h)%nat -> (j < w)%nat -> (k < c)%nat -> P (get3 f i j k).
Proof.
  intros Hf HP Hi Hj Hk. unfold all3 in HP. rewrite Forall_forall in HP.
  assert (Hin : In (nth i f []) f) by (apply nth_In; destruct Hf; lia).
  specialize (HP _ Hin). rewrite Forall_forall in HP.
  pose proof (regular3_nth h w c f i Hf Hi) as Hrow.
  assert (Hin2 : In (nth j (nth i f []) []) (nth i f []))
    by (apply nth_In; destruct Hrow; lia).
  specialize (HP _ Hin2). rewrite Forall_forall in HP. apply HP.
  apply nth_In. rewrite (regular3_cell h w c); assumption.
Qed.

Lemma all3_intro {A : Type} (P : A -> Prop) (d : A) (h w c : nat)
    (f : list (list (list A))) :
  regular3 h w c f ->
  (forall i j k, (i < h)%nat -> (j < w)%nat -> (k < c)%nat ->
                 P (nth k (nth j (nth i f []) []) d)) ->
  all3 P f.
Proof.
  intros Hf H. unfold all3. apply Forall_forall. intros row Hrow.
  destruct (In_nth _ _ [] Hrow) as (i & Hi & <-).
  assert (Hi' : (i < h)%nat) by (destruct Hf; lia).
  pose proof (regular3_nth h w c f i Hf Hi') as Hr.
  apply Forall_forall. intros cl Hcl.
  destruct (In_nth _ _ [] Hcl) as (j & Hj & <-).
  assert (Hj' : (j < w)%nat) by (destruct Hr; lia).
  apply Forall_forall. intros v Hv.
  destruct (In_nth _ _ d Hv) as (k & Hk & <-).
  apply H; try assumption.
  rewrite (regular3_cell h w c) in Hk; assumption.
Qed.

Lemma integer_in_intro (n : nat) (x : Q) (k : nat) :
  x == inject_Z (Z.of_nat k) -> (k < n)%nat ->
  integer_in n x /\ Z.to_nat (Qfloor x) = k.
Proof.
  intros E Hk. pose proof (Qfloor_integer x _ E) as F.
  unfold integer_in. rewrite F. repeat split; try assumption; lia.
Qed.

(** With an all-zero velocity the output entry is the input entry. *)
Lemma advect_still_entry (h w c : nat) (fld : field) (i j k : nat)
    (dt u v : Q) :
  regular3 h w c fld -> (i < h)%nat -> (j < w)%nat ->
  u == 0 -> v == 0 ->
  bilerp fld k
    (clip (inject_Z (Z.of_nat j) - dt * u) 0 (inject_Z (Z.of_nat w - 1)))
    (clip (inject_Z (Z.of_nat i) - dt * v) 0 (inject_Z (Z.of_nat h - 1)))
  == get3 fld i j k.
Proof.
  intros Hf Hi Hj Hu Hv.
  rewrite <- (bilerp_clip h w c) by (assumption || lia).
  destruct (integer_in_intro w (inject_Z (Z.of_nat j) - dt * u) j) as [Ix Fx];
    [rewrite Hu; ring|assumption|].
  destruct (integer_in_intro h (inject_Z (Z.of_nat i) - dt * v) i) as [Iy Fy];
    [rewrite Hv; ring|assumption|].
  rewrite (bilerp_integer h w c) by assumption.
  rewrite Fx, Fy. reflexivity.
Qed.

(** C7: for a regular H x W x C field, an all-zero H x W x 2 velocity field
    and any [dt], [advect] succeeds and returns a field equal to its
    input. *)
Theorem advect_zero_velocity (h w c : nat) (fld vel : field) (dt : Q) :
  regular3 h w c fld -> regular3 h w 2 vel ->
  all3 (fun v => v == 0) vel ->
  exists out, advect fld vel dt = Ok out /\ feq out fld.
Proof.
  intros Hf Hv Hz.
  destruct (advect_entries h w c fld vel dt Hf Hv) as (out & Hout & Rout & Eout).
  exists out. split; [assumption|].
  apply (feq_intro h w c); try assumption.
  intros i j k Hi Hj Hk. rewrite (Eout i j k Hi Hj Hk).
  apply (advect_still_entry h w c); try assumption.
  - apply (all3_get3 (fun v => v == 0) h w 2 vel i j 0);
      (assumption || lia).
  - apply (all3_get3 (fun v => v == 0) h w 2 vel i j 1);
      (assumption || lia).
Qed.

Lemma advect_zero_velocity_witness :
  exists out,
    advect [[[10; 20; 30]; [40; 50; 60]]; [[70; 80; 90]; [100; 110; 120]]]
           [[[0; 0]; [0; 0]]; [[0; 0]; [0; 0]]] 0.6 = Ok out /\
    feq out [[[10; 20; 30]; [40; 50; 60]]; [[70; 80; 90]; [100; 110; 120]]].
Proof.
  apply (advect_zero_velocity 2 2 3).
  - repeat constructor.
  - repeat constructor.
  - repeat constructor.
Defined.

(** ** The dissipation blend *)

Lemma dissipate_entries (h w c : nat) (dye base_dye : field) :
  regular3 h w c dye -> regular3 h w c base_dye ->
  exists out, dissipate dye base_dye = Ok out /\
    tabulated3 h w c
      (fun i j k v =>
         v = 0.995 * get3 dye i j k + 0.005 * get3 base_dye i j k) out.
Proof.
  intros Hd Hb. unfold dissipate.
  destruct (bzip3_entries Qplus h w c (map3d (Qmult 0.995) dye)
              (map3d (Qmult 0.005) base_dye))
    as (out & Hout & Rout & Eout);
    [apply regular3_map3d; assumption|apply regular3_map3d; assumption|].
  exists out. split; [assumption|]. split; [assumption|].
  intros i j k Hi Hj Hk. rewrite (Eout i j k Hi Hj Hk).
  rewrite (get3_map3d _ h w c dye), (get3_map3d _ h w c base_dye)
    by assumption.
  reflexivity.
Qed.

Lemma transport_entries (h w c : nat) (base_dye dye vel : field) (dt : Q) :
  regular3 h w c base_dye -> regular3 h w c dye -> regular3 h w 2 vel ->
  exists out, transport base_dye dye vel dt = Ok out /\
    tabulated3 h w c
      (fun i j k v =>
         v == 0.995 * bilerp dye k
                (clip (inject_Z (Z.of_nat j) - dt * get3 vel i j 0)
                      0 (inject_Z (Z.of_nat w - 1)))
                (clip (inject_Z (Z.of_nat i) - dt * get3 vel i j 1)
                      0 (inject_Z (Z.of_nat h - 1)))
              + 0.005 * get3 base_dye i j k)
      out.
Proof.
  intros Hb Hd Hv. unfold transport.
  destruct (advect_entries h w c dye vel dt Hd Hv) as (d1 & Hd1 & R1 & E1).
  rewrite Hd1. simpl bind.
  destruct (dissipate_entries h w c d1 base_dye R1 Hb) as (out & Ho & Ro & Eo).
  exists out. split; [assumption|]. split; [assumption|].
  intros i j k Hi Hj Hk. rewrite (Eo i j k Hi Hj Hk).
  rewrite (E1 i j k Hi Hj Hk). reflexivity.
Qed.

(** One step at rest: the residual shrinks by the factor 0.995. *)
Lemma transport_still (h w c : nat) (base_dye dye vel : field) (dt : Q) :
  regular3 h w c base_dye -> regular3 h w c dye -> still h w vel ->
  exists out, transport base_dye dye vel dt = Ok out /\
    regular3 h w c out /\
    forall i j k, (i < h)%nat -> (j < w)%nat -> (k < c)%nat ->
      get3 out i j k - get3 base_dye i j k ==
      0.995 * (get3 dye i j k - get3 base_dye i j k).
Proof.
  intros Hb Hd [Hv Hz].
  destruct (transport_entries h w c base_dye dye vel dt Hb Hd Hv)
    as (out & Ho & Ro & Eo).
  exists out. split; [assumption|]. split; [assumption|].
  intros i j k Hi Hj Hk. rewrite (Eo i j k Hi Hj Hk).
  rewrite (advect_still_entry h w c); try assumption.
  - ring.
  - apply (all3_get3 (fun v => v == 0) h w 2 vel i j 0);
      (assumption || lia).
  - apply (all3_get3 (fun v => v == 0) h w 2 vel i j 1);
      (assumption || lia).
Qed.






(** ** apply_along_axis and convolve *)

Lemma length_slice0 (arr : field) (j k : nat) :
  length (slice0 arr j k) = length arr.
Proof. apply length_map. Qed.

Lemma length_slice1 (row : mat) (k : nat) :
  length (slice1 row k) = length row.
Proof. apply length_map. Qed.

Lemma nth_slice0 (arr : field) (i j k : nat) :
  nth i (slice0 arr j k) 0 = get3 arr i j k.
Proof.
  unfold slice0, get3.
  destruct (Nat.lt_ge_cases i (length arr)) as [Hi|Hi].
  - rewrite nth_map_in with (da := []) by assumption. reflexivity.
  - rewrite nth_overflow by (rewrite length_map; assumption).
    rewrite (nth_overflow arr) by assumption. destruct j, k; reflexivity.
Qed.

Lemma nth_slice1 (row : mat) (j k : nat) :
  nth j (slice1 row k) 0 = nth k (nth j row []) 0.
Proof.
  unfold slice1.
  destruct (Nat.lt_ge_cases j (length row)) as [Hj|Hj].
  - rewrite nth_map_in with (da := []) by assumption. reflexivity.
  - rewrite nth_overflow by (rewrite length_map; assumption).
    rewrite (nth_overflow row) by assumption. destruct k; reflexivity.
Qed.

Lemma same_length_ok (f : vec -> result vec) (g : vec -> vec) (h n : nat)
    (m : vec) :
  slicewise f g h n -> length m = h -> same_length n (f m) = Ok (g m).
Proof.
  intros Hs Hm. destruct (Hs m Hm) as [-> Hl]. unfold same_length. simpl.
  rewrite Hl, Nat.eqb_refl. reflexivity.
Qed.

Lemma apply_along_axis0_entries (f : vec -> result vec) (g : vec -> vec)
    (h w c n : nat) (arr : field) :
  regular3 h w c arr -> (0 < h)%nat -> (0 < w)%nat -> (0 < c)%nat ->
  slicewise f g h n ->
  exists out, apply_along_axis0 f arr = Ok out /\
    tabulated3 n w c
      (fun i j k v => v = nth i (g (slice0 arr j k)) 0) out.
Proof.
  intros Ha Hh Hw Hc Hs. unfold apply_along_axis0.
  rewrite (regular3_ncols h w c arr Ha Hh).
  rewrite (regular3_nchan h w c arr Ha Hh Hw).
  assert (Hlen : length arr = h) by (destruct Ha; assumption).
  destruct (Nat.eqb_spec w 0); [lia|]. destruct (Nat.eqb_spec c 0); [lia|].
  simpl orb. cbv iota.
  destruct (Hs (slice0 arr 0 0)) as [-> Hl0];
    [rewrite length_slice0; assumption|].
  simpl bind. rewrite Hl0.
  rewrite (mapM_ext _ (fun j => Ok (map (fun k => g (slice0 arr j k))
                                        (seq 0 c)))).
  2:{ intros j _. rewrite <- mapM_pure. apply mapM_ext. intros k _.
      apply (same_length_ok f g h n); [assumption|].
      rewrite length_slice0. assumption. }
  rewrite mapM_pure. simpl bind.
  eexists. split; [reflexivity|]. split.
  - apply regular3_intro; [rewrite length_map, length_seq; reflexivity|].
    intros i Hi. nth_of_seq_map.
    apply regular2_intro; [rewrite !length_map, length_seq; reflexivity|].
    intros j Hj.
    rewrite nth_map_in with (da := [])
      by (rewrite length_map, length_seq; assumption).
    rewrite length_map.
    nth_of_seq_map.
    rewrite length_map, length_seq. reflexivity.
  - intros i j k Hi Hj Hk. unfold get3.
    nth_of_seq_map.
    rewrite nth_map_in with (da := [])
      by (rewrite length_map, length_seq; assumption).
    nth_of_seq_map.
    rewrite nth_map_in with (da := [])
      by (rewrite length_map, length_seq; assumption).
    nth_of_seq_map.
    rewrite !seq_nth by assumption. reflexivity.
Qed.

Lemma apply_along_axis1_entries (f : vec -> result vec) (g : vec -> vec)
    (h w c n : nat) (arr : field) :
  regular3 h w c arr -> (0 < h)%nat -> (0 < w)%nat -> (0 < c)%nat ->
  slicewise f g w n ->
  exists out, apply_along_axis1 f arr = Ok out /\
    tabulated3 h n c
      (fun i j k v => v = nth j (g (slice1 (nth i arr []) k)) 0) out.
Proof.
  intros Ha Hh Hw Hc Hs. unfold apply_along_axis1.
  rewrite (regular3_nchan h w c arr Ha Hh Hw).
  assert (Hlen : length arr = h) by (destruct Ha; assumption).
  rewrite Hlen.
  destruct (Nat.eqb_spec h 0); [lia|]. destruct (Nat.eqb_spec c 0); [lia|].
  simpl orb. cbv iota.
  assert (Hrow : forall row, In row arr -> length row = w).
  { intros row Hin. destruct Ha as [_ Hr]. rewrite Forall_forall in Hr.
    apply Hr. assumption. }
  destruct (Hs (slice1 (nth 0 arr []) 0)) as [-> Hl0].
  { rewrite length_slice1. apply Hrow. apply nth_In. lia. }
  simpl bind. rewrite Hl0.
  rewrite (mapM_ext _
             (fun row => Ok (map (fun j =>
                                    map (fun r => nth j r 0)
                                        (map (fun k => g (slice1 row k))
                                             (seq 0 c)))
                                 (seq 0 n)))).
  2:{ intros row Hin.
      rewrite (mapM_ext _ (fun k => Ok (g (slice1 row k)))).
      - rewrite mapM_pure. reflexivity.
      - intros k _. apply (same_length_ok f g w n); [assumption|].
        rewrite length_slice1. apply Hrow. assumption. }
  rewrite mapM_pure.
  eexists. split; [reflexivity|]. split.
  - apply regular3_intro; [rewrite length_map; assumption|].
    intros i Hi. rewrite nth_map_in with (da := []) by lia.
    apply regular2_intro; [rewrite length_map, length_seq; reflexivity|].
    intros j Hj.
    nth_of_seq_map.
    rewrite !length_map, length_seq. reflexivity.
  - intros i j k Hi Hj Hk. unfold get3.
    rewrite nth_map_in with (da := []) by lia.
    nth_of_seq_map.
    rewrite nth_map_in with (da := [])
      by (rewrite length_map, length_seq; assumption).
    nth_of_seq_map.
    rewrite !seq_nth by assumption. reflexivity.
Qed.

Lemma convolve_same_long (a v : vec) :
  (0 < length v)%nat -> (length v <= length a)%nat ->
  convolve_same a v = Ok (conv_centred v a).
Proof.
  intros Hv Ha. unfold convolve_same.
  destruct (Nat.eqb_spec (length a) 0); [lia|].
  destruct (Nat.eqb_spec (length v) 0); [lia|]. simpl orb. cbv iota.
  destruct (Nat.ltb_spec (length a) (length v)); [lia|]. reflexivity.
Qed.

Lemma slicewise_convolve (v : vec) (h : nat) :
  (0 < length v)%nat -> (length v <= h)%nat ->
  slicewise (fun m => convolve_same m v) (conv_centred v) h h.
Proof.
  intros Hv Hh m Hm. split.
  - apply convolve_same_long; lia.
  - unfold conv_centred. rewrite length_map, length_seq. assumption.
Qed.

Lemma nth_conv_centred (v a : vec) (i : nat) :
  (i < length a)%nat ->
  nth i (conv_centred v a) 0
  = conv_at a v (i + Nat.div (length v - 1) 2).
Proof.
  intros Hi. unfold conv_centred.
  nth_of_seq_map.
  rewrite seq_nth by assumption. reflexivity.
Qed.

(** Both passes of the blur on a field at least as large as the kernel. *)
Lemma blur_passes_entries (v : vec) (h w c : nat) (arr : field) :
  regular3 h w c arr -> (0 < c)%nat ->
  (0 < length v)%nat -> (length v <= h)%nat -> (length v <= w)%nat ->
  exists b0 out,
    apply_along_axis0 (fun m => convolve_same m v) arr = Ok b0 /\
    apply_along_axis1 (fun m => convolve_same m v) b0 = Ok out /\
    tabulated3 h w c
      (fun i j k x =>
         x = conv_at (slice0 arr j k) v (i + Nat.div (length v - 1) 2)) b0 /\
    tabulated3 h w c
      (fun i j k x =>
         x = conv_at (slice1 (nth i b0 []) k) v
               (j + Nat.div (length v - 1) 2)) out.
Proof.
  intros Ha Hc Hv Hh Hw.
  destruct (apply_along_axis0_entries (fun m => convolve_same m v)
              (conv_centred v) h w c h arr Ha)
    as (b0 & Hb0 & Rb0 & Eb0); try lia.
  { apply slicewise_convolve; assumption. }
  destruct (apply_along_axis1_entries (fun m => convolve_same m v)
              (conv_centred v) h w c w b0 Rb0)
    as (out & Ho & Ro & Eo); try lia.
  { apply slicewise_convolve; assumption. }
  exists b0, out. split; [assumption|]. split; [assumption|]. split.
  - split; [assumption|]. intros i j k Hi Hj Hk.
    rewrite (Eb0 i j k Hi Hj Hk).
    apply nth_conv_centred. rewrite length_slice0. destruct Ha. lia.
  - split; [assumption|]. intros i j k Hi Hj Hk.
    rewrite (Eo i j k Hi Hj Hk).
    apply nth_conv_centred. rewrite length_slice1.
    rewrite (regular2_nth h w); [assumption| |assumption].
    destruct Rb0 as [Hl Hr]. split; [assumption|].
    eapply Forall_impl; [|exact Hr]. intros r [Hr1 _]. assumption.
Qed.

(** ** velocity_field *)

Lemma gradient1d_ok (f : vec) :
  (2 <= length f)%nat ->
  exists g, gradient1d f = Ok g /\ length g = length f.
Proof.
  intros Hf. unfold gradient1d.
  destruct (Nat.ltb_spec (length f) 2); [lia|].
  eexists. split; [reflexivity|]. rewrite length_map, length_seq.
  reflexivity.
Qed.

Lemma gradient1d_short (f : vec) :
  (length f < 2)%nat -> gradient1d f = Raise ValueError.
Proof.
  intros Hf. unfold gradient1d.
  destruct (Nat.ltb_spec (length f) 2); [reflexivity|lia].
Qed.

Lemma regular2_transpose (h w : nat) (m : mat) :
  regular2 h w m -> (0 < h)%nat -> regular2 w h (transpose m).
Proof.
  intros Hm Hh. unfold transpose.
  assert (Hnc : ncols m = w).
  { destruct Hm as [Hl Hr]. destruct m as [|r m]; simpl in *; [lia|].
    inversion Hr. assumption. }
  rewrite Hnc. apply regular2_intro; [rewrite length_map, length_seq; reflexivity|].
  intros j Hj. nth_of_seq_map.
  unfold column. rewrite length_map. destruct Hm; assumption.
Qed.

Lemma mapM_gradient1d_shape (h w : nat) (m : mat) :
  regular2 h w m -> (2 <= w)%nat ->
  exists g, mapM gradient1d m = Ok g /\ regular2 h w g.
Proof.
  intros Hm Hw.
  destruct (mapM_nth gradient1d (fun _ r => length r = w) m [] [])
    as (g & Hg & Hl & Hr).
  - intros i Hi.
    assert (Hlen : length (nth i m []) = w)
      by (apply (regular2_nth h w); [assumption|destruct Hm; lia]).
    destruct (gradient1d_ok (nth i m [])) as (r & Hr & Hlr); [lia|].
    exists r. split; [assumption|congruence].
  - exists g. split; [assumption|].
    apply regular2_intro; [destruct Hm; congruence|].
    intros i Hi. apply Hr. destruct Hm; lia.
Qed.

Lemma gradient_axis1_shape (h w : nat) (psi : mat) :
  regular2 h w psi -> (0 < h)%nat -> (2 <= w)%nat ->
  exists g, gradient_axis1 psi = Ok g /\ regular2 h w g.
Proof.
  intros Hp Hh Hw. unfold gradient_axis1.
  assert (Hnc : ncols psi = w).
  { destruct Hp as [Hl Hr]. destruct psi as [|r m]; simpl in *; [lia|].
    inversion Hr. assumption. }
  rewrite Hnc. destruct (Nat.ltb_spec w 2); [lia|].
  apply mapM_gradient1d_shape; assumption.
Qed.

Lemma gradient_axis0_shape (h w : nat) (psi : mat) :
  regular2 h w psi -> (2 <= h)%nat -> (0 < w)%nat ->
  exists g, gradient_axis0 psi = Ok g /\ regular2 h w g.
Proof.
  intros Hp Hh Hw. unfold gradient_axis0.
  destruct Hp as [Hl Hr]. rewrite Hl.
  destruct (Nat.ltb_spec h 2); [lia|].
  destruct (mapM_gradient1d_shape w h (transpose psi)) as (cols & Hc & Rc).
  - apply regular2_transpose; [split; assumption|lia].
  - assumption.
  - rewrite Hc. simpl bind. eexists. split; [reflexivity|].
    apply regular2_transpose; [assumption|lia].
Qed.

Lemma gradient_axis0_short (psi : mat) :
  (length psi < 2)%nat -> gradient_axis0 psi = Raise ValueError.
Proof.
  intros H. unfold gradient_axis0.
  destruct (Nat.ltb_spec (length psi) 2); [reflexivity|lia].
Qed.

Lemma stack_last_shape (h w : nat) (u v : mat) :
  regular2 h w u -> regular2 h w v ->
  exists s, stack_last u v = Ok s /\ regular3 h w 2 s.
Proof.
  intros Hu Hv. unfold stack_last.
  assert (Hl : length u = length v) by (destruct Hu, Hv; congruence).
  rewrite Hl, Nat.eqb_refl.
  destruct (mapM_nth
              (fun p : list Q * list Q =>
                 if Nat.eqb (length (fst p)) (length (snd p))
                 then Ok (map (fun q => [fst q; snd q])
                              (combine (fst p) (snd p)))
                 else Raise ValueError)
              (fun _ r => regular2 w 2 r) (combine u v) ([], []) [])
    as (s & Hs & Hls & Hrs).
  - rewrite length_combine, <- Hl, Nat.min_id. intros i Hi.
    rewrite combine_nth by assumption. simpl fst. simpl snd.
    assert (Hi' : (i < h)%nat) by (destruct Hu; lia).
    pose proof (regular2_nth h w u i Hu Hi') as Lu.
    pose proof (regular2_nth h w v i Hv Hi') as Lv.
    rewrite Lu, Lv, Nat.eqb_refl. eexists. split; [reflexivity|].
    split.
    + rewrite length_map, length_combine, Lu, Lv. apply Nat.min_id.
    + apply Forall_map. apply Forall_forall. intros; reflexivity.
  - rewrite length_combine, <- Hl, Nat.min_id in *.
    exists s. split; [assumption|].
    apply regular3_intro; [destruct Hu; congruence|].
    intros i Hi. apply Hrs. destruct Hu; lia.
Qed.

Lemma length_blur_weights_unit (L : Libm) : length (blur_weights L 1) = 7%nat.
Proof. rewrite length_blur_weights. reflexivity. Qed.

(** From resolution 7 on (the length of the smoothing kernel) the velocity
    field is an N x N x 2 array. *)
Lemma velocity_field_shape (L : Libm) (n : Z) (t strength : Q) :
  (7 <= n)%Z ->
  exists vel, velocity_field L n t strength = Ok vel /\
              regular3 (Z.to_nat n) (Z.to_nat n) 2 vel.
Proof.
  intros Hn. unfold velocity_field.
  destruct (build_grid_entries n) as (X & Y & Hg & RX & RY & _); [lia|].
  rewrite Hg. simpl bind.
  set (N := Z.to_nat n) in *. assert (HN : (7 <= N)%nat) by lia.
  unfold stream_function.
  destruct (bzip2_entries (stream_function_at L t) N N X Y RX RY)
    as (psi & Hpsi & Rpsi & _).
  rewrite Hpsi. simpl bind.
  destruct (gradient_axis0_shape N N psi Rpsi) as (gy & Hgy & Rgy); try lia.
  rewrite Hgy. simpl bind.
  destruct (gradient_axis1_shape N N psi Rpsi) as (gx & Hgx & Rgx); try lia.
  rewrite Hgx. simpl bind.
  destruct (stack_last_shape N N
              (map2d (fun d => d * strength * inject_Z n) gy)
              (map2d (fun d => - d * strength * inject_Z n) gx))
    as (s & Hs & Rs); try (apply regular2_map2d; assumption).
  rewrite Hs. simpl bind.
  unfold gaussian_blur. change (Qle_bool 1 0) with false. cbv iota.
  destruct (blur_passes_entries (blur_weights L 1) N N 2 s Rs)
    as (b0 & out & Hb0 & Hout & _ & Ro & _);
    try (rewrite length_blur_weights_unit; lia); [lia|].
  rewrite Hb0. simpl bind. rewrite Hout.
  exists out. split; [reflexivity|assumption].
Qed.

(** ** create_initial_dye *)

Lemma length_set_last {A : Type} (l : list A) (v : A) :
  length (set_last l v) = length l.
Proof.
  induction l as [|a [|b l] IH]; simpl in *; try reflexivity.
  rewrite IH. reflexivity.
Qed.

Lemma linspace_length (start stop : Q) (n : Z) (endpoint : bool) :
  (0 <= n)%Z ->
  exists ax, linspace start stop n endpoint = Ok ax /\
             length ax = Z.to_nat n.
Proof.
  intros Hn. unfold linspace. destruct (Z.ltb_spec n 0); [lia|].
  eexists. split; [reflexivity|].
  assert (Hks : forall (g : Q -> Q),
             length (map g (map inject_Z (arange 0 n))) = Z.to_nat n).
  { intros g. rewrite !length_map, length_arange. f_equal. lia. }
  destruct (endpoint && (1 <? n)%Z);
    destruct (0 <? (if endpoint then n - 1 else n))%Z;
    rewrite ?length_set_last; apply Hks.
Qed.

Lemma clip_range (x lo hi : Q) : lo <= hi -> lo <= clip x lo hi <= hi.
Proof.
  intros H. destruct (clip_cases x lo hi H) as [[? ->]|[[? ->]|[? ->]]]; lra.
Qed.

Lemma clip_id (x lo hi : Q) : lo <= x <= hi -> clip x lo hi = x.
Proof.
  intros H. unfold clip.
  destruct (Qmax_cases x lo) as [[H1 ->]|[H1 ->]].
  - destruct (Qmin_cases lo hi) as [[H2 E]|[H2 E]]; lra.
  - destruct (Qmin_cases x hi) as [[H2 ->]|[H2 ->]]; [reflexivity|lra].
Qed.

Lemma all3_map3d {A B : Type} (g : A -> B) (P : B -> Prop)
    (f : list (list (list A))) :
  (forall a, P (g a)) -> all3 P (map3d g f).
Proof.
  intros H. unfold all3, map3d.
  apply Forall_map, Forall_forall. intros row _.
  apply Forall_map, Forall_forall. intros cl _.
  apply Forall_map, Forall_forall. intros a _. apply H.
Qed.

Lemma regular3_repeat {A : Type} (v : list A) (n m : nat) :
  regular3 n m (length v) (repeat (repeat v m) n).
Proof.
  split; [apply repeat_length|]. apply Forall_forall. intros r Hr.
  apply repeat_spec in Hr. subst r.
  split; [apply repeat_length|]. apply Forall_forall. intros c Hc.
  apply repeat_spec in Hc. subst c. reflexivity.
Qed.

Lemma regular3_normal (L : Libm) (loc scale : Q) (n m c : nat) :
  regular3 n m c (normal L loc scale n m c).
Proof.
  unfold normal. split; [rewrite length_map, length_seq; reflexivity|].
  apply Forall_map, Forall_forall. intros i _.
  split; [rewrite length_map, length_seq; reflexivity|].
  apply Forall_map, Forall_forall. intros j _.
  rewrite length_map, length_seq. reflexivity.
Qed.

Lemma regular2_meshgrid_xy {A : Type} (a : list A) :
  regular2 (length a) (length a) (fst (meshgrid_xy a a)) /\
  regular2 (length a) (length a) (snd (meshgrid_xy a a)).
Proof.
  unfold meshgrid_xy. simpl. split.
  - split; [apply length_map|]. apply Forall_map, Forall_forall.
    intros; reflexivity.
  - split; [apply length_map|]. apply Forall_map, Forall_forall.
    intros; apply length_map.
Qed.

(** The initial dye is an N x N x 3 array with every value in [0,255];
    a negative resolution is rejected by [np.full]. *)
Lemma create_initial_dye_range (L : Libm) (n : Z) :
  (0 <= n)%Z ->
  exists dye, create_initial_dye L n = Ok dye /\
    regular3 (Z.to_nat n) (Z.to_nat n) 3 dye /\
    all3 (fun v => 0 <= v <= 255) dye.
Proof.
  intros Hn. unfold create_initial_dye.
  destruct (Z.ltb_spec n 0); [lia|].
  set (N := Z.to_nat n).
  destruct (bzip3_entries Qplus N N 3 (repeat (repeat base_color N) N)
              (normal L 0 20 N N 3))
    as (d1 & Hd1 & [R1 _]);
    [apply (regular3_repeat base_color)|apply regular3_normal|].
  rewrite Hd1. simpl bind.
  destruct (linspace_length (-1) 1 n true Hn) as (ax & Hax & Lax).
  rewrite Hax. simpl bind. fold N in Lax.
  pose proof (regular2_meshgrid_xy ax) as [Rgx Rgy].
  simpl in Rgx, Rgy. rewrite Lax in Rgx, Rgy.
  destruct (bzip2d_nth (lift2 (hypot L)) (fun _ _ _ => True) N N _ _ 0 0 0
              Rgx Rgy)
    as (vg & Hvg & Rvg & _).
  { intros. eexists. split; [reflexivity|exact I]. }
  unfold bzip2, bzip1. rewrite Hvg. simpl bind.
  destruct (bzip2d_nth (fun (c : list Q) (v : Q) => Ok (vscale v c))
              (fun _ _ r => length r = 3%nat) N N d1
              (map2d (fun r => clip (1 - 0.8 * r) 0.2 1) vg) [] 0 [])
    as (d2 & Hd2 & Rd2 & Ed2).
  { destruct R1 as [Hl Hr]. split; [assumption|].
    eapply Forall_impl; [|exact Hr]. intros r [Hr1 _]. assumption. }
  { apply regular2_map2d. assumption. }
  { intros i j Hi Hj. eexists. split; [reflexivity|].
    rewrite length_vscale. apply (regular3_cell N N 3); assumption. }
  rewrite Hd2. simpl bind. eexists. split; [reflexivity|]. split.
  - apply regular3_map3d. apply regular3_intro; [destruct Rd2; assumption|].
    intros i Hi. apply regular2_intro.
    + apply (regular2_nth N N); assumption.
    + intros j Hj. apply Ed2; assumption.
  - apply all3_map3d. intros a. apply clip_range. lra.
Qed.

Lemma create_initial_dye_negative (L : Libm) (n : Z) :
  (n < 0)%Z -> create_initial_dye L n = Raise ValueError.
Proof.
  intros Hn. unfold create_initial_dye.
  destruct (Z.ltb_spec n 0); [reflexivity|lia].
Qed.

(** ** One step of the loop *)

Lemma lerp1_bounds (g : Z -> Q) (n : Z) (x lo hi : Q) :
  (1 <= n)%Z -> 0 <= x <= inject_Z (n - 1) ->
  (forall i, (0 <= i < n)%Z -> lo <= g i <= hi) ->
  lo <= lerp1 g n x <= hi.
Proof.
  intros Hn [Hx0 Hx1] Hg. unfold lerp1.
  assert (F0 : (0 <= Qfloor x)%Z).
  { change 0%Z with (Qfloor 0). apply Qfloor_resp_le. assumption. }
  assert (F1 : (Qfloor x <= n - 1)%Z).
  { rewrite <- (Qfloor_Z (n - 1)). apply Qfloor_resp_le. assumption. }
  replace (clipZ (Qfloor x) 0 (n - 1)) with (Qfloor x)
    by (unfold clipZ; lia).
  pose proof (Qfloor_le x) as Hf0. pose proof (Qlt_floor x) as Hf1.
  rewrite inject_Z_plus in Hf1. change (inject_Z 1) with 1 in Hf1.
  pose proof (Hg (Qfloor x)) as Ha.
  pose proof (Hg (clipZ (Qfloor x + 1) 0 (n - 1))) as Hb.
  assert (Hc := clipZ_range (Qfloor x + 1) n Hn).
  specialize (Ha ltac:(lia)). specialize (Hb ltac:(lia)).
  set (a := g (Qfloor x)) in *.
  set (b := g (clipZ (Qfloor x + 1) 0 (n - 1))) in *.
  set (f := x - inject_Z (Qfloor x)).
  assert (Hf : 0 <= f <= 1) by (unfold f; lra).
  clearbody a b f. split; nra.
Qed.

Lemma bilerp_bounds (h w c : nat) (fld : field) (k : nat) (x y lo hi : Q) :
  regular3 h w c fld -> all3 (fun v => lo <= v <= hi) fld ->
  (0 < h)%nat -> (0 < w)%nat -> (k < c)%nat ->
  0 <= x <= inject_Z (Z.of_nat w - 1) ->
  0 <= y <= inject_Z (Z.of_nat h - 1) ->
  lo <= bilerp fld k x y <= hi.
Proof.
  intros Hf Ha Hh Hw Hk Hx Hy.
  pose proof (regular3_ncols _ _ _ _ Hf Hh) as Hnc.
  assert (Hlen : length fld = h) by (destruct Hf; assumption).
  unfold bilerp. rewrite Hnc, Hlen.
  apply lerp1_bounds; [lia|assumption|]. intros yi Hyi.
  apply lerp1_bounds; [lia|assumption|]. intros xi Hxi.
  apply (all3_get3 (fun v => lo <= v <= hi) h w c); (assumption || lia).
Qed.

(** One pass of the loop body keeps the buffer's shape and range. *)
Lemma transport_dye_ok (n : nat) (base_dye dye vel : field) (dt : Q) :
  dye_ok n base_dye -> dye_ok n dye -> regular3 n n 2 vel ->
  exists out, transport base_dye dye vel dt = Ok out /\ dye_ok n out.
Proof.
  intros [Rb Ab] [Rd Ad] Rv.
  destruct (transport_entries n n 3 base_dye dye vel dt Rb Rd Rv)
    as (out & Ho & Ro & Eo).
  exists out. split; [assumption|]. split; [assumption|].
  apply (all3_intro _ 0 n n 3); [assumption|].
  intros i j k Hi Hj Hk. fold (get3 out i j k).
  rewrite (Eo i j k Hi Hj Hk).
  assert (Hb := all3_get3 (fun v => 0 <= v <= 255) n n 3 base_dye i j k
                  Rb Ab Hi Hj Hk). simpl in Hb.
  assert (0 <= inject_Z (Z.of_nat n - 1)) by (apply (inject_Z_le 0); lia).
  match goal with
  | |- 0 <= 0.995 * ?b + _ <= 255 =>
      assert (Hl : 0 <= b <= 255)
  end.
  { apply (bilerp_bounds n n 3); try assumption; try lia;
      apply clip_range; assumption. }
  lra.
Qed.

(** ** Resolutions below the kernel length *)

Lemma convolve_same_short (a v : vec) :
  (0 < length a)%nat -> (length a < length v)%nat ->
  convolve_same a v = Ok (conv_swapped v a).
Proof.
  intros Ha Hv. unfold convolve_same.
  destruct (Nat.eqb_spec (length a) 0); [lia|].
  destruct (Nat.eqb_spec (length v) 0); [lia|]. simpl orb. cbv iota.
  destruct (Nat.ltb_spec (length a) (length v)); [|lia]. reflexivity.
Qed.

Lemma slicewise_convolve_short (v : vec) (h : nat) :
  (0 < h)%nat -> (h < length v)%nat ->
  slicewise (fun m => convolve_same m v) (conv_swapped v) h (length v).
Proof.
  intros Hh Hv m Hm. split.
  - apply convolve_same_short; lia.
  - unfold conv_swapped. rewrite length_map, length_seq. reflexivity.
Qed.

(** On a field smaller than the kernel both passes return arrays of the
    kernel's length along the axis they convolve. *)
Lemma blur_passes_small (v : vec) (h w c : nat) (arr : field) :
  regular3 h w c arr -> (0 < c)%nat ->
  (0 < h)%nat -> (h < length v)%nat -> (0 < w)%nat -> (w < length v)%nat ->
  exists b0 out,
    apply_along_axis0 (fun m => convolve_same m v) arr = Ok b0 /\
    apply_along_axis1 (fun m => convolve_same m v) b0 = Ok out /\
    regular3 (length v) (length v) c out.
Proof.
  intros Ha Hc Hh Hhv Hw Hwv.
  destruct (apply_along_axis0_entries (fun m => convolve_same m v)
              (conv_swapped v) h w c (length v) arr Ha)
    as (b0 & Hb0 & Rb0 & _); try lia.
  { apply slicewise_convolve_short; assumption. }
  destruct (apply_along_axis1_entries (fun m => convolve_same m v)
              (conv_swapped v) (length v) w c (length v) b0 Rb0)
    as (out & Ho & Ro & _); try lia.
  { apply slicewise_convolve_short; assumption. }
  exists b0, out. auto.
Qed.

Lemma velocity_field_small (L : Libm) (n : Z) (t strength : Q) :
  (2 <= n <= 6)%Z ->
  exists vel, velocity_field L n t strength = Ok vel /\ regular3 7 7 2 vel.
Proof.
  intros Hn. unfold velocity_field.
  destruct (build_grid_entries n) as (X & Y & Hg & RX & RY & _); [lia|].
  rewrite Hg. simpl bind.
  set (N := Z.to_nat n) in *. assert (HN : (2 <= N <= 6)%nat) by lia.
  unfold stream_function.
  destruct (bzip2_entries (stream_function_at L t) N N X Y RX RY)
    as (psi & Hpsi & Rpsi & _).
  rewrite Hpsi. simpl bind.
  destruct (gradient_axis0_shape N N psi Rpsi) as (gy & Hgy & Rgy); try lia.
  rewrite Hgy. simpl bind.
  destruct (gradient_axis1_shape N N psi Rpsi) as (gx & Hgx & Rgx); try lia.
  rewrite Hgx. simpl bind.
  destruct (stack_last_shape N N
              (map2d (fun d => d * strength * inject_Z n) gy)
              (map2d (fun d => - d * strength * inject_Z n) gx))
    as (s & Hs & Rs); try (apply regular2_map2d; assumption).
  rewrite Hs. simpl bind.
  unfold gaussian_blur. change (Qle_bool 1 0) with false. cbv iota.
  destruct (blur_passes_small (blur_weights L 1) N N 2 s Rs)
    as (b0 & out & Hb0 & Hout & Ro);
    try (rewrite length_blur_weights_unit; lia); try lia.
  rewrite Hb0. simpl bind. rewrite Hout.
  rewrite length_blur_weights_unit in Ro.
  exists out. split; [reflexivity|assumption].
Qed.

Lemma velocity_field_tiny (L : Libm) (n : Z) (t strength : Q) :
  (n < 2)%Z -> velocity_field L n t strength = Raise ValueError.
Proof.
  intros Hn. unfold velocity_field.
  destruct (Z.lt_ge_cases n 0) as [Hneg|Hpos].
  { rewrite build_grid_negative by assumption. reflexivity. }
  destruct (build_grid_entries n) as (X & Y & Hg & RX & RY & _); [lia|].
  rewrite Hg. simpl bind. unfold stream_function.
  destruct (bzip2_entries (stream_function_at L t) _ _ X Y RX RY)
    as (psi & Hpsi & Rpsi & _).
  rewrite Hpsi. simpl bind.
  rewrite gradient_axis0_short; [reflexivity|]. destruct Rpsi. lia.
Qed.

(** Shapes that do not broadcast: the subtraction in [advect] raises. *)
Lemma advect_mismatch (h w c h' w' : nat) (fld vel : field) (dt : Q) :
  regular3 h w c fld -> regular3 h' w' 2 vel ->
  h <> h' -> h <> 1%nat -> h' <> 1%nat ->
  advect fld vel dt = Raise ValueError.
Proof.
  intros Hf Hv Hne H1 H1'. unfold advect.
  destruct (channel_entries h' w' 2 vel 0 Hv) as (v0 & Hv0 & Rv0 & _); [lia|].
  change (Z.of_nat 0) with 0%Z in Hv0.
  unfold meshgrid_ij. rewrite Hv0. simpl bind.
  unfold bzip2 at 1. rewrite bzip_mismatch; [reflexivity| | |].
  - rewrite length_map. unfold map2d. rewrite !length_map, length_arange.
    destruct Hf as [-> _], Rv0 as [-> _]. lia.
  - rewrite !length_map, length_arange. destruct Hf as [-> _]. lia.
  - unfold map2d. rewrite length_map. destruct Rv0 as [-> _]. assumption.
Qed.

Lemma sim_step_small (L : Libm) (cfg : SimulationConfig)
    (base_dye dye : field) (step : Z) :
  (resolution cfg < 7)%Z ->
  regular3 (Z.to_nat (resolution cfg)) (Z.to_nat (resolution cfg)) 3 dye ->
  sim_step L cfg base_dye dye step = Raise ValueError.
Proof.
  intros Hn Hd. unfold sim_step.
  destruct (Z.lt_ge_cases (resolution cfg) 2) as [Ht|Hs].
  { rewrite velocity_field_tiny by assumption. reflexivity. }
  destruct (velocity_field_small L (resolution cfg)
              (inject_Z step / inject_Z (steps cfg) * 6) (strength cfg))
    as (vel & Hv & Rv); [lia|].
  rewrite Hv. simpl bind. unfold transport.
  rewrite (advect_mismatch _ _ _ _ _ dye vel (dt cfg) Hd Rv) by lia.
  reflexivity.
Qed.

(** ** The simulation loop *)

Lemma to_uint8_range (v : Q) : (0 <= to_uint8 v <= 255)%Z.
Proof. unfold to_uint8. pose proof (Z.mod_pos_bound (Qtrunc v) 256). lia. Qed.

Lemma to_frame_ok (n : nat) (dye : field) :
  regular3 n n 3 dye -> frame_ok n (to_frame dye).
Proof.
  intros Hd. unfold to_frame. split.
  - apply regular3_map3d. assumption.
  - apply all3_map3d. intros a. apply to_uint8_range.
Qed.

(** Inside [0,255] the clamp and the 8-bit wrap are both the identity: the
    frame holds the integer part of each dye value. *)
Lemma to_frame_exact (n : nat) (dye : field) :
  dye_ok n dye ->
  map3d (fun v => clip v 0 255) dye = dye /\
  to_frame dye = map3d Qfloor dye.
Proof.
  intros [Rd Ad].
  assert (H : forall (g g' : Q -> Z) (f : field),
             (forall v, 0 <= v <= 255 -> g v = g' v) ->
             all3 (fun v => 0 <= v <= 255) f -> map3d g f = map3d g' f).
  { intros g g' f Hg Hf. unfold map3d, all3 in *.
    apply map_ext_in. intros row Hrow. rewrite Forall_forall in Hf.
    specialize (Hf _ Hrow). apply map_ext_in. intros cl Hcl.
    rewrite Forall_forall in Hf. specialize (Hf _ Hcl).
    apply map_ext_in. intros v Hv. rewrite Forall_forall in Hf. auto. }
  split.
  - unfold map3d, all3 in *. rewrite <- (map_id dye) at 2.
    apply map_ext_in. intros row Hrow. rewrite Forall_forall in Ad.
    specialize (Ad _ Hrow). rewrite <- (map_id row) at 2.
    apply map_ext_in. intros cl Hcl. rewrite Forall_forall in Ad.
    specialize (Ad _ Hcl). rewrite <- (map_id cl) at 2.
    apply map_ext_in. intros v Hv. rewrite Forall_forall in Ad.
    apply clip_id. auto.
  - unfold to_frame. apply H; [|assumption]. intros v Hv.
    rewrite clip_id by assumption. unfold to_uint8.
    rewrite Qtrunc_nonneg by (destruct Hv; assumption).
    apply Z.mod_small.
    assert (0 <= Qfloor v)%Z
      by (change 0%Z with (Qfloor 0); apply Qfloor_resp_le; apply Hv).
    assert (Qfloor v <= 255)%Z
      by (change 255%Z with (Qfloor 255); apply Qfloor_resp_le; apply Hv).
    lia.
Qed.

(** The loop invariant, for a fixed configuration whose resolution is at
    least the kernel length and a fixed base dye. *)
Section LoopInvariant.

Variable L : Libm.
Variable cfg : SimulationConfig.
Variable base_dye : field.

Hypothesis resolution_large : (7 <= resolution cfg)%Z.
Hypothesis base_ok : dye_ok (Z.to_nat (resolution cfg)) base_dye.

Lemma sim_step_dye_ok (dye : field) (step : Z) :
  dye_ok (Z.to_nat (resolution cfg)) dye ->
  exists out, sim_step L cfg base_dye dye step = Ok out /\
              dye_ok (Z.to_nat (resolution cfg)) out.
Proof.
  intros Hd. unfold sim_step.
  destruct (velocity_field_shape L (resolution cfg)
              (inject_Z step / inject_Z (steps cfg) * 6) (strength cfg)
              resolution_large)
    as (vel & Hv & Rv).
  rewrite Hv. simpl bind. apply transport_dye_ok; assumption.
Qed.

(** Running the loop over steps [k .. k + m - 1] from the buffer reached
    after [k] steps appends one frame per step, each taken from the
    buffer reached after that step. *)
Lemma sim_loop_trace (m : nat) :
  forall (k : nat) (dye : field) (frames : list frame),
    dye_after L cfg base_dye k = Ok dye ->
    dye_ok (Z.to_nat (resolution cfg)) dye ->
    exists dye' ds,
      sim_loop L cfg base_dye (map Z.of_nat (seq k m)) dye frames
      = Ok (dye', frames ++ map to_frame ds) /\
      length ds = m /\
      forall i, (i < m)%nat ->
        dye_after L cfg base_dye (k + S i) = Ok (nth i ds []) /\
        dye_ok (Z.to_nat (resolution cfg)) (nth i ds []).
Proof.
  induction m as [|m IH]; intros k dye frames Hk Hd.
  - exists dye, []. simpl. rewrite app_nil_r.
    repeat split; try reflexivity; intros; lia.
  - cbn [seq map sim_loop].
    destruct (sim_step_dye_ok dye (Z.of_nat k) Hd) as (d1 & H1 & Ok1).
    rewrite H1. simpl bind.
    assert (Hk1 : dye_after L cfg base_dye (S k) = Ok d1).
    { simpl. rewrite Hk. simpl. assumption. }
    destruct (IH (S k) d1 (frames ++ [to_frame d1]) Hk1 Ok1)
      as (dye' & ds & Hloop & Hlen & Hds).
    exists dye', (d1 :: ds). rewrite Hloop. split.
    + rewrite <- app_assoc. reflexivity.
    + split; [simpl; lia|]. intros [|i] Hi.
      * rewrite Nat.add_1_r. simpl nth. auto.
      * replace (k + S (S i))%nat with (S k + S i)%nat by lia.
        simpl nth. apply Hds. lia.
Qed.

End LoopInvariant.

Lemma arange_from_zero (n : Z) :
  arange 0 n = map Z.of_nat (seq 0 (Z.to_nat n)).
Proof. unfold arange. rewrite Z.sub_0_r. reflexivity. Qed.

(** C1 (as amended): for every configuration with steps S > 0, resolution
    N >= 7 (the length of the smoothing kernel) and a non-zero [fps],
    [run_simulation] returns exactly S frames; frame [i] is taken from the
    dye buffer after step [i] (generation order); each frame is an
    N x N x 3 array of integers in [0,255]. *)
Theorem run_simulation_frames (L : Libm) (cfg : SimulationConfig) :
  (0 < steps cfg)%Z -> (7 <= resolution cfg)%Z -> fps cfg <> 0%Z ->
  exists base_dye frames,
    create_initial_dye L (resolution cfg) = Ok base_dye /\
    run_simulation L cfg = Ok frames /\
    length frames = Z.to_nat (steps cfg) /\
    (forall i, (i < Z.to_nat (steps cfg))%nat ->
       exists dye, dye_after L cfg base_dye (S i) = Ok dye /\
                   nth i frames [] = to_frame dye) /\
    Forall (frame_ok (Z.to_nat (resolution cfg))) frames.
Proof.
  intros Hs Hn Hfps. unfold run_simulation.
  destruct (create_initial_dye_range L (resolution cfg)) as (base & Hb & Rb & Ab);
    [lia|].
  exists base. rewrite Hb. simpl bind.
  unfold pause_time. destruct (Z.eqb_spec (fps cfg) 0); [contradiction|].
  simpl bind. rewrite arange_from_zero.
  destruct (sim_loop_trace L cfg base Hn (conj Rb Ab)
              (Z.to_nat (steps cfg)) 0 base [] eq_refl (conj Rb Ab))
    as (dye' & ds & Hloop & Hlen & Hds).
  rewrite Hloop. simpl bind. simpl app.
  exists (map to_frame ds). split; [reflexivity|]. split; [reflexivity|].
  split; [rewrite length_map; assumption|]. split.
  - intros i Hi. exists (nth i ds []). split.
    + apply (Hds i). assumption.
    + apply nth_map_in. lia.
  - apply Forall_map. apply Forall_forall. intros d Hd.
    destruct (In_nth _ _ [] Hd) as (i & Hi & <-).
    apply to_frame_ok. apply (Hds i). lia.
Qed.

Lemma run_simulation_frames_witness :
  exists base_dye frames,
    create_initial_dye sample_libm (resolution (config 7 2)) = Ok base_dye /\
    run_simulation sample_libm (config 7 2) = Ok frames /\
    length frames = Z.to_nat (steps (config 7 2)) /\
    (forall i, (i < Z.to_nat (steps (config 7 2)))%nat ->
       exists dye,
         dye_after sample_libm (config 7 2) base_dye (S i) = Ok dye /\
         nth i frames [] = to_frame dye) /\
    Forall (frame_ok (Z.to_nat (resolution (config 7 2)))) frames.
Proof.
  apply (run_simulation_frames sample_libm (config 7 2)).
  - reflexivity.
  - simpl. lia.
  - simpl. lia.
Defined.

Lemma run_simulation_small (L : Libm) (cfg : SimulationConfig) :
  (0 <= resolution cfg < 7)%Z -> fps cfg <> 0%Z -> (0 < steps cfg)%Z ->
  run_simulation L cfg = Raise ValueError.
Proof.
  intros Hn Hfps Hs. unfold run_simulation.
  destruct (create_initial_dye_range L (resolution cfg)) as (base & Hb & Rb & _);
    [lia|].
  rewrite Hb. simpl bind.
  unfold pause_time. destruct (Z.eqb_spec (fps cfg) 0); [contradiction|].
  simpl bind. rewrite arange_from_zero.
  destruct (Z.to_nat (steps cfg)) as [|m] eqn:E; [lia|].
  cbn [seq map sim_loop].
  rewrite sim_step_small by (assumption || lia). reflexivity.
Qed.

(** C1 (as stated, refuted): at resolution 1 [np.gradient] has too few
    samples, and at resolution 4 the blurred velocity field is 7 x 7 and
    does not broadcast against the 4 x 4 pixel grid: both runs raise and
    return no frame. *)
Lemma run_simulation_small_resolution :
  run_simulation sample_libm (config 1 3) = Raise ValueError /\
  run_simulation sample_libm (config 4 3) = Raise ValueError.
Proof. split; apply run_simulation_small; simpl; lia. Qed.

(** C2 (as amended): a configuration whose resolution or steps is
    non-positive never yields a frame, but the run does not always fail:
    a negative resolution raises [ValueError] in [create_initial_dye],
    before the loop; otherwise [fps = 0] raises [ZeroDivisionError], before
    the loop; otherwise non-positive steps return the empty frame list
    without raising; otherwise (resolution 0, steps > 0) the first loop
    iteration raises [ValueError] before a frame is appended.  [dt] and
    [strength] are not examined. *)
Theorem run_simulation_invalid_sizes (L : Libm) (cfg : SimulationConfig) :
  (resolution cfg <= 0)%Z \/ (steps cfg <= 0)%Z ->
  run_simulation L cfg =
  if (resolution cfg <? 0)%Z then Raise ValueError
  else if (fps cfg =? 0)%Z then Raise ZeroDivisionError
  else if (steps cfg <=? 0)%Z then Ok []
  else Raise ValueError.
Proof.
  intros H.
  destruct (Z.ltb_spec (resolution cfg) 0) as [Hneg|Hpos].
  { unfold run_simulation.
    rewrite create_initial_dye_negative by assumption. reflexivity. }
  destruct (Z.eqb_spec (fps cfg) 0) as [Hf|Hf].
  { unfold run_simulation.
    destruct (create_initial_dye_range L (resolution cfg) Hpos)
      as (base & -> & _).
    simpl bind. unfold pause_time. rewrite Hf. reflexivity. }
  destruct (Z.leb_spec (steps cfg) 0) as [Hs|Hs].
  - unfold run_simulation.
    destruct (create_initial_dye_range L (resolution cfg) Hpos)
      as (base & -> & _).
    simpl bind. unfold pause_time.
    destruct (Z.eqb_spec (fps cfg) 0); [contradiction|]. simpl bind.
    rewrite arange_from_zero.
    replace (Z.to_nat (steps cfg)) with 0%nat by lia. reflexivity.
  - apply run_simulation_small; (assumption || lia).
Qed.

Lemma run_simulation_invalid_sizes_witness :
  run_simulation sample_libm (config 0 5) =
  if (resolution (config 0 5) <? 0)%Z then Raise ValueError
  else if (fps (config 0 5) =? 0)%Z then Raise ZeroDivisionError
  else if (steps (config 0 5) <=? 0)%Z then Ok []
  else Raise ValueError.
Proof.
  apply (run_simulation_invalid_sizes sample_libm (config 0 5)).
  left. simpl. lia.
Defined.

(** C2 (as stated, refuted): with [steps = 0] at resolution 8, and with
    [steps = -3] at resolution 0, the run raises nothing and returns the
    empty list of frames. *)
Lemma run_simulation_no_validation :
  run_simulation sample_libm (config 8 0) = Ok [] /\
  run_simulation sample_libm (config 0 (-3)) = Ok [].
Proof. split; vm_compute; reflexivity. Qed.





(** ** The separable blur against the direct 2-D convolution *)

Lemma sumQ_add {A : Type} (f g : A -> Q) (l : list A) :
  sumQ (map (fun a => f a + g a) l) == sumQ (map f l) + sumQ (map g l).
Proof.
  induction l as [|a l IH]; simpl; [ring|]. rewrite IH. ring.
Qed.

Lemma sumQ_swap {A B : Type} (f : A -> B -> Q) (l1 : list A) (l2 : list B) :
  sumQ (map (fun p => sumQ (map (fun q => f p q) l2)) l1) ==
  sumQ (map (fun q => sumQ (map (fun p => f p q) l1)) l2).
Proof.
  induction l1 as [|a l1 IH]; simpl.
  - symmetry. apply sumQ_zero. intros; reflexivity.
  - rewrite IH. rewrite <- sumQ_add. reflexivity.
Qed.

Lemma sumQ_map_scale {A : Type} (f : A -> Q) (c : Q) (l : list A) :
  sumQ (map f l) * c == sumQ (map (fun a => f a * c) l).
Proof.
  rewrite <- sumQ_scale, map_map. reflexivity.
Qed.

Lemma get3_outside (h w c : nat) (arr : field) (i j k : nat) :
  regular3 h w c arr -> (h <= i)%nat \/ (w <= j)%nat \/ (c <= k)%nat ->
  get3 arr i j k = 0.
Proof.
  intros Ha Hout. unfold get3.
  destruct (Nat.lt_ge_cases i h) as [Hi|Hi].
  2:{ rewrite (nth_overflow arr) by (destruct Ha; lia).
      destruct j, k; reflexivity. }
  destruct (Nat.lt_ge_cases j w) as [Hj|Hj].
  2:{ rewrite (nth_overflow (nth i arr []))
        by (rewrite (regular2_nth h w);
            [lia|destruct Ha as [Hl Hr]; split; [assumption|];
                 eapply Forall_impl; [|exact Hr]; intros r [? _]; assumption
                |assumption]).
      destruct k; reflexivity. }
  apply nth_overflow. rewrite (regular3_cell h w c) by assumption. lia.
Qed.

Lemma zero_padded_entry (h w c : nat) (arr : field) (a b p q k : nat) :
  regular3 h w c arr -> (0 < h)%nat ->
  zero_padded arr (Z.of_nat a - Z.of_nat p) (Z.of_nat b - Z.of_nat q) k
  = if Nat.leb p a
    then if Nat.leb q b then get3 arr (a - p) (b - q) k else 0
    else 0.
Proof.
  intros Ha Hh. unfold zero_padded.
  rewrite (regular3_ncols h w c arr Ha Hh).
  replace (length arr) with h by (destruct Ha; congruence).
  destruct (Nat.leb_spec p a) as [Hp|Hp].
  2:{ destruct (Z.leb_spec 0 (Z.of_nat a - Z.of_nat p)); [lia|]. reflexivity. }
  destruct (Z.leb_spec 0 (Z.of_nat a - Z.of_nat p)); [|lia]. simpl andb.
  replace (Z.to_nat (Z.of_nat a - Z.of_nat p)) with (a - p)%nat by lia.
  destruct (Nat.leb_spec q b) as [Hq|Hq].
  2:{ destruct (Z.leb_spec 0 (Z.of_nat b - Z.of_nat q)); [lia|].
      rewrite andb_false_r. reflexivity. }
  destruct (Z.leb_spec 0 (Z.of_nat b - Z.of_nat q)); [|lia].
  replace (Z.to_nat (Z.of_nat b - Z.of_nat q)) with (b - q)%nat by lia.
  destruct (Z.ltb_spec (Z.of_nat a - Z.of_nat p) (Z.of_nat h));
    destruct (Z.ltb_spec (Z.of_nat b - Z.of_nat q) (Z.of_nat w));
    simpl; try reflexivity;
    symmetry; apply (get3_outside h w c); (assumption || lia).
Qed.

Lemma regular3_conv2d_same (kernel : mat) (h w c : nat) (arr : field) :
  regular3 h w c arr -> (0 < h)%nat -> (0 < w)%nat ->
  regular3 h w c (conv2d_same kernel arr).
Proof.
  intros Ha Hh Hw. unfold conv2d_same.
  rewrite (regular3_ncols h w c arr Ha Hh).
  rewrite (regular3_nchan h w c arr Ha Hh Hw).
  replace (length arr) with h by (destruct Ha; congruence).
  split; [rewrite length_map, length_seq; reflexivity|].
  apply Forall_map, Forall_forall. intros i _.
  split; [rewrite length_map, length_seq; reflexivity|].
  apply Forall_map, Forall_forall. intros j _.
  rewrite length_map, length_seq. reflexivity.
Qed.

Lemma get3_conv2d_same (kernel : mat) (h w c : nat) (arr : field)
    (i j k : nat) :
  regular3 h w c arr -> (i < h)%nat -> (j < w)%nat -> (k < c)%nat ->
  get3 (conv2d_same kernel arr) i j k =
  sumQ (map (fun p =>
    sumQ (map (fun q =>
            get2 kernel p q
            * zero_padded arr
                (Z.of_nat i + Z.of_nat (Nat.div (length kernel - 1) 2)
                 - Z.of_nat p)
                (Z.of_nat j + Z.of_nat (Nat.div (ncols kernel - 1) 2)
                 - Z.of_nat q) k)
          (seq 0 (ncols kernel))))
    (seq 0 (length kernel))).
Proof.
  intros Ha Hi Hj Hk. unfold conv2d_same, get3.
  rewrite (regular3_ncols h w c arr Ha) by lia.
  rewrite (regular3_nchan h w c arr Ha) by lia.
  replace (length arr) with h by (destruct Ha; congruence).
  nth_of_seq_map.
  nth_of_seq_map.
  nth_of_seq_map.
  rewrite !seq_nth by assumption. reflexivity.
Qed.

Lemma length_outer (u v : vec) : length (outer u v) = length u.
Proof. apply length_map. Qed.

Lemma ncols_outer (u v : vec) :
  (0 < length u)%nat -> ncols (outer u v) = length v.
Proof.
  intros Hu. destruct u as [|a u]; simpl in *; [lia|]. apply length_map.
Qed.

Lemma get2_outer (u v : vec) (p q : nat) :
  (p < length u)%nat -> (q < length v)%nat ->
  get2 (outer u v) p q = nth p u 0 * nth q v 0.
Proof.
  intros Hp Hq. unfold get2, outer.
  rewrite nth_map_in with (da := 0) by assumption.
  apply (nth_map_in (fun b => nth p u 0 * b)). assumption.
Qed.

Lemma conv_at_slice0 (arr : field) (v : vec) (j k t : nat) :
  conv_at (slice0 arr j k) v t =
  sumQ (map (fun p => (if Nat.leb p t then get3 arr (t - p) j k else 0)
                      * nth p v 0)
            (seq 0 (length v))).
Proof.
  unfold conv_at. f_equal. apply map_ext. intros p.
  rewrite nth_slice0. reflexivity.
Qed.

Lemma conv_at_slice1 (b0 : field) (v : vec) (i k t : nat) :
  conv_at (slice1 (nth i b0 []) k) v t =
  sumQ (map (fun q => (if Nat.leb q t then get3 b0 i (t - q) k else 0)
                      * nth q v 0)
            (seq 0 (length v))).
Proof.
  unfold conv_at. f_equal. apply map_ext. intros q.
  rewrite nth_slice1. reflexivity.
Qed.

(** One output entry of the two passes, as a double sum over the kernel. *)
Lemma blur_entry_double_sum (v : vec) (h w c : nat) (arr b0 : field)
    (i j k : nat) :
  regular3 h w c arr -> regular3 h w c b0 ->
  (forall i' j', (i' < h)%nat -> (j' < w)%nat ->
     get3 b0 i' j' k =
     conv_at (slice0 arr j' k) v (i' + Nat.div (length v - 1) 2)) ->
  (i < h)%nat ->
  let r := Nat.div (length v - 1) 2 in
  conv_at (slice1 (nth i b0 []) k) v (j + r) ==
  sumQ (map (fun q =>
    sumQ (map (fun p =>
            nth p v 0 * nth q v 0
            * (if Nat.leb p (i + r)
               then if Nat.leb q (j + r)
                    then get3 arr (i + r - p) (j + r - q) k else 0
               else 0))
          (seq 0 (length v))))
    (seq 0 (length v))).
Proof.
  intros Ha Hb Eb0 Hi r. rewrite conv_at_slice1.
  apply sumQ_ext. intros q _.
  destruct (Nat.leb_spec q (j + r)) as [Hq|Hq].
  - destruct (Nat.lt_ge_cases (j + r - q) w) as [Hj'|Hj'].
    + rewrite (Eb0 i (j + r - q)%nat Hi Hj'). fold r.
      rewrite conv_at_slice0. rewrite sumQ_map_scale.
      apply sumQ_ext. intros p _.
      destruct (Nat.leb p (i + r)); ring.
    + rewrite (get3_outside h w c b0) by (assumption || lia).
      rewrite sumQ_zero; [ring|]. intros p _.
      destruct (Nat.leb p (i + r)); [|ring].
      rewrite (get3_outside h w c arr) by (assumption || lia). ring.
  - rewrite sumQ_zero; [ring|]. intros p _.
    destruct (Nat.leb p (i + r)); ring.
Qed.

(** C9: for sigma > 0 and a regular H x W x C field with at least one
    channel and both H and W at least the kernel length, the two-pass
    [gaussian_blur] succeeds and equals, entry by entry, the direct 2-D
    convolution of each channel with the outer product of the kernel with
    itself, same-size output and zero padding. *)
Theorem separable_blur_is_direct (L : Libm) (sigma : Q) (h w c : nat)
    (arr : field) :
  0 < sigma -> regular3 h w c arr -> (0 < c)%nat ->
  (length (blur_weights L sigma) <= h)%nat ->
  (length (blur_weights L sigma) <= w)%nat ->
  exists out,
    gaussian_blur L arr sigma = Ok out /\
    feq out (conv2d_same (outer (blur_weights L sigma) (blur_weights L sigma))
                         arr).
Proof.
  intros Hs Ha Hc Hh Hw.
  set (v := blur_weights L sigma) in *.
  assert (Hv : (0 < length v)%nat).
  { subst v. rewrite length_blur_weights.
    pose proof (blur_radius_pos sigma). lia. }
  unfold gaussian_blur.
  destruct (Qle_bool sigma 0) eqn:E; [apply Qle_bool_iff in E; lra|].
  fold v.
  destruct (blur_passes_entries v h w c arr Ha Hc Hv Hh Hw)
    as (b0 & out & Hb0 & Hout & [Rb0 Eb0] & [Ro Eo]).
  rewrite Hb0. simpl bind. exists out. split; [assumption|].
  apply (feq_intro h w c); [assumption| |].
  { apply regular3_conv2d_same; (assumption || lia). }
  intros i j k Hi Hj Hk. rewrite (Eo i j k Hi Hj Hk).
  rewrite (blur_entry_double_sum v h w c arr b0 i j k Ha Rb0); try assumption.
  2:{ intros i' j' Hi' Hj'. apply Eb0; assumption. }
  rewrite (get3_conv2d_same _ h w c arr i j k Ha Hi Hj Hk).
  rewrite length_outer, ncols_outer by assumption.
  rewrite sumQ_swap. apply sumQ_ext. intros p Hp. apply sumQ_ext. intros q Hq.
  apply in_seq in Hp. apply in_seq in Hq.
  rewrite get2_outer by lia.
  rewrite <- !Nat2Z.inj_add.
  rewrite (zero_padded_entry h w c) by (assumption || lia).
  reflexivity.
Qed.

Lemma separable_blur_is_direct_witness :
  exists out,
    gaussian_blur sample_libm
      (repeat (repeat [1; 2] 3 ++ repeat [5; -1] 4) 8) 1 = Ok out /\
    feq out
      (conv2d_same (outer (blur_weights sample_libm 1)
                          (blur_weights sample_libm 1))
                   (repeat (repeat [1; 2] 3 ++ repeat [5; -1] 4) 8)).
Proof.
  apply (separable_blur_is_direct sample_libm 1 8 7 2).
  - reflexivity.
  - repeat constructor.
  - lia.
  - vm_compute. lia.
  - vm_compute. lia.
Defined.

(** ** Zero strength: the velocity field at rest *)

Lemma stack_last_entries (h w : nat) (u v : mat) :
  regular2 h w u -> regular2 h w v ->
  exists s, stack_last u v = Ok s /\ regular3 h w 2 s /\
    forall i j, (i < h)%nat -> (j < w)%nat ->
      get3 s i j 0 = get2 u i j /\ get3 s i j 1 = get2 v i j.
Proof.
  intros Hu Hv. unfold stack_last.
  assert (Hl : length u = length v) by (destruct Hu, Hv; congruence).
  rewrite Hl, Nat.eqb_refl.
  destruct (mapM_nth
              (fun p : list Q * list Q =>
                 if Nat.eqb (length (fst p)) (length (snd p))
                 then Ok (map (fun q => [fst q; snd q])
                              (combine (fst p) (snd p)))
                 else Raise ValueError)
              (fun i r => regular2 w 2 r /\
                 forall j, (j < w)%nat ->
                   nth 0 (nth j r []) 0 = get2 u i j /\
                   nth 1 (nth j r []) 0 = get2 v i j)
              (combine u v) ([], []) [])
    as (s & Hs & Hls & Hrs).
  - rewrite length_combine, <- Hl, Nat.min_id. intros i Hi.
    rewrite combine_nth by assumption. simpl fst. simpl snd.
    assert (Hi' : (i < h)%nat) by (destruct Hu; lia).
    pose proof (regular2_nth h w u i Hu Hi') as Lu.
    pose proof (regular2_nth h w v i Hv Hi') as Lv.
    rewrite Lu, Lv, Nat.eqb_refl. eexists. split; [reflexivity|].
    split.
    + split.
      * rewrite length_map, length_combine, Lu, Lv. apply Nat.min_id.
      * apply Forall_map. apply Forall_forall. intros; reflexivity.
    + intros j Hj.
      rewrite nth_map_in with (da := (0, 0))
        by (rewrite length_combine, Lu, Lv, Nat.min_id; assumption).
      rewrite combine_nth by congruence. simpl. split; reflexivity.
  - rewrite length_combine, <- Hl, Nat.min_id in *.
    exists s. split; [assumption|].
    assert (Hh : length u = h) by (destruct Hu; assumption).
    split.
    + apply regular3_intro; [congruence|].
      intros i Hi. apply Hrs. lia.
    + intros i j Hi Hj. unfold get3. apply Hrs; lia.
Qed.

Lemma conv_at_zero (a v : vec) (t : nat) :
  (forall i, nth i a 0 == 0) -> conv_at a v t == 0.
Proof.
  intros Ha. unfold conv_at. apply sumQ_zero. intros j _.
  destruct (Nat.leb j t); [rewrite Ha|]; ring.
Qed.

(** With [strength = 0], from resolution 7 on, the velocity field is zero
    everywhere. *)
Lemma velocity_field_at_rest (L : Libm) (n : Z) (t strength : Q) :
  (7 <= n)%Z -> strength == 0 ->
  exists vel, velocity_field L n t strength = Ok vel /\
              still (Z.to_nat n) (Z.to_nat n) vel.
Proof.
  intros Hn Hz. unfold velocity_field.
  destruct (build_grid_entries n) as (X & Y & Hg & RX & RY & _); [lia|].
  rewrite Hg. simpl bind.
  set (N := Z.to_nat n) in *. assert (HN : (7 <= N)%nat) by lia.
  unfold stream_function.
  destruct (bzip2_entries (stream_function_at L t) N N X Y RX RY)
    as (psi & Hpsi & Rpsi & _).
  rewrite Hpsi. simpl bind.
  destruct (gradient_axis0_shape N N psi Rpsi) as (gy & Hgy & Rgy); try lia.
  rewrite Hgy. simpl bind.
  destruct (gradient_axis1_shape N N psi Rpsi) as (gx & Hgx & Rgx); try lia.
  rewrite Hgx. simpl bind.
  destruct (stack_last_entries N N
              (map2d (fun d => d * strength * inject_Z n) gy)
              (map2d (fun d => - d * strength * inject_Z n) gx))
    as (s & Hs & Rs & Es); try (apply regular2_map2d; assumption).
  rewrite Hs. simpl bind.
  assert (Zs : forall i j k, get3 s i j k == 0).
  { intros i j k.
    destruct (Nat.lt_ge_cases i N) as [Hi|Hi];
      [|rewrite (get3_outside N N 2 s); (reflexivity || assumption || lia)].
    destruct (Nat.lt_ge_cases j N) as [Hj|Hj];
      [|rewrite (get3_outside N N 2 s); (reflexivity || assumption || lia)].
    destruct (Es i j Hi Hj) as [E0 E1].
    destruct k as [|[|k]].
    - rewrite E0, (get2_map2d _ N N gy) by assumption. rewrite Hz. ring.
    - rewrite E1, (get2_map2d _ N N gx) by assumption. rewrite Hz. ring.
    - rewrite (get3_outside N N 2 s); (reflexivity || assumption || lia). }
  unfold gaussian_blur. change (Qle_bool 1 0) with false. cbv iota.
  destruct (blur_passes_entries (blur_weights L 1) N N 2 s Rs)
    as (b0 & out & Hb0 & Hout & [Rb0 Eb0] & [Ro Eo]);
    try (rewrite length_blur_weights_unit; lia); [lia|].
  rewrite Hb0. simpl bind. rewrite Hout.
  exists out. split; [reflexivity|]. split; [assumption|].
  assert (Zb : forall i j k, get3 b0 i j k == 0).
  { intros i j k.
    destruct (Nat.lt_ge_cases i N) as [Hi|Hi];
      [|rewrite (get3_outside N N 2 b0); (reflexivity || assumption || lia)].
    destruct (Nat.lt_ge_cases j N) as [Hj|Hj];
      [|rewrite (get3_outside N N 2 b0); (reflexivity || assumption || lia)].
    destruct (Nat.lt_ge_cases k 2) as [Hk|Hk];
      [|rewrite (get3_outside N N 2 b0); (reflexivity || assumption || lia)].
    rewrite (Eb0 i j k Hi Hj Hk). apply conv_at_zero.
    intros i'. rewrite nth_slice0. apply Zs. }
  apply (all3_intro _ 0 N N 2); [assumption|].
  intros i j k Hi Hj Hk. fold (get3 out i j k).
  rewrite (Eo i j k Hi Hj Hk). apply conv_at_zero.
  intros j'. rewrite nth_slice1. apply (Zb i j' k).
Qed.

(** In a run with [strength = 0] every loop step shrinks the residual
    [dye - base_dye] by the factor 0.995. *)
Lemma sim_step_at_rest (L : Libm) (cfg : SimulationConfig)
    (base_dye dye : field) (step : Z) :
  (7 <= resolution cfg)%Z -> strength cfg == 0 ->
  regular3 (Z.to_nat (resolution cfg)) (Z.to_nat (resolution cfg)) 3 base_dye ->
  regular3 (Z.to_nat (resolution cfg)) (Z.to_nat (resolution cfg)) 3 dye ->
  exists out, sim_step L cfg base_dye dye step = Ok out /\
    forall i j k, (i < Z.to_nat (resolution cfg))%nat ->
      (j < Z.to_nat (resolution cfg))%nat -> (k < 3)%nat ->
      get3 out i j k - get3 base_dye i j k ==
      0.995 * (get3 dye i j k - get3 base_dye i j k).
Proof.
  intros Hn Hz Hb Hd. unfold sim_step.
  destruct (velocity_field_at_rest L (resolution cfg)
              (inject_Z step / inject_Z (steps cfg) * 6) (strength cfg) Hn Hz)
    as (vel & Hv & Sv).
  rewrite Hv. simpl bind.
  destruct (transport_still _ _ 3 base_dye dye vel (dt cfg) Hb Hd Sv)
    as (out & Ho & _ & Eo).
  exists out. split; assumption.
Qed.

(** * Further properties of the numerical core *)

(** ** velocity_field and gaussian_blur: shapes *)

(** The shape of the velocity field for every resolution: a resolution
    below 2 raises [ValueError] (a negative one in [np.linspace], 0 and 1 in
    [np.gradient]); otherwise the field has two channels and
    [max(7, N)] rows and columns, because [np.convolve(mode="same")]
    returns the longer operand's length and the kernel for sigma = 1 has
    seven weights. *)
Theorem velocity_field_shape_by_resolution (L : Libm) (n : Z)
    (t strength : Q) :
  match velocity_field L n t strength with
  | Ok vel =>
      (2 <= n)%Z /\
      regular3 (Z.to_nat (Z.max 7 n)) (Z.to_nat (Z.max 7 n)) 2 vel
  | Raise e => (n < 2)%Z /\ e = ValueError
  end.
Proof.
  destruct (Z.lt_ge_cases n 2) as [Ht|Hge].
  { rewrite velocity_field_tiny by assumption. split; [assumption|reflexivity]. }
  destruct (Z.lt_ge_cases n 7) as [Hs|Hb].
  - destruct (velocity_field_small L n t strength) as (vel & -> & Rv); [lia|].
    split; [lia|]. replace (Z.max 7 n) with 7%Z by lia. exact Rv.
  - destruct (velocity_field_shape L n t strength Hb) as (vel & -> & Rv).
    split; [lia|]. replace (Z.max 7 n) with n by lia. exact Rv.
Qed.

(** With [strength = 0] and a resolution of at least 7 the velocity field
    is an N x N x 2 array of zeros, whatever the time and the stream
    function. *)
Theorem velocity_field_zero_strength (L : Libm) (n : Z) (t strength : Q) :
  (7 <= n)%Z -> strength == 0 ->
  exists vel, velocity_field L n t strength = Ok vel /\
    regular3 (Z.to_nat n) (Z.to_nat n) 2 vel /\
    all3 (fun v => v == 0) vel.
Proof.
  intros Hn Hz.
  destruct (velocity_field_at_rest L n t strength Hn Hz) as (vel & Hv & Rv & Zv).
  exists vel. auto.
Qed.

Lemma velocity_field_zero_strength_witness :
  exists vel, velocity_field sample_libm 8 (1 # 3) 0 = Ok vel /\
    regular3 (Z.to_nat 8) (Z.to_nat 8) 2 vel /\
    all3 (fun v => v == 0) vel.
Proof.
  apply (velocity_field_zero_strength sample_libm 8 (1 # 3) 0).
  - lia.
  - reflexivity.
Defined.

Lemma convolve_same_length (a v : vec) :
  (0 < length a)%nat -> (0 < length v)%nat ->
  exists r, convolve_same a v = Ok r /\
            length r = Nat.max (length a) (length v).
Proof.
  intros Ha Hv. destruct (Nat.lt_ge_cases (length a) (length v)) as [Hlt|Hge].
  - rewrite convolve_same_short by assumption. eexists. split; [reflexivity|].
    unfold conv_swapped. rewrite length_map, length_seq. lia.
  - rewrite convolve_same_long by assumption. eexists. split; [reflexivity|].
    unfold conv_centred. rewrite length_map, length_seq. lia.
Qed.

Lemma slicewise_convolve_any (v : vec) (h : nat) :
  (0 < h)%nat -> (0 < length v)%nat ->
  slicewise (fun m => convolve_same m v)
    (fun m => match convolve_same m v with Ok r => r | Raise _ => [] end)
    h (Nat.max h (length v)).
Proof.
  intros Hh Hv m Hm.
  destruct (convolve_same_length m v) as (r & Hr & Lr); [lia|assumption|].
  rewrite Hr. split; [reflexivity|]. rewrite Lr, Hm. reflexivity.
Qed.

(** The blur keeps the shape of a field only from the kernel length on:
    for sigma > 0 and a non-empty H x W x C field the result is
    [max(H, K) x max(W, K) x C], where [K = 2 * radius + 1] is the kernel
    length. *)
Theorem gaussian_blur_shape (L : Libm) (sigma : Q) (h w c : nat)
    (arr : field) :
  0 < sigma -> regular3 h w c arr ->
  (0 < h)%nat -> (0 < w)%nat -> (0 < c)%nat ->
  exists out, gaussian_blur L arr sigma = Ok out /\
    regular3 (Nat.max h (length (blur_weights L sigma)))
             (Nat.max w (length (blur_weights L sigma))) c out.
Proof.
  intros Hs Ha Hh Hw Hc. unfold gaussian_blur.
  destruct (Qle_bool sigma 0) eqn:E; [apply Qle_bool_iff in E; lra|].
  set (v := blur_weights L sigma).
  assert (Hv : (0 < length v)%nat).
  { subst v. rewrite length_blur_weights.
    pose proof (blur_radius_pos sigma). lia. }
  destruct (apply_along_axis0_entries (fun m => convolve_same m v) _
              h w c _ arr Ha Hh Hw Hc (slicewise_convolve_any v h Hh Hv))
    as (b0 & Hb0 & Rb0 & _).
  rewrite Hb0. simpl bind.
  destruct (apply_along_axis1_entries (fun m => convolve_same m v) _
              _ w c _ b0 Rb0 ltac:(lia) Hw Hc (slicewise_convolve_any v w Hw Hv))
    as (out & Ho & Ro & _).
  exists out. split; assumption.
Qed.

Lemma gaussian_blur_shape_witness :
  exists out,
    gaussian_blur sample_libm (repeat (repeat [1; 2] 9) 4) 1 = Ok out /\
    regular3 (Nat.max 4 (length (blur_weights sample_libm 1)))
             (Nat.max 9 (length (blur_weights sample_libm 1))) 2 out.
Proof.
  apply (gaussian_blur_shape sample_libm 1 4 9 2).
  - reflexivity.
  - repeat constructor.
  - lia.
  - lia.
  - lia.
Defined.

(** A non-positive sigma returns the field itself, whatever its shape; a
    positive sigma on a field with an empty axis raises [ValueError]
    ([np.apply_along_axis] refuses empty iteration dimensions and
    [np.convolve] refuses an empty operand). *)
Theorem gaussian_blur_degenerate (L : Libm) (sigma : Q) (h w c : nat)
    (arr : field) :
  regular3 h w c arr ->
  (sigma <= 0 -> gaussian_blur L arr sigma = Ok arr) /\
  (0 < sigma -> (h = 0 \/ w = 0 \/ c = 0)%nat ->
   gaussian_blur L arr sigma = Raise ValueError).
Proof.
  intros Ha. split.
  - intros Hs. unfold gaussian_blur.
    destruct (Qle_bool sigma 0) eqn:E; [reflexivity|].
    apply Qle_bool_iff in Hs. congruence.
  - intros Hs Hz. unfold gaussian_blur.
    destruct (Qle_bool sigma 0) eqn:E; [apply Qle_bool_iff in E; lra|].
    unfold apply_along_axis0.
    destruct (Nat.eq_dec h 0) as [Hh|Hh].
    { destruct Ha as [Hl _]. destruct arr; [reflexivity|simpl in Hl; lia]. }
    rewrite (regular3_ncols h w c arr Ha) by lia.
    destruct (Nat.eq_dec w 0) as [Hw|Hw]; [subst w; reflexivity|].
    rewrite (regular3_nchan h w c arr Ha) by lia.
    assert (c = 0%nat) by lia. subst c.
    destruct (Nat.eqb_spec w 0); [lia|]. reflexivity.
Qed.

Lemma gaussian_blur_degenerate_witness :
  gaussian_blur sample_libm [[[]; []]; [[]; []]] (-1)
  = Ok [[[]; []]; [[]; []]] /\
  gaussian_blur sample_libm [[[]; []]; [[]; []]] 1 = Raise ValueError.
Proof.
  destruct (gaussian_blur_degenerate sample_libm (-1) 2 2 0
              [[[]; []]; [[]; []]]) as [H1 _]; [repeat constructor|].
  destruct (gaussian_blur_degenerate sample_libm 1 2 2 0
              [[[]; []]; [[]; []]]) as [_ H2]; [repeat constructor|].
  split.
  - apply H1. unfold Qle. simpl. lia.
  - apply H2; [reflexivity|]. right. right. reflexivity.
Defined.

(** ** The kernel and the blur of a constant field *)

Lemma kernel_half_length (L : Libm) (sigma : Q) :
  Nat.div (length (blur_weights L sigma) - 1) 2
  = Z.to_nat (blur_radius sigma).
Proof.
  rewrite length_blur_weights. pose proof (blur_radius_pos sigma) as Hr.
  replace (Z.to_nat (2 * blur_radius sigma + 1) - 1)%nat
    with (Z.to_nat (blur_radius sigma) * 2)%nat by lia.
  apply Nat.div_mul. lia.
Qed.

(** The kernel is symmetric about its centre: the weights at offsets [-k]
    and [k] are the same number. *)
Theorem blur_weights_symmetric (L : Libm) (sigma : Q) (i : nat) :
  (i <= 2 * Z.to_nat (blur_radius sigma))%nat ->
  nth i (blur_weights L sigma) 0
  = nth (2 * Z.to_nat (blur_radius sigma) - i) (blur_weights L sigma) 0.
Proof.
  intros Hi. pose proof (blur_radius_pos sigma) as Hr.
  set (r := blur_radius sigma) in *.
  assert (Hlen : length (blur_offsets sigma) = Z.to_nat (2 * r + 1))
    by apply length_blur_offsets.
  unfold blur_weights.
  rewrite !(nth_map_in (fun x => x / sumQ (raw_weights L sigma))
              (raw_weights L sigma) _ 0 0)
    by (unfold raw_weights; rewrite length_map, Hlen; lia).
  f_equal. unfold raw_weights.
  rewrite !nth_map_in with (da := 0%Z) by (rewrite Hlen; lia).
  unfold blur_offsets. fold r. rewrite !nth_arange by lia.
  replace (- r + Z.of_nat (2 * Z.to_nat r - i))%Z
    with (- (- r + Z.of_nat i))%Z by lia.
  rewrite Z.mul_opp_opp. reflexivity.
Qed.

Lemma blur_weights_symmetric_witness :
  nth 1 (blur_weights sample_libm 1) 0
  = nth (2 * Z.to_nat (blur_radius 1) - 1) (blur_weights sample_libm 1) 0.
Proof.
  apply (blur_weights_symmetric sample_libm 1 1). vm_compute. lia.
Defined.

Lemma sumQ_nth_seq (v : vec) :
  sumQ (map (fun p => nth p v 0) (seq 0 (length v))) == sumQ v.
Proof.
  induction v as [|a v IH]; simpl; [reflexivity|].
  rewrite <- seq_shift, map_map. simpl. rewrite IH. reflexivity.
Qed.

(** Away from the border the blur leaves a constant field unchanged: when
    the weights are normalised (their raw sum is non-zero) every output
    entry at least [radius] cells from each edge equals the constant.
    Nearer the border the zero padding takes part in the average. *)
Theorem gaussian_blur_constant_interior (L : Libm) (sigma : Q) (h w c : nat)
    (arr : field) (v0 : Q) :
  0 < sigma -> ~ sumQ (raw_weights L sigma) == 0 ->
  regular3 h w c arr -> all3 (fun v => v == v0) arr -> (0 < c)%nat ->
  (length (blur_weights L sigma) <= h)%nat ->
  (length (blur_weights L sigma) <= w)%nat ->
  exists out,
    gaussian_blur L arr sigma = Ok out /\
    forall i j k,
      (Z.to_nat (blur_radius sigma) <= i)%nat ->
      (i + Z.to_nat (blur_radius sigma) < h)%nat ->
      (Z.to_nat (blur_radius sigma) <= j)%nat ->
      (j + Z.to_nat (blur_radius sigma) < w)%nat ->
      (k < c)%nat -> get3 out i j k == v0.
Proof.
  intros Hs Hnz Ha Hconst Hc Hh Hw.
  pose proof (kernel_half_length L sigma) as Hhalf.
  pose proof (sum_blur_weights L sigma Hnz) as Hsum.
  pose proof (length_blur_weights L sigma) as Hlen.
  pose proof (blur_radius_pos sigma) as Hr.
  set (v := blur_weights L sigma) in *.
  set (r := Z.to_nat (blur_radius sigma)) in *.
  assert (HK : length v = (2 * r + 1)%nat) by (rewrite Hlen; subst r; lia).
  unfold gaussian_blur.
  destruct (Qle_bool sigma 0) eqn:E; [apply Qle_bool_iff in E; lra|].
  fold v.
  destruct (blur_passes_entries v h w c arr Ha Hc ltac:(lia) Hh Hw)
    as (b0 & out & Hb0 & Hout & [Rb0 Eb0] & [Ro Eo]).
  rewrite Hb0. simpl bind. exists out. split; [assumption|].
  intros i j k Hi1 Hi2 Hj1 Hj2 Hk.
  rewrite (Eo i j k ltac:(lia) ltac:(lia) Hk).
  rewrite (blur_entry_double_sum v h w c arr b0 i j k Ha Rb0);
    [|intros i' j' Hi' Hj'; apply Eb0; assumption|lia].
  rewrite Hhalf.
  rewrite (sumQ_ext _ (fun q => nth q v 0 * v0)).
  - rewrite <- (sumQ_map_scale (fun q => nth q v 0) v0).
    rewrite sumQ_nth_seq, Hsum. ring.
  - intros q Hq. apply in_seq in Hq.
    rewrite (sumQ_ext _ (fun p => nth p v 0 * (nth q v 0 * v0))).
    + rewrite <- (sumQ_map_scale (fun p => nth p v 0) (nth q v 0 * v0)).
      rewrite sumQ_nth_seq, Hsum. ring.
    + intros p Hp. apply in_seq in Hp.
      destruct (Nat.leb_spec p (i + r)) as [_|Hp']; [|lia].
      destruct (Nat.leb_spec q (j + r)) as [_|Hq']; [|lia].
      rewrite (all3_get3 (fun x => x == v0) h w c arr _ _ _ Ha Hconst)
        by lia.
      ring.
Qed.

Lemma gaussian_blur_constant_interior_witness :
  exists out,
    gaussian_blur sample_libm (repeat (repeat [5; 5] 8) 7) 1 = Ok out /\
    forall i j k,
      (Z.to_nat (blur_radius 1) <= i)%nat ->
      (i + Z.to_nat (blur_radius 1) < 7)%nat ->
      (Z.to_nat (blur_radius 1) <= j)%nat ->
      (j + Z.to_nat (blur_radius 1) < 8)%nat ->
      (k < 2)%nat -> get3 out i j k == 5.
Proof.
  apply (gaussian_blur_constant_interior sample_libm 1 7 8 2).
  - reflexivity.
  - vm_compute. discriminate.
  - repeat constructor.
  - repeat constructor.
  - lia.
  - vm_compute. lia.
  - vm_compute. lia.
Defined.

(** ** bilinear_sample and advect: range and errors *)

(** The sampler never extrapolates: on a regular non-empty field whose
    values lie in [lo, hi], every sample lies in [lo, hi], wherever the
    coordinates point (inside or outside the field). *)
Theorem bilinear_sample_bounded (h w c m n : nat) (fld : field) (X Y : mat)
    (lo hi : Q) :
  regular3 h w c fld -> (0 < h)%nat -> (0 < w)%nat ->
  all3 (fun v => lo <= v <= hi) fld ->
  regular2 m n X -> regular2 m n Y ->
  exists out, bilinear_sample fld X Y = Ok out /\
    regular3 m n c out /\ all3 (fun v => lo <= v <= hi) out.
Proof.
  intros Hf Hh Hw Hr HX HY.
  destruct (bilinear_sample_entries h w c m n fld X Y Hf HX HY)
    as (out & Hout & Rout & Eout); [auto|].
  exists out. split; [assumption|]. split; [assumption|].
  apply (all3_intro _ 0 m n c); [assumption|].
  intros i j k Hi Hj Hk. fold (get3 out i j k).
  rewrite (Eout i j k Hi Hj Hk).
  rewrite (bilerp_clip h w c) by assumption.
  assert (0 <= inject_Z (Z.of_nat w - 1)) by (apply (inject_Z_le 0); lia).
  assert (0 <= inject_Z (Z.of_nat h - 1)) by (apply (inject_Z_le 0); lia).
  apply (bilerp_bounds h w c); try assumption; apply clip_range; assumption.
Qed.

Lemma bilinear_sample_bounded_witness :
  exists out,
    bilinear_sample [[[1]; [3]]; [[5]; [7]]]
                    [[-9; 1 # 2; 40]] [[1 # 3; 6; -2]] = Ok out /\
    regular3 1 3 1 out /\ all3 (fun v => 1 <= v <= 7) out.
Proof.
  apply (bilinear_sample_bounded 2 2 1 1 3).
  - repeat constructor.
  - lia.
  - lia.
  - repeat constructor; unfold Qle; simpl; lia.
  - repeat constructor.
  - repeat constructor.
Defined.

Lemma mapM_first_raise {A B : Type} (f : A -> result B) (a : A)
    (l : list A) (e : exn) :
  f a = Raise e -> mapM f (a :: l) = Raise e.
Proof. intros H. simpl. rewrite H. reflexivity. Qed.

Lemma getitem_empty {A : Type} (i : Z) :
  getitem (@nil A) i = Raise IndexError.
Proof.
  unfold getitem. simpl length. change (Z.of_nat 0) with 0%Z.
  destruct (i <? 0)%Z;
    match goal with
    | |- (if (?a && ?b)%bool then _ else _) = _ =>
        destruct a eqn:Ea; destruct b eqn:Eb; simpl; try reflexivity
    end;
    apply Z.leb_le in Ea; apply Z.ltb_lt in Eb; lia.
Qed.

Lemma sample_at_empty (h w c : nat) (fld : field) (x y : Q) :
  regular3 h w c fld -> (h = 0 \/ w = 0)%nat ->
  sample_at fld x y = Raise IndexError.
Proof.
  intros Hf Hz. unfold sample_at.
  destruct (Nat.eq_dec h 0) as [Hh|Hh].
  - destruct Hf as [Hl _]. destruct fld; [|simpl in Hl; lia].
    unfold cell at 1. rewrite getitem_empty. reflexivity.
  - assert (Hw : w = 0%nat) by lia. subst w.
    rewrite (regular3_ncols h 0 c fld Hf) by lia.
    set (y0 := clipZ (Qfloor y) 0 (Z.of_nat (length fld) - 1)).
    assert (Hy0 : (0 <= y0 < Z.of_nat (length fld))%Z).
    { apply clipZ_range. destruct Hf as [-> _]. lia. }
    unfold cell at 1. rewrite (getitem_ok fld y0 []) by assumption.
    simpl bind.
    assert (Hrow : nth (Z.to_nat y0) fld [] = []).
    { apply length_zero_iff_nil. apply (regular2_nth h 0).
      - destruct Hf as [Hl Hr]. split; [assumption|].
        eapply Forall_impl; [|exact Hr]. intros r [? _]. assumption.
      - destruct Hf as [Hl _]. lia. }
    rewrite Hrow. rewrite getitem_empty. reflexivity.
Qed.

(** Sampling a field with no rows or no columns raises [IndexError] as
    soon as there is one coordinate to sample. *)
Theorem bilinear_sample_empty_field (h w c m n : nat) (fld : field)
    (X Y : mat) :
  regular3 h w c fld -> (h = 0 \/ w = 0)%nat ->
  regular2 m n X -> regular2 m n Y -> (0 < m)%nat -> (0 < n)%nat ->
  bilinear_sample fld X Y = Raise IndexError.
Proof.
  intros Hf Hz HX HY Hm Hn. unfold bilinear_sample.
  rewrite bzip_same_length by (destruct HX, HY; congruence).
  destruct X as [|rx X]; [destruct HX; simpl in *; lia|].
  destruct Y as [|ry Y]; [destruct HY; simpl in *; lia|].
  simpl combine. apply mapM_first_raise. simpl fst. simpl snd.
  assert (Lx : length rx = n) by (apply (regular2_nth m n _ 0 HX Hm)).
  assert (Ly : length ry = n) by (apply (regular2_nth m n _ 0 HY Hm)).
  rewrite bzip_same_length by congruence.
  destruct rx as [|x rx]; [simpl in Lx; lia|].
  destruct ry as [|y ry]; [simpl in Ly; lia|].
  simpl combine. apply mapM_first_raise. simpl.
  apply (sample_at_empty h w c); assumption.
Qed.

Lemma bilinear_sample_empty_field_witness :
  bilinear_sample [[]; []] [[0; 1]] [[0; 0]] = Raise IndexError.
Proof.
  apply (bilinear_sample_empty_field 2 0 0 1 2).
  - repeat constructor.
  - right. reflexivity.
  - repeat constructor.
  - repeat constructor.
  - lia.
  - lia.
Defined.

(** Advection obeys a maximum principle: for a regular H x W x C field
    with values in [lo, hi], any H x W x 2 velocity field and any [dt], the
    result has the same shape and its values stay in [lo, hi]. *)
Theorem advect_maximum_principle (h w c : nat) (fld vel : field)
    (dt lo hi : Q) :
  regular3 h w c fld -> regular3 h w 2 vel ->
  all3 (fun v => lo <= v <= hi) fld ->
  exists out, advect fld vel dt = Ok out /\
    regular3 h w c out /\ all3 (fun v => lo <= v <= hi) out.
Proof.
  intros Hf Hv Hr.
  destruct (advect_entries h w c fld vel dt Hf Hv) as (out & Hout & Rout & Eout).
  exists out. split; [assumption|]. split; [assumption|].
  apply (all3_intro _ 0 h w c); [assumption|].
  intros i j k Hi Hj Hk. fold (get3 out i j k).
  rewrite (Eout i j k Hi Hj Hk).
  assert (0 <= inject_Z (Z.of_nat w - 1)) by (apply (inject_Z_le 0); lia).
  assert (0 <= inject_Z (Z.of_nat h - 1)) by (apply (inject_Z_le 0); lia).
  apply (bilerp_bounds h w c); try assumption; try lia;
    apply clip_range; assumption.
Qed.

Lemma advect_maximum_principle_witness :
  exists out,
    advect [[[1; 20]; [3; 40]]; [[5; 60]; [7; 80]]]
           [[[3; -1]; [1 # 2; 9]]; [[-7; 2]; [0; 1 # 3]]] 0.6 = Ok out /\
    regular3 2 2 2 out /\ all3 (fun v => 1 <= v <= 80) out.
Proof.
  apply (advect_maximum_principle 2 2 2).
  - repeat constructor.
  - repeat constructor.
  - repeat constructor; unfold Qle; simpl; lia.
Defined.

(** A velocity field whose rows or columns differ in number from the
    field's, no axis involved having length 1, cannot be broadcast against
    the pixel grid: [advect] raises [ValueError] instead of resampling. *)
Theorem advect_shape_mismatch (h w c h' w' : nat) (fld vel : field)
    (dt : Q) :
  regular3 h w c fld -> regular3 h' w' 2 vel ->
  (0 < h)%nat -> h <> 1%nat -> h' <> 1%nat -> w <> 1%nat -> w' <> 1%nat ->
  h <> h' \/ w <> w' ->
  advect fld vel dt = Raise ValueError.
Proof.
  intros Hf Hv Hh H1 H1' W1 W1' Hne.
  destruct (Nat.eq_dec h h') as [Heq|Hneq];
    [|apply (advect_mismatch h w c h' w'); assumption].
  subst h'. assert (Hw : w <> w') by (destruct Hne; congruence).
  unfold advect.
  destruct (channel_entries h w' 2 vel 0 Hv) as (v0 & Hv0 & Rv0 & _); [lia|].
  change (Z.of_nat 0) with 0%Z in Hv0.
  unfold meshgrid_ij. rewrite Hv0. simpl bind.
  rewrite (regular3_ncols h w c fld Hf Hh).
  replace (length fld) with h by (destruct Hf; congruence).
  unfold bzip2 at 1.
  rewrite bzip_same_length
    by (unfold map2d; rewrite !length_map, length_arange;
        destruct Rv0 as [-> _]; lia).
  destruct v0 as [|r0 v0]; [destruct Rv0; simpl in *; lia|].
  destruct h as [|h]; [lia|].
  remember (map inject_Z (arange 0 (Z.of_nat (S h)))) as rows eqn:Erows.
  assert (Lrows : length rows = S h).
  { subst rows. rewrite length_map, length_arange. lia. }
  destruct rows as [|a rows]; [discriminate|].
  unfold map2d. cbn [map combine].
  rewrite (mapM_first_raise _ _ _ ValueError); [reflexivity|].
  cbn [fst snd]. unfold bzip1. apply bzip_mismatch.
  - rewrite !length_map, length_arange.
    assert (length r0 = w') by (apply (regular2_nth _ w' _ 0 Rv0); lia).
    lia.
  - rewrite !length_map, length_arange. lia.
  - rewrite length_map.
    assert (length r0 = w') by (apply (regular2_nth _ w' _ 0 Rv0); lia).
    lia.
Qed.

Lemma advect_shape_mismatch_witness :
  advect [[[1]; [2]]; [[3]; [4]]]
         [[[0; 0]; [0; 0]; [0; 0]]; [[0; 0]; [0; 0]; [0; 0]]] 0.6
  = Raise ValueError.
Proof.
  apply (advect_shape_mismatch 2 2 1 2 3).
  - repeat constructor.
  - repeat constructor.
  - lia.
  - lia.
  - lia.
  - lia.
  - lia.
  - right. lia.
Defined.

(** ** create_initial_dye: the value of every entry *)

Lemma nth_set_last_front {A : Type} (l : list A) (v d : A) (k : nat) :
  (S k < length l)%nat -> nth k (set_last l v) d = nth k l d.
Proof.
  revert k. induction l as [|a [|b l] IH]; intros k Hk; simpl in *; try lia.
  destruct k as [|k]; [reflexivity|]. apply IH. lia.
Qed.

Lemma nth_set_last_back {A : Type} (l : list A) (v d : A) :
  (0 < length l)%nat -> nth (length l - 1) (set_last l v) d = v.
Proof.
  induction l as [|a [|b l] IH]; intros Hl; simpl in *; try lia.
  - reflexivity.
  - rewrite Nat.sub_0_r in IH. apply IH. lia.
Qed.

(** The axis [np.linspace(-1, 1, n)] used for the vignette. *)
Lemma linspace_vignette_axis (n : Z) :
  (0 <= n)%Z ->
  exists ax, linspace (-1) 1 n true = Ok ax /\
    length ax = Z.to_nat n /\
    forall k, (k < Z.to_nat n)%nat -> (2 <= n)%Z ->
      nth k ax 0 == -1 + 2 * inject_Z (Z.of_nat k) / inject_Z (n - 1).
Proof.
  intros Hn. destruct (linspace_length (-1) 1 n true Hn) as (ax & Hax & Lax).
  exists ax. split; [assumption|]. split; [assumption|].
  intros k Hk H2. unfold linspace in Hax.
  destruct (Z.ltb_spec n 0); [lia|].
  destruct (Z.ltb_spec 0 (n - 1)); [|lia].
  destruct (Z.ltb_spec 1 n); [|lia]. simpl andb in Hax. cbv iota in Hax.
  injection Hax as <-.
  set (y := map (fun q => q * ((1 - -1) / inject_Z (n - 1)) + -1)
                (map inject_Z (arange 0 n))) in *.
  assert (Ly : length y = Z.to_nat n).
  { subst y. rewrite !length_map, length_arange. f_equal. lia. }
  assert (Hnz : ~ inject_Z (n - 1) == 0).
  { intros E. unfold Qeq, inject_Z in E. simpl in E. lia. }
  destruct (Nat.eq_dec k (Z.to_nat n - 1)) as [Hlast|Hfront].
  - subst k. rewrite <- Ly. rewrite nth_set_last_back by lia.
    rewrite Ly. replace (Z.of_nat (Z.to_nat n - 1)) with (n - 1)%Z by lia.
    field. assumption.
  - rewrite nth_set_last_front by lia. subst y.
    rewrite nth_map_in with (da := 0)
      by (rewrite length_map, length_arange; lia).
    rewrite nth_map_in with (da := 0%Z) by (rewrite length_arange; lia).
    rewrite nth_arange by lia. simpl Z.add. field. assumption.
Qed.

Lemma get3_repeat (v : vec) (n m i j k : nat) :
  (i < n)%nat -> (j < m)%nat ->
  get3 (repeat (repeat v m) n) i j k = nth k v 0.
Proof.
  intros Hi Hj. unfold get3. rewrite !nth_repeat_lt by assumption.
  reflexivity.
Qed.

Lemma get3_normal (L : Libm) (loc scale : Q) (n m c i j k : nat) :
  (i < n)%nat -> (j < m)%nat -> (k < c)%nat ->
  get3 (normal L loc scale n m c) i j k
  = loc + scale * standard_normal L ((i * m + j) * c + k).
Proof.
  intros Hi Hj Hk. unfold get3, normal.
  do 3 nth_of_seq_map. rewrite !seq_nth by assumption. reflexivity.
Qed.

(** Every entry of the initial dye, for a resolution N >= 0: the base
    colour of the channel plus 20 times the draw number [(i N + j) 3 + k]
    of the seeded normal stream, times the vignette
    [clip(1 - 0.8 hypot(a_j, a_i), 0.2, 1)] with [a] the axis
    [linspace(-1, 1, N)] (so [a_k = -1 + 2k/(N-1)]), clamped to [0,255]. *)
Theorem create_initial_dye_entries (L : Libm) (n : Z) :
  (0 <= n)%Z ->
  exists ax dye,
    linspace (-1) 1 n true = Ok ax /\
    create_initial_dye L n = Ok dye /\
    regular3 (Z.to_nat n) (Z.to_nat n) 3 dye /\
    (forall k, (k < Z.to_nat n)%nat -> (2 <= n)%Z ->
       nth k ax 0 == -1 + 2 * inject_Z (Z.of_nat k) / inject_Z (n - 1)) /\
    forall i j k,
      (i < Z.to_nat n)%nat -> (j < Z.to_nat n)%nat -> (k < 3)%nat ->
      get3 dye i j k =
      clip ((nth k base_color 0
             + (0 + 20 * standard_normal L
                           ((i * Z.to_nat n + j) * 3 + k)))
            * clip (1 - 0.8 * hypot L (nth j ax 0) (nth i ax 0)) 0.2 1)
           0 255.
Proof.
  intros Hn.
  destruct (linspace_vignette_axis n Hn) as (ax & Hax & Lax & Vax).
  exists ax. unfold create_initial_dye.
  destruct (Z.ltb_spec n 0); [lia|].
  set (N := Z.to_nat n) in *.
  destruct (bzip3_entries Qplus N N 3 (repeat (repeat base_color N) N)
              (normal L 0 20 N N 3))
    as (d1 & Hd1 & R1 & E1);
    [apply (regular3_repeat base_color)|apply regular3_normal|].
  rewrite Hd1. simpl bind. rewrite Hax. simpl bind.
  pose proof (regular2_meshgrid_xy ax) as [Rgx Rgy].
  simpl in Rgx, Rgy. rewrite Lax in Rgx, Rgy.
  destruct (bzip2d_nth (lift2 (hypot L))
              (fun i j v => v = hypot L (nth j ax 0) (nth i ax 0))
              N N _ _ 0 0 0 Rgx Rgy)
    as (vg & Hvg & Rvg & Evg).
  { intros i j Hi Hj. eexists. split; [reflexivity|].
    rewrite nth_map_in with (da := 0) by lia.
    rewrite nth_map_in with (da := 0) by lia.
    rewrite nth_map_in with (da := 0) by lia. reflexivity. }
  unfold bzip2, bzip1. rewrite Hvg. simpl bind.
  destruct (bzip2d_nth (fun (c : list Q) (v : Q) => Ok (vscale v c))
              (fun i j r =>
                 r = vscale (clip (1 - 0.8 * hypot L (nth j ax 0)
                                                     (nth i ax 0)) 0.2 1)
                            (nth j (nth i d1 []) []))
              N N d1
              (map2d (fun r => clip (1 - 0.8 * r) 0.2 1) vg) [] 0 [])
    as (d2 & Hd2 & Rd2 & Ed2).
  { destruct R1 as [Hl Hr]. split; [assumption|].
    eapply Forall_impl; [|exact Hr]. intros r [Hr1 _]. assumption. }
  { apply regular2_map2d. assumption. }
  { intros i j Hi Hj. eexists. split; [reflexivity|].
    fold (get2 (map2d (fun r => clip (1 - 0.8 * r) 0.2 1) vg) i j).
    rewrite (get2_map2d _ N N vg) by assumption.
    unfold get2. rewrite (Evg i j Hi Hj). reflexivity. }
  rewrite Hd2. simpl bind.
  assert (R2 : regular3 N N 3 d2).
  { apply regular3_intro; [destruct Rd2; assumption|].
    intros i Hi. apply regular2_intro.
    - apply (regular2_nth N N); assumption.
    - intros j Hj. rewrite (Ed2 i j Hi Hj), length_vscale.
      apply (regular3_cell N N 3); assumption. }
  eexists. split; [reflexivity|]. split; [reflexivity|].
  split; [apply regular3_map3d; assumption|]. split; [assumption|].
  intros i j k Hi Hj Hk.
  rewrite (get3_map3d _ N N 3 d2) by assumption. f_equal.
  unfold get3. rewrite (Ed2 i j Hi Hj).
  rewrite nth_vscale by (rewrite (regular3_cell N N 3); assumption).
  fold (get3 d1 i j k). rewrite (E1 i j k Hi Hj Hk).
  rewrite get3_repeat, get3_normal by assumption. reflexivity.
Qed.

Lemma create_initial_dye_entries_witness :
  exists ax dye,
    linspace (-1) 1 3 true = Ok ax /\
    create_initial_dye sample_libm 3 = Ok dye /\
    regular3 (Z.to_nat 3) (Z.to_nat 3) 3 dye /\
    (forall k, (k < Z.to_nat 3)%nat -> (2 <= 3)%Z ->
       nth k ax 0 == -1 + 2 * inject_Z (Z.of_nat k) / inject_Z (3 - 1)) /\
    forall i j k,
      (i < Z.to_nat 3)%nat -> (j < Z.to_nat 3)%nat -> (k < 3)%nat ->
      get3 dye i j k =
      clip ((nth k base_color 0
             + (0 + 20 * standard_normal sample_libm
                           ((i * Z.to_nat 3 + j) * 3 + k)))
            * clip (1 - 0.8 * hypot sample_libm (nth j ax 0) (nth i ax 0))
                   0.2 1)
           0 255.
Proof.
  apply (create_initial_dye_entries sample_libm 3). lia.
Defined.

(** ** run_simulation: every outcome, and the run at rest *)

Lemma run_simulation_large (L : Libm) (cfg : SimulationConfig) :
  (7 <= resolution cfg)%Z -> fps cfg <> 0%Z ->
  exists base_dye ds,
    create_initial_dye L (resolution cfg) = Ok base_dye /\
    dye_ok (Z.to_nat (resolution cfg)) base_dye /\
    run_simulation L cfg = Ok (map to_frame ds) /\
    length ds = Z.to_nat (steps cfg) /\
    forall i, (i < Z.to_nat (steps cfg))%nat ->
      dye_after L cfg base_dye (S i) = Ok (nth i ds []).
Proof.
  intros Hn Hfps. unfold run_simulation.
  destruct (create_initial_dye_range L (resolution cfg))
    as (base & Hb & Rb & Ab); [lia|].
  exists base. rewrite Hb. simpl bind.
  unfold pause_time. destruct (Z.eqb_spec (fps cfg) 0); [contradiction|].
  simpl bind. rewrite arange_from_zero.
  destruct (sim_loop_trace L cfg base Hn (conj Rb Ab)
              (Z.to_nat (steps cfg)) 0 base [] eq_refl (conj Rb Ab))
    as (dye' & ds & Hloop & Hlen & Hds).
  rewrite Hloop. simpl bind. simpl app.
  exists ds. split; [reflexivity|]. split; [split; assumption|].
  split; [reflexivity|]. split; [assumption|].
  intros i Hi. apply (Hds i Hi).
Qed.

(** Every outcome of [run_simulation], for every configuration: it returns
    frames exactly when the resolution is non-negative, [fps] is non-zero
    and either there is no step to run or the resolution is at least 7, and
    then it returns [max(steps, 0)] frames; it raises [ZeroDivisionError]
    exactly when [fps = 0] with a non-negative resolution; every other
    configuration raises [ValueError]; it never raises [IndexError]. *)
Theorem run_simulation_outcome (L : Libm) (cfg : SimulationConfig) :
  match run_simulation L cfg with
  | Ok frames =>
      (0 <= resolution cfg)%Z /\ fps cfg <> 0%Z /\
      ((steps cfg <= 0)%Z \/ (7 <= resolution cfg)%Z) /\
      length frames = Z.to_nat (steps cfg)
  | Raise ZeroDivisionError => (0 <= resolution cfg)%Z /\ fps cfg = 0%Z
  | Raise ValueError =>
      (resolution cfg < 0)%Z \/
      (fps cfg <> 0%Z /\ (0 < steps cfg)%Z /\ (resolution cfg < 7)%Z)
  | Raise IndexError => False
  end.
Proof.
  destruct (Z.lt_ge_cases (resolution cfg) 0) as [Hneg|Hpos].
  { unfold run_simulation.
    rewrite create_initial_dye_negative by assumption. simpl. auto. }
  destruct (Z.eq_dec (fps cfg) 0) as [Hf|Hf].
  { unfold run_simulation.
    destruct (create_initial_dye_range L (resolution cfg) Hpos)
      as (base & -> & _).
    simpl bind. unfold pause_time. rewrite Hf. simpl. auto. }
  destruct (Z.le_gt_cases (steps cfg) 0) as [Hs|Hs].
  { unfold run_simulation.
    destruct (create_initial_dye_range L (resolution cfg) Hpos)
      as (base & -> & _).
    simpl bind. unfold pause_time.
    destruct (Z.eqb_spec (fps cfg) 0); [contradiction|]. simpl bind.
    rewrite arange_from_zero.
    replace (Z.to_nat (steps cfg)) with 0%nat by lia. simpl. auto. }
  destruct (Z.lt_ge_cases (resolution cfg) 7) as [Hsmall|Hbig].
  - rewrite run_simulation_small by (assumption || lia). right. auto.
  - destruct (run_simulation_large L cfg Hbig Hf)
      as (base & ds & _ & _ & -> & Hlen & _).
    rewrite length_map. auto.
Qed.

Lemma map_Forall2 {A B C : Type} (R : A -> B -> Prop) (f : A -> C)
    (g : B -> C) (l : list A) (l' : list B) :
  Forall2 R l l' -> (forall x y, R x y -> f x = g y) -> map f l = map g l'.
Proof.
  intros H Hfg. induction H; simpl; [reflexivity|].
  rewrite (Hfg _ _ H), IHForall2. reflexivity.
Qed.

(** Buffers that agree entry by entry give the same frame. *)
Lemma to_frame_feq (n : nat) (a b : field) :
  dye_ok n a -> dye_ok n b -> feq a b -> to_frame a = to_frame b.
Proof.
  intros Ha Hb Hab.
  destruct (to_frame_exact n a Ha) as [_ ->].
  destruct (to_frame_exact n b Hb) as [_ ->].
  unfold map3d. apply (map_Forall2 meq); [exact Hab|].
  intros r r' Hr. apply (map_Forall2 veq); [exact Hr|].
  intros c c' Hc. apply (map_Forall2 Qeq); [exact Hc|].
  intros x y Hxy. apply Qfloor_comp. assumption.
Qed.

(** With [strength = 0] the dye buffer stays equal to the base dye. *)
Lemma dye_after_at_rest (L : Libm) (cfg : SimulationConfig)
    (base_dye : field) (k : nat) :
  (7 <= resolution cfg)%Z -> strength cfg == 0 ->
  dye_ok (Z.to_nat (resolution cfg)) base_dye ->
  exists dye, dye_after L cfg base_dye k = Ok dye /\
    dye_ok (Z.to_nat (resolution cfg)) dye /\ feq dye base_dye.
Proof.
  intros Hn Hz Hb. induction k as [|k (d & Hd & Okd & Ed)].
  - exists base_dye. split; [reflexivity|]. split; [assumption|].
    apply (feq_intro (Z.to_nat (resolution cfg)) (Z.to_nat (resolution cfg)) 3);
      try apply Hb. intros; reflexivity.
  - destruct (sim_step_dye_ok L cfg base_dye Hn Hb d (Z.of_nat k) Okd)
      as (out & Ho & Oko).
    destruct (sim_step_at_rest L cfg base_dye d (Z.of_nat k) Hn Hz)
      as (out' & Ho' & Eo); [apply Hb|apply Okd|].
    rewrite Ho in Ho'. injection Ho' as <-.
    exists out. simpl. rewrite Hd. simpl bind.
    split; [assumption|]. split; [assumption|].
    apply (feq_intro (Z.to_nat (resolution cfg)) (Z.to_nat (resolution cfg)) 3);
      [apply Oko|apply Hb|].
    intros i j c Hi Hj Hc.
    pose proof (Eo i j c Hi Hj Hc) as E.
    rewrite (feq_get3 d base_dye i j c Ed) in E. lra.
Qed.

(** A run with [strength = 0] (resolution at least 7, [fps] non-zero)
    shows a still image: every frame equals the frame of the initial
    dye. *)
Theorem run_simulation_still_image (L : Libm) (cfg : SimulationConfig) :
  (7 <= resolution cfg)%Z -> fps cfg <> 0%Z -> strength cfg == 0 ->
  exists base_dye frames,
    create_initial_dye L (resolution cfg) = Ok base_dye /\
    run_simulation L cfg = Ok frames /\
    length frames = Z.to_nat (steps cfg) /\
    Forall (fun fr => fr = to_frame base_dye) frames.
Proof.
  intros Hn Hf Hz.
  destruct (run_simulation_large L cfg Hn Hf)
    as (base & ds & Hb & Okb & Hrun & Hlen & Hds).
  exists base, (map to_frame ds). split; [assumption|].
  split; [assumption|]. split; [rewrite length_map; assumption|].
  apply Forall_map. apply Forall_forall. intros d Hd.
  destruct (In_nth _ _ [] Hd) as (i & Hi & <-).
  destruct (dye_after_at_rest L cfg base (S i) Hn Hz Okb)
    as (d' & Hd' & Okd' & Ed').
  rewrite (Hds i) in Hd' by lia. injection Hd' as <-.
  apply (to_frame_feq (Z.to_nat (resolution cfg))); assumption.
Qed.

Lemma run_simulation_still_image_witness :
  exists base_dye frames,
    create_initial_dye sample_libm 7 = Ok base_dye /\
    run_simulation sample_libm
      {| resolution := 7; steps := 2; dt := 0.6; strength := 0;
         live_view := false; fps := 60 |} = Ok frames /\
    length frames = Z.to_nat 2 /\
    Forall (fun fr => fr = to_frame base_dye) frames.
Proof.
  apply (run_simulation_still_image sample_libm
           {| resolution := 7; steps := 2; dt := 0.6; strength := 0;
              live_view := false; fps := 60 |}).
  - simpl. lia.
  - simpl. lia.
  - reflexivity.
Defined.

(** ** velocity_field: the discrete divergence *)

Lemma gradient1d_interior (f : vec) :
  (2 <= length f)%nat ->
  exists g, gradient1d f = Ok g /\ length g = length f /\
    forall i, (1 <= i)%nat -> (i + 1 < length f)%nat ->
      nth i g 0 = (nth (i + 1) f 0 - nth (i - 1) f 0) / 2.
Proof.
  intros Hf. unfold gradient1d.
  destruct (Nat.ltb_spec (length f) 2); [lia|].
  eexists. split; [reflexivity|].
  split; [rewrite length_map, length_seq; reflexivity|].
  intros i Hi1 Hi2.
  rewrite nth_map_in with (da := 0%nat) by (rewrite length_seq; lia).
  rewrite seq_nth by lia. simpl Nat.add.
  destruct (Nat.eqb_spec i 0); [lia|].
  destruct (Nat.eqb_spec i (length f - 1)); [lia|]. reflexivity.
Qed.

Lemma mapM_gradient1d_entries (h w : nat) (m : mat) :
  regular2 h w m -> (2 <= w)%nat ->
  exists g, mapM gradient1d m = Ok g /\ regular2 h w g /\
    forall i j, (i < h)%nat -> (1 <= j)%nat -> (j + 1 < w)%nat ->
      get2 g i j = (get2 m i (j + 1) - get2 m i (j - 1)) / 2.
Proof.
  intros Hm Hw.
  destruct (mapM_nth gradient1d
              (fun i r => length r = w /\
                 forall j, (1 <= j)%nat -> (j + 1 < w)%nat ->
                   nth j r 0 = (get2 m i (j + 1) - get2 m i (j - 1)) / 2)
              m [] [])
    as (g & Hg & Hl & Hr).
  - intros i Hi.
    assert (Hlen : length (nth i m []) = w)
      by (apply (regular2_nth h w); [assumption|destruct Hm; lia]).
    destruct (gradient1d_interior (nth i m [])) as (r & Hr & Hlr & Er); [lia|].
    exists r. split; [assumption|]. split; [congruence|].
    intros j Hj1 Hj2. apply Er; lia.
  - exists g. split; [assumption|]. split.
    + apply regular2_intro; [destruct Hm; congruence|].
      intros i Hi. apply Hr. destruct Hm; lia.
    + intros i j Hi Hj1 Hj2. unfold get2 at 1.
      apply Hr; (assumption || (destruct Hm; lia)).
Qed.

Lemma get2_transpose (h w : nat) (m : mat) (i j : nat) :
  regular2 h w m -> (i < h)%nat -> (j < w)%nat ->
  get2 (transpose m) j i = get2 m i j.
Proof.
  intros Hm Hi Hj. unfold get2, transpose.
  assert (Hnc : ncols m = w).
  { destruct Hm as [Hl Hr]. destruct m as [|r m]; simpl in *; [lia|].
    inversion Hr. assumption. }
  rewrite Hnc. nth_of_seq_map. rewrite seq_nth by assumption. simpl.
  unfold column.
  apply (nth_map_in (fun r => nth j r 0) m i [] 0). destruct Hm; lia.
Qed.

Lemma gradient_axis1_entries (h w : nat) (psi : mat) :
  regular2 h w psi -> (0 < h)%nat -> (2 <= w)%nat ->
  exists g, gradient_axis1 psi = Ok g /\ regular2 h w g /\
    forall i j, (i < h)%nat -> (1 <= j)%nat -> (j + 1 < w)%nat ->
      get2 g i j = (get2 psi i (j + 1) - get2 psi i (j - 1)) / 2.
Proof.
  intros Hp Hh Hw. unfold gradient_axis1.
  assert (Hnc : ncols psi = w).
  { destruct Hp as [Hl Hr]. destruct psi as [|r m]; simpl in *; [lia|].
    inversion Hr. assumption. }
  rewrite Hnc. destruct (Nat.ltb_spec w 2); [lia|].
  apply mapM_gradient1d_entries; assumption.
Qed.

Lemma gradient_axis0_entries (h w : nat) (psi : mat) :
  regular2 h w psi -> (2 <= h)%nat -> (0 < w)%nat ->
  exists g, gradient_axis0 psi = Ok g /\ regular2 h w g /\
    forall i j, (1 <= i)%nat -> (i + 1 < h)%nat -> (j < w)%nat ->
      get2 g i j = (get2 psi (i + 1) j - get2 psi (i - 1) j) / 2.
Proof.
  intros Hp Hh Hw. unfold gradient_axis0.
  replace (length psi) with h by (destruct Hp; congruence).
  destruct (Nat.ltb_spec h 2); [lia|].
  assert (Rt : regular2 w h (transpose psi))
    by (apply regular2_transpose; [assumption|lia]).
  destruct (mapM_gradient1d_entries w h (transpose psi) Rt Hh)
    as (cols & Hc & Rc & Ec).
  rewrite Hc. simpl bind. eexists. split; [reflexivity|].
  split; [apply regular2_transpose; [assumption|lia]|].
  intros i j Hi1 Hi2 Hj.
  rewrite (get2_transpose w h cols j i Rc) by lia.
  rewrite (Ec j i Hj Hi1 Hi2).
  rewrite !(get2_transpose h w psi _ j Hp) by lia.
  reflexivity.
Qed.

(** Away from the border the zero padding plays no part: the entry is the
    plain double sum over the kernel. *)
Lemma blur_interior_entry (v : vec) (h w c : nat) (arr b0 : field)
    (i j k : nat) :
  regular3 h w c arr -> regular3 h w c b0 ->
  (forall i' j', (i' < h)%nat -> (j' < w)%nat ->
     get3 b0 i' j' k =
     conv_at (slice0 arr j' k) v (i' + Nat.div (length v - 1) 2)) ->
  (i < h)%nat ->
  let r := Nat.div (length v - 1) 2 in
  (length v <= i + r + 1)%nat -> (length v <= j + r + 1)%nat ->
  conv_at (slice1 (nth i b0 []) k) v (j + r) ==
  sumQ (map (fun q =>
    sumQ (map (fun p =>
            nth p v 0 * nth q v 0 * get3 arr (i + r - p) (j + r - q) k)
          (seq 0 (length v))))
    (seq 0 (length v))).
Proof.
  intros Ha Hb Eb0 Hi r Hir Hjr. subst r.
  rewrite (blur_entry_double_sum v h w c arr b0 i j k Ha Hb Eb0 Hi).
  apply sumQ_ext. intros q Hq. apply in_seq in Hq.
  apply sumQ_ext. intros p Hp. apply in_seq in Hp.
  destruct (Nat.leb_spec p (i + Nat.div (length v - 1) 2)); [|lia].
  destruct (Nat.leb_spec q (j + Nat.div (length v - 1) 2)); [|lia].
  reflexivity.
Qed.

Lemma sumQ_opp {A : Type} (f : A -> Q) (l : list A) :
  sumQ (map (fun a => - f a) l) == - sumQ (map f l).
Proof.
  induction l as [|a l IH]; simpl; [ring|]. rewrite IH. ring.
Qed.

Lemma sumQ2_combine {A B : Type} (f1 f2 f3 f4 : A -> B -> Q)
    (l1 : list A) (l2 : list B) :
  sumQ (map (fun q => sumQ (map (fun p => f1 p q) l1)) l2)
  - sumQ (map (fun q => sumQ (map (fun p => f2 p q) l1)) l2)
  + (sumQ (map (fun q => sumQ (map (fun p => f3 p q) l1)) l2)
     - sumQ (map (fun q => sumQ (map (fun p => f4 p q) l1)) l2))
  == sumQ (map (fun q =>
       sumQ (map (fun p => f1 p q - f2 p q + (f3 p q - f4 p q)) l1)) l2).
Proof.
  induction l2 as [|b l2 IH]; simpl; [ring|].
  rewrite <- IH.
  assert (E : sumQ (map (fun p => f1 p b - f2 p b + (f3 p b - f4 p b)) l1)
              == sumQ (map (fun p => f1 p b) l1)
                 - sumQ (map (fun p => f2 p b) l1)
                 + (sumQ (map (fun p => f3 p b) l1)
                    - sumQ (map (fun p => f4 p b) l1))).
  { clear IH. induction l1 as [|a l1 IH1]; simpl; [ring|].
    rewrite IH1. ring. }
  rewrite E. ring.
Qed.

(** The pieces of [velocity_field] at a resolution of at least 7: the
    stream-function samples, the unsmoothed velocity built from their
    central differences, and the two smoothing passes. *)
Lemma velocity_field_pieces (L : Libm) (n : Z) (t strength : Q) :
  (7 <= n)%Z ->
  let N := Z.to_nat n in
  let v := blur_weights L 1 in
  exists psi s b0 vel,
    velocity_field L n t strength = Ok vel /\
    regular3 N N 2 s /\ regular3 N N 2 b0 /\ regular3 N N 2 vel /\
    (forall a b, (1 <= a)%nat -> (a + 1 < N)%nat -> (b < N)%nat ->
       get3 s a b 0 =
       (get2 psi (a + 1) b - get2 psi (a - 1) b) / 2
       * strength * inject_Z n) /\
    (forall a b, (a < N)%nat -> (1 <= b)%nat -> (b + 1 < N)%nat ->
       get3 s a b 1 =
       - ((get2 psi a (b + 1) - get2 psi a (b - 1)) / 2)
       * strength * inject_Z n) /\
    (forall i j k, (i < N)%nat -> (j < N)%nat -> (k < 2)%nat ->
       get3 b0 i j k = conv_at (slice0 s j k) v (i + 3)) /\
    (forall i j k, (i < N)%nat -> (j < N)%nat -> (k < 2)%nat ->
       get3 vel i j k = conv_at (slice1 (nth i b0 []) k) v (j + 3)).
Proof.
  intros Hn N v. unfold velocity_field.
  destruct (build_grid_entries n) as (X & Y & Hg & RX & RY & _); [lia|].
  rewrite Hg. simpl bind. fold N in RX, RY.
  assert (HN : (7 <= N)%nat) by (subst N; lia).
  unfold stream_function.
  destruct (bzip2_entries (stream_function_at L t) N N X Y RX RY)
    as (psi & Hpsi & Rpsi & _).
  rewrite Hpsi. simpl bind.
  destruct (gradient_axis0_entries N N psi Rpsi) as (gy & Hgy & Rgy & Egy);
    try lia.
  rewrite Hgy. simpl bind.
  destruct (gradient_axis1_entries N N psi Rpsi) as (gx & Hgx & Rgx & Egx);
    try lia.
  rewrite Hgx. simpl bind.
  destruct (stack_last_entries N N
              (map2d (fun d => d * strength * inject_Z n) gy)
              (map2d (fun d => - d * strength * inject_Z n) gx))
    as (s & Hs & Rs & Es); try (apply regular2_map2d; assumption).
  rewrite Hs. simpl bind.
  unfold gaussian_blur. change (Qle_bool 1 0) with false. cbv iota.
  fold v.
  assert (Lv : length v = 7%nat) by apply length_blur_weights_unit.
  destruct (blur_passes_entries v N N 2 s Rs)
    as (b0 & out & Hb0 & Hout & [Rb0 Eb0] & [Ro Eo]); try lia.
  rewrite Hb0. simpl bind. rewrite Hout.
  rewrite Lv in Eb0, Eo. change (Nat.div (7 - 1) 2) with 3%nat in Eb0, Eo.
  exists psi, s, b0, out. split; [reflexivity|].
  split; [assumption|]. split; [assumption|]. split; [assumption|].
  split; [|split; [|split; assumption]].
  - intros a b Ha1 Ha2 Hb. destruct (Es a b ltac:(lia) Hb) as [-> _].
    rewrite (get2_map2d _ N N gy) by (assumption || lia).
    rewrite Egy by assumption. reflexivity.
  - intros a b Ha Hb1 Hb2. destruct (Es a b Ha ltac:(lia)) as [_ ->].
    rewrite (get2_map2d _ N N gx) by (assumption || lia).
    rewrite Egx by assumption. reflexivity.
Qed.

(** The smoothed velocity field is divergence-free away from the border:
    at a resolution of at least 9, at every cell at least four cells from
    each edge, the central-difference divergence of the field returned by
    [velocity_field] is zero, for every time, strength and stream
    function.  (Nearer the border the one-sided differences of
    [np.gradient] and the zero padding of the blur take part.) *)
Theorem velocity_field_divergence_free (L : Libm) (n : Z) (t strength : Q) :
  (9 <= n)%Z ->
  exists vel, velocity_field L n t strength = Ok vel /\
    forall i j, (4 <= i)%nat -> (i + 5 <= Z.to_nat n)%nat ->
                (4 <= j)%nat -> (j + 5 <= Z.to_nat n)%nat ->
                divergence_at vel i j == 0.
Proof.
  intros Hn.
  destruct (velocity_field_pieces L n t strength ltac:(lia))
    as (psi & s & b0 & vel & Hv & Rs & Rb0 & Rvel & Es0 & Es1 & Eb0 & Evel).
  set (N := Z.to_nat n) in *. set (v := blur_weights L 1) in *.
  assert (Lv : length v = 7%nat) by apply length_blur_weights_unit.
  exists vel. split; [assumption|].
  assert (Hent : forall i' j' k, (k < 2)%nat ->
            (3 <= i')%nat -> (i' < N)%nat -> (3 <= j')%nat -> (j' < N)%nat ->
            get3 vel i' j' k ==
            sumQ (map (fun q =>
              sumQ (map (fun p =>
                      nth p v 0 * nth q v 0
                      * get3 s (i' + 3 - p) (j' + 3 - q) k)
                    (seq 0 7)))
              (seq 0 7))).
  { intros i' j' k Hk Hi1 Hi2 Hj1 Hj2. rewrite Evel by assumption.
    pose proof (blur_interior_entry v N N 2 s b0 i' j' k Rs Rb0) as H.
    rewrite Lv in H. change (Nat.div (7 - 1) 2) with 3%nat in H.
    cbv zeta in H. apply H; try lia.
    intros a b Ha Hb. apply Eb0; assumption. }
  intros i j Hi1 Hi2 Hj1 Hj2. unfold divergence_at.
  rewrite (Hent i (j + 1)%nat 0%nat), (Hent i (j - 1)%nat 0%nat),
          (Hent (i + 1)%nat j 1%nat), (Hent (i - 1)%nat j 1%nat) by lia.
  match goal with
  | |- (?a - ?b) / 2 + (?c - ?d) / 2 == 0 =>
      setoid_replace ((a - b) / 2 + (c - d) / 2)
        with ((a - b + (c - d)) / 2) by field
  end.
  rewrite sumQ2_combine.
  rewrite sumQ_zero; [reflexivity|]. intros q Hq. apply in_seq in Hq.
  apply sumQ_zero. intros p Hp. apply in_seq in Hp. cbv beta.
  replace (i + 1 + 3 - p)%nat with (i + 3 - p + 1)%nat by lia.
  replace (i - 1 + 3 - p)%nat with (i + 3 - p - 1)%nat by lia.
  replace (j + 1 + 3 - q)%nat with (j + 3 - q + 1)%nat by lia.
  replace (j - 1 + 3 - q)%nat with (j + 3 - q - 1)%nat by lia.
  set (a := (i + 3 - p)%nat). set (b := (j + 3 - q)%nat).
  assert (Ha : (1 <= a)%nat /\ (a + 2 <= N)%nat) by (subst a; lia).
  assert (Hb : (1 <= b)%nat /\ (b + 2 <= N)%nat) by (subst b; lia).
  rewrite (Es0 a (b + 1)%nat), (Es0 a (b - 1)%nat) by lia.
  rewrite (Es1 (a + 1)%nat b), (Es1 (a - 1)%nat b) by lia.
  field.
Qed.

Lemma velocity_field_divergence_free_witness :
  exists vel, velocity_field sample_libm 9 (1 # 2) 1.4 = Ok vel /\
    forall i j, (4 <= i)%nat -> (i + 5 <= Z.to_nat 9)%nat ->
                (4 <= j)%nat -> (j + 5 <= Z.to_nat 9)%nat ->
                divergence_at vel i j == 0.
Proof.
  apply (velocity_field_divergence_free sample_libm 9 (1 # 2) 1.4). lia.
Defined.

(** * The command line *)

Lemma strip_dashes_some (raw key : string) :
  strip_dashes raw = Some key -> raw = ("--" ++ key)%string.
Proof.
  unfold strip_dashes. destruct raw as [|a raw]; [discriminate|].
  destruct a as [[] [] [] [] [] [] [] []]; try discriminate.
  destruct raw as [|b raw]; [discriminate|].
  destruct b as [[] [] [] [] [] [] [] []]; try discriminate.
  intros H. injection H as <-. reflexivity.
Qed.

Lemma split_once_some (sep : ascii) (s a b : string) :
  split_once sep s = Some (a, b) -> s = (a ++ String sep b)%string.
Proof.
  revert a. induction s as [|c s IH]; intros a H; simpl in H; [discriminate|].
  destruct (Ascii.eqb_spec c sep) as [->|Hc].
  - injection H as <- <-. reflexivity.
  - destruct (split_once sep s) as [[a' b']|]; [|discriminate].
    injection H as <- <-. simpl. f_equal. apply IH. reflexivity.
Qed.

Lemma apply_cli_overrides_app (P : Python) (c : Config)
    (args1 args2 : list string) :
  apply_cli_overrides P c (args1 ++ args2) =
  let '(c1, out1) := apply_cli_overrides P c args1 in
  let '(c2, out2) := apply_cli_overrides P c1 args2 in
  (c2, out1 ++ out2).
Proof.
  revert c. induction args1 as [|raw args1 IH]; intros c; simpl.
  - destruct (apply_cli_overrides P c args2). reflexivity.
  - destruct (apply_one P c raw) as [c1 o1]. rewrite IH.
    destruct (apply_cli_overrides P c1 args1) as [c2 o2].
    destruct (apply_cli_overrides P c2 args2) as [c3 o3].
    rewrite app_assoc. reflexivity.
Qed.

(** What an argument must look like for one iteration to change the
    configuration: it is [--no-live-view], or it starts with [--], has an
    [=] and names one of the seven options before it. *)
Lemma apply_one_changes (P : Python) (c : Config) (raw : string) :
  fst (apply_one P c raw) = c \/
  (raw = "--no-live-view"%string /\
   fst (apply_one P c raw) = set_live_view c false) \/
  exists opt value,
    raw = ("--" ++ opt ++ "=" ++ value)%string /\
    ((opt = "steps"%string /\ exists v, fst (apply_one P c raw) = set_steps c v)
     \/ (opt = "resolution"%string /\
         exists v, fst (apply_one P c raw) = set_resolution c v)
     \/ (opt = "dt"%string /\ exists v, fst (apply_one P c raw) = set_dt c v)
     \/ (opt = "strength"%string /\
         exists v, fst (apply_one P c raw) = set_strength c v)
     \/ (opt = "gif-name"%string /\
         fst (apply_one P c raw) = set_gif_name c value)
     \/ (opt = "output-dir"%string /\
         fst (apply_one P c raw) = set_output_dir c value)
     \/ (opt = "fps"%string /\
         exists v, fst (apply_one P c raw) = set_fps c v)).
Proof.
  unfold apply_one.
  destruct (strip_dashes raw) as [key|] eqn:Es; [|left; reflexivity].
  apply strip_dashes_some in Es. subst raw.
  destruct (String.eqb_spec key "no-live-view") as [->|Hn].
  { right. left. split; reflexivity. }
  destruct (split_once "=" key) as [[opt value]|] eqn:Ep; [|left; reflexivity].
  apply split_once_some in Ep. subst key.
  destruct (String.eqb_spec opt "steps") as [->|H1].
  { destruct (int_of_str P value) as [msg|v]; [left; reflexivity|].
    right. right. exists "steps"%string, value. split; [reflexivity|].
    left. split; [reflexivity|]. exists v. reflexivity. }
  destruct (String.eqb_spec opt "resolution") as [->|H2].
  { destruct (int_of_str P value) as [msg|v]; [left; reflexivity|].
    right. right. exists "resolution"%string, value. split; [reflexivity|].
    right. left. split; [reflexivity|]. exists v. reflexivity. }
  destruct (String.eqb_spec opt "dt") as [->|H3].
  { destruct (float_of_str P value) as [msg|v]; [left; reflexivity|].
    right. right. exists "dt"%string, value. split; [reflexivity|].
    right. right. left. split; [reflexivity|]. exists v. reflexivity. }
  destruct (String.eqb_spec opt "strength") as [->|H4].
  { destruct (float_of_str P value) as [msg|v]; [left; reflexivity|].
    right. right. exists "strength"%string, value. split; [reflexivity|].
    right. right. right. left. split; [reflexivity|]. exists v. reflexivity. }
  destruct (String.eqb_spec opt "gif-name") as [->|H5].
  { right. right. exists "gif-name"%string, value. split; [reflexivity|].
    right. right. right. right. left. split; reflexivity. }
  destruct (String.eqb_spec opt "output-dir") as [->|H6].
  { right. right. exists "output-dir"%string, value. split; [reflexivity|].
    right. right. right. right. right. left. split; reflexivity. }
  destruct (String.eqb_spec opt "fps") as [->|H7].
  { destruct (int_of_str P value) as [msg|v]; [left; reflexivity|].
    right. right. exists "fps"%string, value. split; [reflexivity|].
    right. right. right. right. right. right. split; [reflexivity|].
    exists v. reflexivity. }
  left. reflexivity.
Qed.

(** Lifting a property of one iteration that holds for the arguments
    rejected by [p] to the whole loop. *)
Lemma cli_frame {A : Type} (P : Python) (proj : Config -> A)
    (p : string -> bool) :
  (forall c raw, p raw = false -> proj (fst (apply_one P c raw)) = proj c) ->
  forall args c, existsb p args = false ->
    proj (fst (apply_cli_overrides P c args)) = proj c.
Proof.
  intros Hone args. induction args as [|raw args IH]; intros c Hp; simpl.
  - reflexivity.
  - simpl in Hp. apply orb_false_elim in Hp as [Hraw Hrest].
    specialize (Hone c raw Hraw).
    destruct (apply_one P c raw) as [c1 o1]. simpl in Hone.
    specialize (IH c1 Hrest).
    destruct (apply_cli_overrides P c1 args) as [c2 o2]. simpl in *.
    congruence.
Qed.

Lemma string_prefix_app (p s : string) :
  String.prefix p (p ++ s) = true.
Proof.
  induction p as [|a p IH]; simpl.
  - destruct s; reflexivity.
  - destruct (ascii_dec a a); [assumption|contradiction].
Qed.

Ltac cli_one_step P c raw Hp :=
  destruct (apply_one_changes P c raw)
    as [-> | [[-> ->] | (opt & value & -> & H)]];
  [reflexivity
  | try reflexivity; vm_compute in Hp; discriminate Hp
  |];
  destruct H as [[-> [v ->]] | [[-> [v ->]] | [[-> [v ->]] | [[-> [v ->]]
                | [[-> ->] | [[-> ->] | [-> [v ->]]]]]]]];
  try reflexivity;
  match type of Hp with
  | String.prefix ?p _ = false =>
      pose proof (string_prefix_app p value) as E;
      cbn [append] in E, Hp; congruence
  end.

Lemma apply_one_keeps_steps (P : Python) (c : Config) (raw : string) :
  String.prefix "--steps=" raw = false ->
  steps (core (fst (apply_one P c raw))) = steps (core c).
Proof. intros Hp. cli_one_step P c raw Hp. Qed.

Lemma apply_one_keeps_resolution (P : Python) (c : Config) (raw : string) :
  String.prefix "--resolution=" raw = false ->
  resolution (core (fst (apply_one P c raw))) = resolution (core c).
Proof. intros Hp. cli_one_step P c raw Hp. Qed.

Lemma apply_one_keeps_dt (P : Python) (c : Config) (raw : string) :
  String.prefix "--dt=" raw = false ->
  dt (core (fst (apply_one P c raw))) = dt (core c).
Proof. intros Hp. cli_one_step P c raw Hp. Qed.

Lemma apply_one_keeps_strength (P : Python) (c : Config) (raw : string) :
  String.prefix "--strength=" raw = false ->
  strength (core (fst (apply_one P c raw))) = strength (core c).
Proof. intros Hp. cli_one_step P c raw Hp. Qed.

Lemma apply_one_keeps_fps (P : Python) (c : Config) (raw : string) :
  String.prefix "--fps=" raw = false ->
  fps (core (fst (apply_one P c raw))) = fps (core c).
Proof. intros Hp. cli_one_step P c raw Hp. Qed.

Lemma apply_one_keeps_gif_name (P : Python) (c : Config) (raw : string) :
  String.prefix "--gif-name=" raw = false ->
  gif_name (fst (apply_one P c raw)) = gif_name c.
Proof. intros Hp. cli_one_step P c raw Hp. Qed.

Lemma apply_one_keeps_output_dir (P : Python) (c : Config) (raw : string) :
  String.prefix "--output-dir=" raw = false ->
  output_dir (fst (apply_one P c raw)) = output_dir c.
Proof. intros Hp. cli_one_step P c raw Hp. Qed.

Lemma apply_one_keeps_live_view (P : Python) (c : Config) (raw : string) :
  String.eqb "--no-live-view" raw = false ->
  live_view (core (fst (apply_one P c raw))) = live_view (core c).
Proof. intros Hp. cli_one_step P c raw Hp. Qed.

Lemma cli_live_view (P : Python) (args : list string) (c : Config) :
  live_view (core (fst (apply_cli_overrides P c args)))
  = live_view (core c) && negb (existsb (String.eqb "--no-live-view") args).
Proof.
  revert c. induction args as [|raw args IH]; intros c;
    cbn [apply_cli_overrides existsb].
  - cbn [fst negb]. rewrite andb_true_r. reflexivity.
  - destruct (String.eqb "--no-live-view" raw) eqn:E.
    + apply String.eqb_eq in E. subst raw.
      change (apply_one P c "--no-live-view")
        with (set_live_view c false, @nil string).
      cbv beta iota. specialize (IH (set_live_view c false)).
      destruct (apply_cli_overrides P (set_live_view c false) args)
        as [c2 o2].
      cbn [fst orb negb] in *. rewrite IH, andb_false_r. reflexivity.
    + pose proof (apply_one_keeps_live_view P c raw E) as H1.
      destruct (apply_one P c raw) as [c1 o1]. cbn [fst] in H1.
      specialize (IH c1).
      destruct (apply_cli_overrides P c1 args) as [c2 o2].
      cbn [fst orb] in *. rewrite IH, H1. reflexivity.
Qed.

(** What one iteration does with [--opt=value] for each of the options
    that take a number. *)
Lemma apply_one_steps (P : Python) (c : Config) (v : string) :
  apply_one P c ("--steps=" ++ v) =
  match int_of_str P v with
  | inr n => (set_steps c n, [])
  | inl msg => (c, [("Failed to parse value for '--steps': " ++ msg)%string])
  end.
Proof. reflexivity. Qed.

Lemma apply_one_resolution (P : Python) (c : Config) (v : string) :
  apply_one P c ("--resolution=" ++ v) =
  match int_of_str P v with
  | inr n => (set_resolution c n, [])
  | inl msg =>
      (c, [("Failed to parse value for '--resolution': " ++ msg)%string])
  end.
Proof. reflexivity. Qed.

Lemma apply_one_fps (P : Python) (c : Config) (v : string) :
  apply_one P c ("--fps=" ++ v) =
  match int_of_str P v with
  | inr n => (set_fps c n, [])
  | inl msg => (c, [("Failed to parse value for '--fps': " ++ msg)%string])
  end.
Proof. reflexivity. Qed.

Lemma apply_one_dt (P : Python) (c : Config) (v : string) :
  apply_one P c ("--dt=" ++ v) =
  match float_of_str P v with
  | inr q => (set_dt c q, [])
  | inl msg => (c, [("Failed to parse value for '--dt': " ++ msg)%string])
  end.
Proof. reflexivity. Qed.

Lemma apply_one_strength (P : Python) (c : Config) (v : string) :
  apply_one P c ("--strength=" ++ v) =
  match float_of_str P v with
  | inr q => (set_strength c q, [])
  | inl msg =>
      (c, [("Failed to parse value for '--strength': " ++ msg)%string])
  end.
Proof. reflexivity. Qed.

Lemma apply_one_gif_name (P : Python) (c : Config) (v : string) :
  apply_one P c ("--gif-name=" ++ v) = (set_gif_name c v, []).
Proof. reflexivity. Qed.

Lemma apply_one_output_dir (P : Python) (c : Config) (v : string) :
  apply_one P c ("--output-dir=" ++ v) = (set_output_dir c v, []).
Proof. reflexivity. Qed.

(** The loop around one argument. *)
Lemma apply_cli_overrides_around (P : Python) (c : Config)
    (pre post : list string) (raw : string) :
  apply_cli_overrides P c (pre ++ [raw] ++ post) =
  let '(c1, o1) := apply_cli_overrides P c pre in
  let '(c2, o2) := apply_one P c1 raw in
  let '(c3, o3) := apply_cli_overrides P c2 post in
  (c3, o1 ++ o2 ++ o3).
Proof.
  rewrite apply_cli_overrides_app.
  destruct (apply_cli_overrides P c pre) as [c1 o1]. simpl.
  destruct (apply_one P c1 raw) as [c2 o2].
  destruct (apply_cli_overrides P c2 post) as [c3 o3]. reflexivity.
Qed.

(** Each assignment of the loop is guarded by its own option name: after
    any list of arguments a field differs from its starting value only if
    some argument begins with [--name=] for that field's option, and the
    live view is on exactly when it was on and [--no-live-view] is not
    among the arguments.  Unknown options, arguments without [--] or
    without [=], and rejected values change nothing. *)
Theorem apply_cli_overrides_frame (P : Python) (c : Config)
    (args : list string) :
  let c' := fst (apply_cli_overrides P c args) in
  let named opt := existsb (String.prefix ("--" ++ opt ++ "=")) args in
  (named "steps"%string = false -> steps (core c') = steps (core c)) /\
  (named "resolution"%string = false ->
     resolution (core c') = resolution (core c)) /\
  (named "dt"%string = false -> dt (core c') = dt (core c)) /\
  (named "strength"%string = false -> strength (core c') = strength (core c)) /\
  (named "fps"%string = false -> fps (core c') = fps (core c)) /\
  (named "gif-name"%string = false -> gif_name c' = gif_name c) /\
  (named "output-dir"%string = false -> output_dir c' = output_dir c) /\
  live_view (core c')
  = live_view (core c) && negb (existsb (String.eqb "--no-live-view") args).
Proof.
  cbv zeta. repeat split.
  - apply (cli_frame P (fun k => steps (core k))).
    intros; apply apply_one_keeps_steps; assumption.
  - apply (cli_frame P (fun k => resolution (core k))).
    intros; apply apply_one_keeps_resolution; assumption.
  - apply (cli_frame P (fun k => dt (core k))).
    intros; apply apply_one_keeps_dt; assumption.
  - apply (cli_frame P (fun k => strength (core k))).
    intros; apply apply_one_keeps_strength; assumption.
  - apply (cli_frame P (fun k => fps (core k))).
    intros; apply apply_one_keeps_fps; assumption.
  - apply (cli_frame P gif_name).
    intros; apply apply_one_keeps_gif_name; assumption.
  - apply (cli_frame P output_dir).
    intros; apply apply_one_keeps_output_dir; assumption.
  - apply cli_live_view.
Qed.

Lemma apply_cli_overrides_frame_witness :
  resolution (core (fst (apply_cli_overrides sample_python default_config
     ["--steps=12"; "--resolutio=9"; "resolution=9"; "--fps=x"]%string)))
  = resolution (core default_config) /\
  fps (core (fst (apply_cli_overrides sample_python default_config
     ["--steps=12"; "--resolutio=9"; "resolution=9"; "--dt=x"]%string)))
  = fps (core default_config).
Proof.
  split.
  - apply (apply_cli_overrides_frame sample_python default_config
      ["--steps=12"; "--resolutio=9"; "resolution=9"; "--fps=x"]%string).
    reflexivity.
  - apply (apply_cli_overrides_frame sample_python default_config
      ["--steps=12"; "--resolutio=9"; "resolution=9"; "--dt=x"]%string).
    reflexivity.
Defined.

(** The last accepted occurrence of an option decides: when [--opt=v]
    has a value that parses and no later argument begins with [--opt=],
    the field holds that value at the end, whatever came before.  The two
    text options take the value verbatim, further [=] signs included. *)
Theorem apply_cli_overrides_last_wins (P : Python) (c : Config)
    (pre post : list string) (v : string) :
  let run opt :=
    fst (apply_cli_overrides P c
           (pre ++ [("--" ++ opt ++ "=" ++ v)%string] ++ post)) in
  let later opt := existsb (String.prefix ("--" ++ opt ++ "=")) post in
  (forall n, int_of_str P v = inr n -> later "steps"%string = false ->
     steps (core (run "steps"%string)) = n) /\
  (forall n, int_of_str P v = inr n -> later "resolution"%string = false ->
     resolution (core (run "resolution"%string)) = n) /\
  (forall n, int_of_str P v = inr n -> later "fps"%string = false ->
     fps (core (run "fps"%string)) = n) /\
  (forall q, float_of_str P v = inr q -> later "dt"%string = false ->
     dt (core (run "dt"%string)) = q) /\
  (forall q, float_of_str P v = inr q -> later "strength"%string = false ->
     strength (core (run "strength"%string)) = q) /\
  (later "gif-name"%string = false -> gif_name (run "gif-name"%string) = v) /\
  (later "output-dir"%string = false ->
     output_dir (run "output-dir"%string) = v).
Proof.
  cbv zeta. repeat split; intros;
    rewrite apply_cli_overrides_around;
    destruct (apply_cli_overrides P c pre) as [c1 o1].
  - change (apply_one P c1 ("--" ++ "steps" ++ "=" ++ v))
      with (apply_one P c1 ("--steps=" ++ v)).
    rewrite apply_one_steps, H.
    pose proof (cli_frame P (fun k => steps (core k)) _
                  (fun k raw => apply_one_keeps_steps P k raw)
                  post (set_steps c1 n) H0) as E.
    destruct (apply_cli_overrides P (set_steps c1 n) post). exact E.
  - change (apply_one P c1 ("--" ++ "resolution" ++ "=" ++ v))
      with (apply_one P c1 ("--resolution=" ++ v)).
    rewrite apply_one_resolution, H.
    pose proof (cli_frame P (fun k => resolution (core k)) _
                  (fun k raw => apply_one_keeps_resolution P k raw)
                  post (set_resolution c1 n) H0) as E.
    destruct (apply_cli_overrides P (set_resolution c1 n) post). exact E.
  - change (apply_one P c1 ("--" ++ "fps" ++ "=" ++ v))
      with (apply_one P c1 ("--fps=" ++ v)).
    rewrite apply_one_fps, H.
    pose proof (cli_frame P (fun k => fps (core k)) _
                  (fun k raw => apply_one_keeps_fps P k raw)
                  post (set_fps c1 n) H0) as E.
    destruct (apply_cli_overrides P (set_fps c1 n) post). exact E.
  - change (apply_one P c1 ("--" ++ "dt" ++ "=" ++ v))
      with (apply_one P c1 ("--dt=" ++ v)).
    rewrite apply_one_dt, H.
    pose proof (cli_frame P (fun k => dt (core k)) _
                  (fun k raw => apply_one_keeps_dt P k raw)
                  post (set_dt c1 q) H0) as E.
    destruct (apply_cli_overrides P (set_dt c1 q) post). exact E.
  - change (apply_one P c1 ("--" ++ "strength" ++ "=" ++ v))
      with (apply_one P c1 ("--strength=" ++ v)).
    rewrite apply_one_strength, H.
    pose proof (cli_frame P (fun k => strength (core k)) _
                  (fun k raw => apply_one_keeps_strength P k raw)
                  post (set_strength c1 q) H0) as E.
    destruct (apply_cli_overrides P (set_strength c1 q) post). exact E.
  - change (apply_one P c1 ("--" ++ "gif-name" ++ "=" ++ v))
      with (apply_one P c1 ("--gif-name=" ++ v)).
    rewrite apply_one_gif_name.
    pose proof (cli_frame P gif_name _
                  (fun k raw => apply_one_keeps_gif_name P k raw)
                  post (set_gif_name c1 v) H) as E.
    destruct (apply_cli_overrides P (set_gif_name c1 v) post). exact E.
  - change (apply_one P c1 ("--" ++ "output-dir" ++ "=" ++ v))
      with (apply_one P c1 ("--output-dir=" ++ v)).
    rewrite apply_one_output_dir.
    pose proof (cli_frame P output_dir _
                  (fun k raw => apply_one_keeps_output_dir P k raw)
                  post (set_output_dir c1 v) H) as E.
    destruct (apply_cli_overrides P (set_output_dir c1 v) post). exact E.
Qed.

Lemma apply_cli_overrides_last_wins_witness :
  fps (core (fst (apply_cli_overrides sample_python default_config
     (["--fps=24"; "--steps=3"]%string
      ++ [("--" ++ "fps" ++ "=" ++ "0")%string]
      ++ ["--fp=30"; "--no-live-view"]%string)))) = 0%Z /\
  gif_name (fst (apply_cli_overrides sample_python default_config
     ([] ++ [("--" ++ "gif-name" ++ "=" ++ "a=b.gif")%string]
      ++ ["--gif-nam=c.gif"]%string))) = "a=b.gif"%string.
Proof.
  split.
  - destruct (apply_cli_overrides_last_wins sample_python default_config
      ["--fps=24"; "--steps=3"]%string
      ["--fp=30"; "--no-live-view"]%string "0") as (_ & _ & H & _).
    apply H; reflexivity.
  - destruct (apply_cli_overrides_last_wins sample_python default_config
      [] ["--gif-nam=c.gif"]%string "a=b.gif") as (_ & _ & _ & _ & _ & H & _).
    apply H; reflexivity.
Defined.

(** A value that [int] or [float] rejects does not stop the loop: the
    [ValueError] is caught, one line is printed, and the arguments before
    and after are processed as if the argument were absent. *)
Theorem apply_cli_overrides_bad_value (P : Python) (c : Config)
    (pre post : list string) (opt v msg : string) :
  (In opt ["steps"; "resolution"; "fps"]%string /\ int_of_str P v = inl msg)
  \/ (In opt ["dt"; "strength"]%string /\ float_of_str P v = inl msg) ->
  apply_cli_overrides P c (pre ++ [("--" ++ opt ++ "=" ++ v)%string] ++ post)
  = (fst (apply_cli_overrides P c (pre ++ post)),
     snd (apply_cli_overrides P c pre)
     ++ [("Failed to parse value for '--" ++ opt ++ "': " ++ msg)%string]
     ++ snd (apply_cli_overrides P
               (fst (apply_cli_overrides P c pre)) post)).
Proof.
  intros H. rewrite apply_cli_overrides_around, apply_cli_overrides_app.
  destruct (apply_cli_overrides P c pre) as [c1 o1]. cbn [fst snd].
  assert (E : apply_one P c1 ("--" ++ opt ++ "=" ++ v)
              = (c1, [("Failed to parse value for '--" ++ opt ++ "': "
                       ++ msg)%string])).
  { destruct H as [[Hin Hv]|[Hin Hv]]; simpl in Hin;
      repeat (destruct Hin as [<-|Hin]; [|]); try contradiction.
    - change (apply_one P c1 ("--" ++ "steps" ++ "=" ++ v))
        with (apply_one P c1 ("--steps=" ++ v)).
      rewrite apply_one_steps, Hv. reflexivity.
    - change (apply_one P c1 ("--" ++ "resolution" ++ "=" ++ v))
        with (apply_one P c1 ("--resolution=" ++ v)).
      rewrite apply_one_resolution, Hv. reflexivity.
    - change (apply_one P c1 ("--" ++ "fps" ++ "=" ++ v))
        with (apply_one P c1 ("--fps=" ++ v)).
      rewrite apply_one_fps, Hv. reflexivity.
    - change (apply_one P c1 ("--" ++ "dt" ++ "=" ++ v))
        with (apply_one P c1 ("--dt=" ++ v)).
      rewrite apply_one_dt, Hv. reflexivity.
    - change (apply_one P c1 ("--" ++ "strength" ++ "=" ++ v))
        with (apply_one P c1 ("--strength=" ++ v)).
      rewrite apply_one_strength, Hv. reflexivity. }
  rewrite E. destruct (apply_cli_overrides P c1 post) as [c2 o2].
  reflexivity.
Qed.

Lemma apply_cli_overrides_bad_value_witness :
  apply_cli_overrides sample_python default_config
    (["--steps=3"]%string ++ [("--" ++ "fps" ++ "=" ++ "fast")%string]
     ++ ["--dt=2"]%string)
  = (fst (apply_cli_overrides sample_python default_config
            (["--steps=3"%string] ++ ["--dt=2"%string])),
     snd (apply_cli_overrides sample_python default_config ["--steps=3"%string])
     ++ [("Failed to parse value for '--" ++ "fps" ++ "': "
          ++ "invalid literal")%string]
     ++ snd (apply_cli_overrides sample_python
               (fst (apply_cli_overrides sample_python default_config
                       ["--steps=3"%string])) ["--dt=2"%string])).
Proof.
  apply (apply_cli_overrides_bad_value sample_python default_config
           ["--steps=3"%string] ["--dt=2"%string] "fps" "fast"
           "invalid literal").
  left. split; [simpl; auto|reflexivity].
Defined.


